(** * RoseDB: list and hash operations, and the ordered string index

    A shallow embedding of three parts of the store:
    - the list datatype ([LPush], [RPush], [LPop], [RPop], [LLen], [LIndex],
      [LSet], [LRange] and the helpers [listMeta], [saveListMeta],
      [pushInternal], [popInternal], [listSequence], [encodeListKey]);
    - the hash datatype ([HSet], [HSetNx], [HGet], [HDel], [setHashIndexer]);
    - the in-memory B-tree index of the string datatype ([Put], [Get],
      [Delete], [Ascend], [Descend]).

    Go values are modelled as follows.  A [[]byte] and a Go [string] are both
    a Rocq [string]: a finite sequence of 8-bit characters.  A [uint32] is a
    [Z] in [0, 2^32) and every arithmetic operation on it is followed by an
    explicit reduction modulo [2^32].  An [int] is a 64-bit signed [Z].  A map
    is a [gmap].  A function that returns [(value, error)] returns a pair or a
    [result]; the nil error is [None]. *)

From Stdlib Require Import ZArith Lia String Ascii List.
From stdpp Require Import base option list sorting gmap strings.

Local Open Scope Z_scope.

(** ** Machine integers and bytes *)

Abbreviation bytes := string.

(** [uint32(z)]: reduction of an integer to 32 bits. *)
Definition uint32 (z : Z) : Z := z mod 2 ^ 32.

(** A Go [int] on a 64-bit platform: two's complement wrap-around. *)
Definition wrap_int (z : Z) : Z := (z + 2 ^ 63) mod 2 ^ 64 - 2 ^ 63.

(** [byte(z)]: the low eight bits, as a character. *)
Definition byte_of (z : Z) : ascii := ascii_of_N (Z.to_N (z mod 256)).

(** [uint32(b)] for a byte [b]. *)
Definition byte_val (c : ascii) : Z := Z.of_N (N_of_ascii c).

(** [binary.LittleEndian.PutUint32]: the four bytes written, lowest first. *)
Definition PutUint32 (v : Z) : bytes :=
  String (byte_of v)
    (String (byte_of (Z.shiftr v 8))
       (String (byte_of (Z.shiftr v 16))
          (String (byte_of (Z.shiftr v 24)) EmptyString))).

(** [binary.LittleEndian.Uint32]: reads the first four bytes.  Go panics on a
    shorter slice; the callers below test the length first. *)
Definition Uint32 (b : bytes) : Z :=
  match b with
  | String b0 (String b1 (String b2 (String b3 _))) =>
      Z.lor (Z.lor (Z.lor (byte_val b0) (Z.shiftl (byte_val b1) 8))
                   (Z.shiftl (byte_val b2) 16))
            (Z.shiftl (byte_val b3) 24)
  | _ => 0
  end.

(** [b[n:]] for a byte slice. *)
Fixpoint bytes_drop (n : nat) (b : bytes) : bytes :=
  match n, b with
  | O, _ => b
  | S n', String _ b' => bytes_drop n' b'
  | S _, EmptyString => EmptyString
  end.

(** [len(b)] as an integer. *)
Definition len (b : bytes) : Z := Z.of_nat (String.length b).

(** ** Errors

    [ErrIO] stands for any failure of an append to the log.  [Panic] is not an
    error value of the program: it marks the places where the Go code would
    stop with a run-time panic (a nil tree, a slice expression out of range),
    so that the model stays total. *)
Inductive error : Set :=
| ErrKeyNotFound
| ErrWrongIndex
| ErrLogFileNotFound
| ErrIO
| ErrInvalid
| Panic.

#[global] Instance error_eq_dec : EqDecision error.
Proof. solve_decision. Defined.

Inductive result (A : Type) : Type :=
| Ok (a : A)
| Err (e : error).
Arguments Ok {A} a.
Arguments Err {A} e.

(** ** The list datatype *)

Module ListDB.

(** Modelled from the spec: the constant [initialListSeq] is declared outside
    the files at hand; the spec gives the initial head sequence as [2^31]. *)
Definition initialListSeq : Z := 2 ^ 31.

Inductive EntryType : Set := TypeNormal | TypeDelete | TypeListMeta.

#[global] Instance EntryType_eq_dec : EqDecision EntryType.
Proof. solve_decision. Defined.

(** [logfile.LogEntry], with the fields the list operations set.  No list
    operation sets an expiry, so [ExpiredAt] is always zero and is left out. *)
Record LogEntry : Set := mkEntry { Key : bytes; Value : bytes; Typ : EntryType }.

Inductive IndexMode : Set := KeyOnlyMemMode | KeyValueMemMode.

#[global] Instance IndexMode_eq_dec : EqDecision IndexMode.
Proof. solve_decision. Defined.

(** Modelled from the spec: the node of a per-key radix trie, "[{fileId,
    offset, size, expireAt}] or (in value-in-memory mode) the value bytes
    themselves".  The log of the list datatype is one sequence of entries and
    [offset] is the place of the entry in it; file ids and sizes only feed the
    discard counters, which no list result depends on. *)
Record indexNode : Set := mkNode { value : bytes; offset : nat }.

(** Modelled from the spec: [art.AdaptiveRadixTree], the per-key radix trie
    with [put], [get] and [delete] on internal keys, as a finite map. *)
Abbreviation ART := (gmap string indexNode).

(** The part of [RoseDB] the list operations use: the index mode, the map
    [listIndex.trees] from user key to tree, the list log, and the outcomes of
    the coming appends ([true]: the append fails; past the end of [faults]
    every append succeeds). *)
Record RoseDB : Type := mkDB {
  mode : IndexMode;
  trees : gmap string (gmap string indexNode);
  logfile : list LogEntry;
  faults : list bool
}.

Definition set_trees (db : RoseDB) (t : gmap string (gmap string indexNode)) : RoseDB :=
  mkDB (mode db) t (logfile db) (faults db).

(** [db.listIndex.trees[string(key)] = idxTree], also the effect of mutating
    the tree the map points to. *)
Definition set_tree (db : RoseDB) (key : bytes) (idxTree : gmap string indexNode) : RoseDB :=
  set_trees db (<[key := idxTree]> (trees db)).

(** The store of [Open] on an empty directory. *)
Definition empty_db (m : IndexMode) : RoseDB := mkDB m ∅ [] [].

(** Modelled from the spec: [writeLogEntry], the log manager's
    "[append(entry, type) → position]", which "may fail with IO". *)
Definition writeLogEntry (db : RoseDB) (ent : LogEntry) : result nat * RoseDB :=
  match faults db with
  | true :: fs => (Err ErrIO, mkDB (mode db) (trees db) (logfile db) fs)
  | false :: fs =>
      (Ok (length (logfile db)), mkDB (mode db) (trees db) (logfile db ++ [ent]) fs)
  | [] =>
      (Ok (length (logfile db)), mkDB (mode db) (trees db) (logfile db ++ [ent]) [])
  end.

(** Modelled from the spec: [updateIndexTree], the trie's [put] of a node for
    the entry just appended at [pos]; in value-in-memory mode the node holds
    the value.  It cannot fail. *)
Definition updateIndexTree (db : RoseDB) (idxTree : gmap string indexNode)
    (ent : LogEntry) (pos : nat) : gmap string indexNode :=
  <[Key ent := mkNode (if decide (mode db = KeyValueMemMode) then Value ent else EmptyString) pos]> idxTree.

(** Modelled from the spec: [getVal], the trie's [get] followed, in key-only
    mode, by the log manager's "[readAt]"; an absent key and a tombstone are
    [ErrKeyNotFound]. *)
Definition getVal (db : RoseDB) (idxTree : gmap string indexNode) (key : bytes) : result bytes :=
  match idxTree !! key with
  | None => Err ErrKeyNotFound
  | Some node =>
      if decide (mode db = KeyValueMemMode) then Ok (value node)
      else match logfile db !! offset node with
           | None => Err ErrLogFileNotFound
           | Some ent =>
               if decide (Typ ent = TypeDelete) then Err ErrKeyNotFound
               else Ok (Value ent)
           end
  end.

(** [encodeListKey]: a buffer of [len(key)+4] bytes, the sequence in its first
    four bytes (little-endian), the key after them. *)
Definition encodeListKey (key : bytes) (seq : Z) : bytes :=
  (PutUint32 seq ++ key)%string.

(** [decodeListKey]: the sequence from [buf[:4]], the key from [buf[4:]].
    [buf[:4]] panics on a buffer shorter than four bytes: [None]. *)
Definition decodeListKey (buf : bytes) : option (bytes * Z) :=
  match buf with
  | String _ (String _ (String _ (String _ key))) => Some (key, Uint32 buf)
  | _ => None
  end.

(** [listMeta]: the head and tail sequences stored under the user key, or the
    initial ones when there is no value ([ErrKeyNotFound] is not an error
    here).  A value of 1 to 7 bytes makes [val[4:8]] panic; [saveListMeta]
    only writes 8 bytes. *)
Definition listMeta (db : RoseDB) (idxTree : gmap string indexNode) (key : bytes)
    : Z * Z * option error :=
  match getVal db idxTree key with
  | Err e =>
      if decide (e = ErrKeyNotFound) then (initialListSeq, initialListSeq + 1, None)
      else (0, 0, Some e)
  | Ok val =>
      if decide (len val = 0) then (initialListSeq, initialListSeq + 1, None)
      else if decide (len val < 8) then (0, 0, Some Panic)
      else (Uint32 val, Uint32 (bytes_drop 4 val), None)
  end.

(** [saveListMeta]: appends a [TypeListMeta] entry whose value is [headSeq]
    then [tailSeq], and on success puts it in the tree.  [idxTree] is the tree
    [trees[key]] the caller holds; the updated tree is stored back there. *)
Definition saveListMeta (db : RoseDB) (key : bytes) (idxTree : gmap string indexNode)
    (headSeq tailSeq : Z) : option error * RoseDB :=
  let buf := (PutUint32 headSeq ++ PutUint32 tailSeq)%string in
  let ent := mkEntry key buf TypeListMeta in
  match writeLogEntry db ent with
  | (Err e, db1) => (Some e, db1)
  | (Ok pos, db1) => (None, set_tree db1 key (updateIndexTree db1 idxTree ent pos))
  end.

(** [pushInternal]: the element is appended and indexed under the current
    head (left) or tail (right) sequence, then the moved head or tail is
    saved.  Every caller has made sure the tree exists; on a nil tree the code
    would panic. *)
Definition pushInternal (db : RoseDB) (key val : bytes) (isLeft : bool)
    : option error * RoseDB :=
  match trees db !! key with
  | None => (Some Panic, db)
  | Some idxTree =>
      match listMeta db idxTree key with
      | (_, _, Some e) => (Some e, db)
      | (headSeq, tailSeq, None) =>
          let seq := if isLeft then headSeq else tailSeq in
          let encKey := encodeListKey key seq in
          let ent := mkEntry encKey val TypeNormal in
          match writeLogEntry db ent with
          | (Err e, db1) => (Some e, db1)
          | (Ok valuePos, db1) =>
              let idxTree1 := updateIndexTree db1 idxTree ent valuePos in
              let headSeq1 := if isLeft then uint32 (headSeq - 1) else headSeq in
              let tailSeq1 := if isLeft then tailSeq else uint32 (tailSeq + 1) in
              saveListMeta (set_tree db1 key idxTree1) key idxTree1 headSeq1 tailSeq1
          end
      end
  end.

(** [popInternal].  The discard events sent at the end of a successful pop go to a buffered
    channel read by another goroutine; they change neither the index nor the
    result and are left out. *)
Definition popInternal (db : RoseDB) (key : bytes) (isLeft : bool)
    : option bytes * option error * RoseDB :=
  match trees db !! key with
  | None => (None, None, db)
  | Some idxTree =>
      match listMeta db idxTree key with
      | (_, _, Some e) => (None, Some e, db)
      | (headSeq, tailSeq, None) =>
          let size := uint32 (tailSeq - headSeq - 1) in
          if decide (size <= 0) then
            if decide (headSeq ≠ initialListSeq ∨ tailSeq ≠ initialListSeq + 1) then
              (None, None,
               snd (saveListMeta db key idxTree initialListSeq (initialListSeq + 1)))
            else (None, None, db)
          else
            let seq := if isLeft then uint32 (headSeq + 1) else uint32 (tailSeq - 1) in
            let encKey := encodeListKey key seq in
            match getVal db idxTree encKey with
            | Err e => (None, Some e, db)
            | Ok val =>
                let ent := mkEntry encKey EmptyString TypeDelete in
                match writeLogEntry db ent with
                | (Err e, db1) => (None, Some e, db1)
                | (Ok _, db1) =>
                    let idxTree1 := delete encKey idxTree in
                    let headSeq1 := if isLeft then uint32 (headSeq + 1) else headSeq in
                    let tailSeq1 := if isLeft then tailSeq else uint32 (tailSeq - 1) in
                    match saveListMeta (set_tree db1 key idxTree1) key idxTree1
                            headSeq1 tailSeq1 with
                    | (Some e, db2) => (None, Some e, db2)
                    | (None, db2) => (Some val, None, db2)
                    end
                end
            end
      end
  end.

(** [listSequence]: logical index to physical sequence; [index] is a Go
    [int], converted to [uint32] by truncation. *)
Definition listSequence (headSeq tailSeq index : Z) : Z * option error :=
  (if decide (index >= 0) then uint32 (headSeq + uint32 index + 1)
   else uint32 (tailSeq - uint32 (wrap_int (- index))),
   None).

(** The loop [for _, val := range values] of the four push operations. *)
Fixpoint pushAll (db : RoseDB) (key : bytes) (values : list bytes) (isLeft : bool)
    : option error * RoseDB :=
  match values with
  | [] => (None, db)
  | val :: rest =>
      match pushInternal db key val isLeft with
      | (Some e, db1) => (Some e, db1)
      | (None, db1) => pushAll db1 key rest isLeft
      end
  end.

(** [if trees[key] == nil { trees[key] = art.NewART() }]. *)
Definition ensure_tree (db : RoseDB) (key : bytes) : RoseDB :=
  match trees db !! key with
  | None => set_tree db key ∅
  | Some _ => db
  end.

Definition LPush (db : RoseDB) (key : bytes) (values : list bytes) : option error * RoseDB :=
  pushAll (ensure_tree db key) key values true.

Definition LPushX (db : RoseDB) (key : bytes) (values : list bytes) : option error * RoseDB :=
  match trees db !! key with
  | None => (Some ErrKeyNotFound, db)
  | Some _ => pushAll db key values true
  end.

Definition RPush (db : RoseDB) (key : bytes) (values : list bytes) : option error * RoseDB :=
  pushAll (ensure_tree db key) key values false.

Definition RPushX (db : RoseDB) (key : bytes) (values : list bytes) : option error * RoseDB :=
  match trees db !! key with
  | None => (Some ErrKeyNotFound, db)
  | Some _ => pushAll db key values false
  end.

Definition LPop (db : RoseDB) (key : bytes) : option bytes * option error * RoseDB :=
  popInternal db key true.

Definition RPop (db : RoseDB) (key : bytes) : option bytes * option error * RoseDB :=
  popInternal db key false.

Definition LMove (db : RoseDB) (srcKey dstKey : bytes) (srcIsLeft dstIsLeft : bool)
    : option bytes * option error * RoseDB :=
  match popInternal db srcKey srcIsLeft with
  | (_, Some e, db1) => (None, Some e, db1)
  | (None, None, db1) => (None, None, db1)
  | (Some popValue, None, db1) =>
      match pushInternal (ensure_tree db1 dstKey) dstKey popValue dstIsLeft with
      | (Some e, db2) => (None, Some e, db2)
      | (None, db2) => (Some popValue, None, db2)
      end
  end.

(** [LLen]: [int(tailSeq - headSeq - 1)], the subtraction being on [uint32]. *)
Definition LLen (db : RoseDB) (key : bytes) : Z :=
  match trees db !! key with
  | None => 0
  | Some idxTree =>
      match listMeta db idxTree key with
      | (_, _, Some _) => 0
      | (headSeq, tailSeq, None) => uint32 (tailSeq - headSeq - 1)
      end
  end.

Definition LIndex (db : RoseDB) (key : bytes) (index : Z) : option bytes * option error :=
  match trees db !! key with
  | None => (None, None)
  | Some idxTree =>
      match listMeta db idxTree key with
      | (_, _, Some e) => (None, Some e)
      | (headSeq, tailSeq, None) =>
          match listSequence headSeq tailSeq index with
          | (_, Some e) => (None, Some e)
          | (seq, None) =>
              if decide (seq >= tailSeq ∨ seq <= headSeq) then (None, Some ErrWrongIndex)
              else
                match getVal db idxTree (encodeListKey key seq) with
                | Err e => (None, Some e)
                | Ok val => (Some val, None)
                end
          end
      end
  end.

Definition LSet (db : RoseDB) (key : bytes) (index : Z) (val : bytes)
    : option error * RoseDB :=
  match trees db !! key with
  | None => (Some ErrKeyNotFound, db)
  | Some idxTree =>
      match listMeta db idxTree key with
      | (_, _, Some e) => (Some e, db)
      | (headSeq, tailSeq, None) =>
          match listSequence headSeq tailSeq index with
          | (_, Some e) => (Some e, db)
          | (seq, None) =>
              if decide (seq >= tailSeq ∨ seq <= headSeq) then (Some ErrWrongIndex, db)
              else
                let ent := mkEntry (encodeListKey key seq) val TypeNormal in
                match writeLogEntry db ent with
                | (Err e, db1) => (Some e, db1)
                | (Ok valuePos, db1) =>
                    (None, set_tree db1 key (updateIndexTree db1 idxTree ent valuePos))
                end
          end
      end
  end.

(** The loop [for seq := startSeq; seq < endSeq+1; seq++] of [LRange], by the
    number [n] of sequences left before [seq] reaches the bound. *)
Fixpoint rangeLoop (n : nat) (db : RoseDB) (idxTree : gmap string indexNode)
    (key : bytes) (seq : Z) (values : list bytes) : list bytes * option error :=
  match n with
  | O => (values, None)
  | S n' =>
      match getVal db idxTree (encodeListKey key seq) with
      | Err e => ([], Some e)
      | Ok val => rangeLoop n' db idxTree key (uint32 (seq + 1)) (values ++ [val])
      end
  end.

Definition LRange (db : RoseDB) (key : bytes) (start end_ : Z)
    : list bytes * option error :=
  match trees db !! key with
  | None => ([], Some ErrKeyNotFound)
  | Some idxTree =>
      match listMeta db idxTree key with
      | (_, _, Some e) => ([], Some e)
      | (headSeq, tailSeq, None) =>
          match listSequence headSeq tailSeq start with
          | (_, Some e) => ([], Some e)
          | (startSeq0, None) =>
              match listSequence headSeq tailSeq end_ with
              | (_, Some e) => ([], Some e)
              | (endSeq0, None) =>
                  let startSeq :=
                    if decide (startSeq0 <= headSeq) then uint32 (headSeq + 1) else startSeq0 in
                  let endSeq :=
                    if decide (endSeq0 >= tailSeq) then uint32 (tailSeq - 1) else endSeq0 in
                  if decide (startSeq >= tailSeq ∨ endSeq <= headSeq ∨ startSeq > endSeq)
                  then ([], Some ErrWrongIndex)
                  else rangeLoop (Z.to_nat (uint32 (endSeq + 1) - startSeq))
                         db idxTree key startSeq []
              end
          end
      end
  end.

End ListDB.

(** ** The hash datatype *)

Module HashDB.

Inductive IdxModeT : Set := KeyOnlyMemMode | KeyValueMemMode.

#[global] Instance IdxModeT_eq_dec : EqDecision IdxModeT.
Proof. solve_decision. Defined.

(** [storage.Meta]: key, value and extra (the hash field). *)
Record Meta : Set := mkMeta { Key : bytes; Value : bytes; Extra : bytes }.

Inductive Mark : Set := HashHSet | HashHDel.

(** [storage.Entry] as built by [storage.NewEntry(key, value, extra, Hash, mark)]. *)
Record Entry : Set := mkEntry { EMeta : Meta; EMark : Mark }.

Definition NewEntry (key value extra : bytes) (mark : Mark) : Entry :=
  mkEntry (mkMeta key value extra) mark.

(** [index.Indexer]. *)
Record Indexer : Set := mkIndexer { IMeta : Meta; FileId : Z; Offset : Z }.

(** The active file of the hash datatype: its id and write offset. *)
Record DBFile : Set := mkFile { Id : Z; FOffset : Z }.

(** The part of [RoseDB] the hash operations use: [config.IdxMode], the
    size budget of a file, the index [hashIndex.indexes] (key, then field),
    the active file if any, what was appended so far with the file id and the
    offset of each entry, and the outcomes of the coming appends ([true]: the
    append fails). *)
Record RoseDB : Type := mkDB {
  IdxMode : IdxModeT;
  maxFileSize : Z;
  indexes : gmap string (gmap string Indexer);
  activeFile : option DBFile;
  written : list (Z * Z * Entry);
  faults : list bool
}.

Definition set_indexes (db : RoseDB) (h : gmap string (gmap string Indexer)) : RoseDB :=
  mkDB (IdxMode db) (maxFileSize db) h (activeFile db) (written db) (faults db).

(** Modelled from the spec: [hash.Hash.HGet], the index's "[get]" for a field
    of a key; nil ([None]) for a field that is not stored. *)
Definition Hash_HGet (h : gmap string (gmap string Indexer)) (key field : bytes)
    : option Indexer :=
  h !! key ≫= λ fields, fields !! field.

(** Modelled from the spec: [hash.Hash.HSetIndexer], which decides the results
    of [HSet] and [HSetNx]: "[HSetNX] returns 1 iff the field was inserted.
    [HSet] returns 1 if new field, 0 if overwrite". *)
Definition Hash_HSetIndexer (h : gmap string (gmap string Indexer)) (idx : Indexer)
    (onlyNotExist : bool) : Z * gmap string (gmap string Indexer) :=
  let key := Key (IMeta idx) in
  let field := Extra (IMeta idx) in
  let fields := default ∅ (h !! key) in
  match fields !! field with
  | Some _ =>
      if onlyNotExist then (0, h) else (0, <[key := <[field := idx]> fields]> h)
  | None => (1, <[key := <[field := idx]> fields]> h)
  end.

(** Modelled from the spec: [hash.Hash.HDel], the index's "[delete]": 1 when
    the field was stored and is removed, 0 otherwise. *)
Definition Hash_HDel (h : gmap string (gmap string Indexer)) (key field : bytes)
    : Z * gmap string (gmap string Indexer) :=
  match h !! key with
  | None => (0, h)
  | Some fields =>
      match fields !! field with
      | None => (0, h)
      | Some _ => (1, <[key := delete field fields]> h)
      end
  end.

(** Modelled from the spec: [checkExpired], the lazy expiry test of a read.
    The model holds no deadline ([HExpire] is left out), and a key without a
    deadline is never expired. *)
Definition checkExpired (db : RoseDB) (key : bytes) : bool := false.

(** The index holds an indexer for the field of the key. *)
Definition field_stored (db : RoseDB) (key field : bytes) : Prop :=
  is_Some (Hash_HGet (indexes db) key field).

Section Ops.

(** The validation of keys and values and the encoded size of an entry are
    defined outside the files at hand; the operations are stated for any. *)
Variable checkKeyValue : bytes → list bytes → option error.
Variable Size : Entry → Z.

(** Modelled from the spec: [db.store], the log manager's "[append]", which
    "may fail with IO": "encode entry, write to active segment, return
    position.  If resulting active size > [maxFileSize], seal active (move to
    archived), allocate [fileId+1] as new active".  The sealed files stay
    readable: [written] keeps every entry with its file id and offset. *)
Definition store (db : RoseDB) (e : Entry) : option error * RoseDB :=
  match activeFile db with
  | None => (Some ErrInvalid, db)
  | Some f =>
      match faults db with
      | true :: fs =>
          (Some ErrIO,
           mkDB (IdxMode db) (maxFileSize db) (indexes db) (activeFile db) (written db) fs)
      | _ =>
          let size := FOffset f + Size e in
          (None,
           mkDB (IdxMode db) (maxFileSize db) (indexes db)
             (Some (if decide (size > maxFileSize db) then mkFile (Id f + 1) 0
                    else mkFile (Id f) size))
             (written db ++ [(Id f, FOffset f, e)]) (tail (faults db)))
      end
  end.

(** Modelled from the spec: [readValFromDbFile], the log manager's
    "[readAt]" of a file id and an offset, for an indexer; nil for a nil
    indexer or a place that holds no entry. *)
Definition readValFromDbFile (db : RoseDB) (idx : option Indexer) : bytes :=
  match idx with
  | None => EmptyString
  | Some i =>
      match list_find (λ r, r.1.1 = FileId i ∧ r.1.2 = Offset i) (written db) with
      | Some (_, (_, e)) => Value (EMeta e)
      | None => EmptyString
      end
  end.

Definition setHashIndexer (db : RoseDB) (e : Entry) (onlyNotExist : bool) : Z * RoseDB :=
  match activeFile db with
  | None => (0, db)
  | Some af =>
      let idx :=
        mkIndexer
          (mkMeta (Key (EMeta e))
                  (if decide (IdxMode db = KeyValueMemMode) then Value (EMeta e)
                   else EmptyString)
                  (Extra (EMeta e)))
          (Id af) (FOffset af - Size e) in
      let '(res, h) := Hash_HSetIndexer (indexes db) idx onlyNotExist in
      (res, set_indexes db h)
  end.

(** [HGet]; [checkKeyValue(key, nil)] passes one nil value.  In value-in-memory mode the code reads [idx.Meta.Value] without
    testing [idx]: on a field that is not stored this is a nil dereference. *)
Definition HGet (db : RoseDB) (key field : bytes) : result bytes :=
  match checkKeyValue key [EmptyString] with
  | Some _ => Ok EmptyString
  | None =>
      if checkExpired db key then Ok EmptyString
      else
        let idx := Hash_HGet (indexes db) key field in
        match IdxMode db with
        | KeyValueMemMode =>
            match idx with
            | Some i => Ok (Value (IMeta i))
            | None => Err Panic
            end
        | KeyOnlyMemMode => Ok (readValFromDbFile db idx)
        end
  end.

(** The part of [HSet] after the lock is taken. *)
Definition HSet_locked (db : RoseDB) (key field value : bytes) : Z * option error * RoseDB :=
  let e := NewEntry key value field HashHSet in
  match store db e with
  | (Some err, db1) => (0, Some err, db1)
  | (None, db1) =>
      let '(res, db2) := setHashIndexer db1 e false in
      (res, None, db2)
  end.

Definition HSet (db : RoseDB) (key field value : bytes) : Z * option error * RoseDB :=
  match checkKeyValue key [value] with
  | Some err => (0, Some err, db)
  | None =>
      if decide (IdxMode db = KeyValueMemMode) then
        match HGet db key field with
        | Err err => (0, Some err, db)
        | Ok oldVal =>
            if decide (oldVal = value) then (0, None, db)
            else HSet_locked db key field value
        end
      else HSet_locked db key field value
  end.

Definition HSetNx (db : RoseDB) (key field value : bytes) : Z * option error * RoseDB :=
  match checkKeyValue key [value] with
  | Some err => (0, Some err, db)
  | None =>
      let e := NewEntry key value field HashHSet in
      let '(res, db1) := setHashIndexer db e true in
      if decide (res = 1) then
        match store db1 e with
        | (Some err, db2) => (res, Some err, db2)
        | (None, db2) => (res, None, db2)
        end
      else (res, None, db1)
  end.

(** The loop [for _, f := range field] of [HDel], with the count so far. *)
Fixpoint HDel_loop (db : RoseDB) (key : bytes) (field : list bytes) (res : Z)
    : Z * option error * RoseDB :=
  match field with
  | [] => (res, None, db)
  | f :: rest =>
      let '(ok, h) := Hash_HDel (indexes db) key f in
      let db1 := set_indexes db h in
      if decide (ok = 1) then
        match store db1 (NewEntry key EmptyString f HashHDel) with
        | (Some err, db2) => (res, Some err, db2)
        | (None, db2) => HDel_loop db2 key rest (res + 1)
        end
      else HDel_loop db1 key rest res
  end.

Definition HDel (db : RoseDB) (key : bytes) (field : list bytes) : Z * option error * RoseDB :=
  match checkKeyValue key [EmptyString] with
  | Some err => (0, Some err, db)
  | None =>
      match field with
      | [] => (0, None, db)
      | _ => HDel_loop db key field 0
      end
  end.

End Ops.

(** A validation that accepts every non-empty key, and an entry size: one
    instance of the two parameters, for running the operations. *)
Definition check_nonempty (key : bytes) (values : list bytes) : option error :=
  if decide (key = EmptyString) then Some ErrInvalid else None.

Definition size_of (e : Entry) : Z :=
  26 + len (Key (EMeta e)) + len (Value (EMeta e)) + len (Extra (EMeta e)).

(** A freshly opened store with a file budget: empty index, empty active
    file. *)
Definition empty_db_sized (m : IdxModeT) (max : Z) (fs : list bool) : RoseDB :=
  mkDB m max ∅ (Some (mkFile 0 0)) [] fs.

Definition empty_db (m : IdxModeT) (fs : list bool) : RoseDB :=
  empty_db_sized m (2 ^ 24) fs.

End HashDB.

(** ** The B-tree index of the string datatype *)

Module Index.

(** Modelled from the spec: the log position a key points at, "[{fileId,
    offset, size}]" ([wal.ChunkPosition] is declared by a library). *)
Record ChunkPosition : Set := mkPos { fileId : Z; offset : Z; size : Z }.

(** [item]: a key and a pointer to a position (nil: [None]). *)
Record item : Set := mkItem { key : bytes; pos : option ChunkPosition }.

(** [bytes.Compare]: lexicographic order on the raw bytes. *)
Definition bytes_Compare (a b : bytes) : comparison := String.compare a b.

(** [(it *item) Less]. *)
Definition Less (it bi : item) : bool :=
  match bytes_Compare (key it) (key bi) with
  | Lt => true
  | _ => false
  end.

(** The tree of [github.com/google/btree], a library: an ordered collection
    of items without two equal ones, where [a] and [b] are equal when neither
    [a.Less(b)] nor [b.Less(a)].  It is modelled by its contents in ascending
    order; the four functions below follow the library's documentation. *)
Abbreviation BTree := (list item).

(** [ReplaceOrInsert]: adds the item; an equal item already in the tree is
    removed and returned. *)
Fixpoint ReplaceOrInsert (t : list item) (it : item) : list item * option item :=
  match t with
  | [] => ([it], None)
  | x :: t' =>
      if Less it x then (it :: x :: t', None)
      else if Less x it then
        let '(t'', old) := ReplaceOrInsert t' it in (x :: t'', old)
      else (it :: t', Some x)
  end.

(** [tree.Get]: the item of the tree equal to the given one, if any. *)
Fixpoint BTree_Get (t : list item) (it : item) : option item :=
  match t with
  | [] => None
  | x :: t' =>
      if Less it x then None
      else if Less x it then BTree_Get t' it
      else Some x
  end.

(** [tree.Delete]: removes and returns the item equal to the given one. *)
Fixpoint BTree_Delete (t : list item) (it : item) : list item * option item :=
  match t with
  | [] => ([], None)
  | x :: t' =>
      if Less it x then (t, None)
      else if Less x it then
        let '(t'', old) := BTree_Delete t' it in (x :: t'', old)
      else (t', Some x)
  end.

(** [tree.Ascend]: calls the iterator on every item in ascending order until
    it returns false.  The iterator is a closure; its effect is a change of a
    state [S]. *)
Fixpoint BTree_Ascend {S : Type} (t : list item) (iterator : item → S → bool * S) (s : S) : S :=
  match t with
  | [] => s
  | x :: t' =>
      let '(continue, s') := iterator x s in
      if continue then BTree_Ascend t' iterator s' else s'
  end.

(** [tree.Descend]: the same in descending order. *)
Definition BTree_Descend {S : Type} (t : list item) (iterator : item → S → bool * S) (s : S) : S :=
  BTree_Ascend (rev t) iterator s.

(** [MemoryBTree]; the lock is left out. *)
Record MemoryBTree : Set := mkBTree { tree : list item }.

Definition newBTree : MemoryBTree := mkBTree [].

Definition Put (mt : MemoryBTree) (key : bytes) (position : option ChunkPosition)
    : MemoryBTree * option ChunkPosition :=
  let '(t, oldValue) := ReplaceOrInsert (tree mt) (mkItem key position) in
  match oldValue with
  | Some old => (mkBTree t, pos old)
  | None => (mkBTree t, None)
  end.

Definition Get (mt : MemoryBTree) (key : bytes) : option ChunkPosition :=
  match BTree_Get (tree mt) (mkItem key None) with
  | Some v => pos v
  | None => None
  end.

Definition Delete (mt : MemoryBTree) (key : bytes)
    : MemoryBTree * option ChunkPosition * bool :=
  let '(t, v) := BTree_Delete (tree mt) (mkItem key None) in
  match v with
  | Some old => (mkBTree t, pos old, true)
  | None => (mkBTree t, None, false)
  end.

Definition Size (mt : MemoryBTree) : Z := Z.of_nat (length (tree mt)).

Definition Ascend {S : Type} (mt : MemoryBTree)
    (f : bytes → option ChunkPosition → S → bool * S) (s : S) : S :=
  BTree_Ascend (tree mt) (λ i, f (key i) (pos i)) s.

Definition Descend {S : Type} (mt : MemoryBTree)
    (f : bytes → option ChunkPosition → S → bool * S) (s : S) : S :=
  BTree_Descend (tree mt) (λ i, f (key i) (pos i)) s.

(** The operations that change an index, and the indexes they build from
    [newBTree]. *)
Inductive reachable : MemoryBTree → Prop :=
| reach_new : reachable newBTree
| reach_put mt k p : reachable mt → reachable (Put mt k p).1
| reach_delete mt k : reachable mt → reachable (Delete mt k).1.1.

(** A key is stored when some item of the tree carries it. *)
Definition stored (mt : MemoryBTree) (k : bytes) : Prop := k ∈ map key (tree mt).

(** The callback that records each visit and goes on while [go] allows. *)
Definition record_visit (go : bytes → option ChunkPosition → bool)
    (k : bytes) (p : option ChunkPosition) (seen : list (bytes * option ChunkPosition))
    : bool * list (bytes * option ChunkPosition) :=
  (go k p, seen ++ [(k, p)]).

(** The items up to and including the first one on which [go] is false. *)
Fixpoint until_stop (go : bytes → option ChunkPosition → bool) (l : list item)
    : list (bytes * option ChunkPosition) :=
  match l with
  | [] => []
  | x :: l' =>
      (key x, pos x) :: (if go (key x) (pos x) then until_stop go l' else [])
  end.

(** The order on keys, and the trees it keeps strictly ascending. *)
Definition klt (a b : bytes) : Prop := bytes_Compare a b = Lt.

Definition ascending (t : list item) : Prop :=
  StronglySorted (λ a b, klt (key a) (key b)) t.

(** What a full ascending visit yields: each key with its position. *)
Definition entries (mt : MemoryBTree) : list (bytes * option ChunkPosition) :=
  map (λ x, (key x, pos x)) (tree mt).

(** An index with three keys, put in an order that is not the key order. *)
Definition three_keys : MemoryBTree :=
  (Put (Put (Put newBTree "b" (Some (mkPos 1 0 10))).1
            "c" (Some (mkPos 1 10 10))).1
       "a" (Some (mkPos 1 20 10))).1.

End Index.

(** ** Sequences of list operations *)

Module ListRun.
Import ListDB.

(** The list operations that change the store. *)
Inductive op : Type :=
| OpLPush (key : bytes) (values : list bytes)
| OpLPushX (key : bytes) (values : list bytes)
| OpRPush (key : bytes) (values : list bytes)
| OpRPushX (key : bytes) (values : list bytes)
| OpLPop (key : bytes)
| OpRPop (key : bytes)
| OpLMove (srcKey dstKey : bytes) (srcIsLeft dstIsLeft : bool)
| OpLSet (key : bytes) (index : Z) (val : bytes).

(** The store after an operation, whatever it returned. *)
Definition run (o : op) (db : RoseDB) : RoseDB :=
  match o with
  | OpLPush k vs => (LPush db k vs).2
  | OpLPushX k vs => (LPushX db k vs).2
  | OpRPush k vs => (RPush db k vs).2
  | OpRPushX k vs => (RPushX db k vs).2
  | OpLPop k => (LPop db k).2
  | OpRPop k => (RPop db k).2
  | OpLMove s d sl dl => (LMove db s d sl dl).2
  | OpLSet k i v => (LSet db k i v).2
  end.

(** How many values an operation may push. *)
Definition pushed (o : op) : Z :=
  match o with
  | OpLPush _ vs | OpLPushX _ vs | OpRPush _ vs | OpRPushX _ vs => Z.of_nat (length vs)
  | OpLMove _ _ _ _ => 1
  | OpLPop _ | OpRPop _ | OpLSet _ _ _ => 0
  end.

(** [reachable n db]: [db] is reached from a freshly opened store, in either
    index mode and with any outcomes of the appends to come, by operations
    that push at most [n] values in total. *)
Inductive reachable : Z → RoseDB → Prop :=
| reach_open m fs : reachable 0 (mkDB m ∅ [] fs)
| reach_step n db o : reachable n db → reachable (n + pushed o) (run o db).

(** Every node of every tree points into the log. *)
Definition positions_valid (db : RoseDB) : Prop :=
  ∀ k tree ik node,
    trees db !! k = Some tree → tree !! ik = Some node →
    (offset node < length (logfile db))%nat.

(** Every list has readable metadata within 32 bits, and the head and tail
    have moved from their initial values by at most the [n] pushes so far, as
    long as that cannot wrap. *)
Definition meta_ok (n : Z) (db : RoseDB) : Prop :=
  ∀ k tree,
    trees db !! k = Some tree →
    ∃ h t, listMeta db tree k = (h, t, None) ∧
      0 <= h < 2 ^ 32 ∧ 0 <= t < 2 ^ 32 ∧
      (n <= 2 ^ 31 - 2 →
       initialListSeq - n <= h ∧ h + 1 <= t ∧ t <= initialListSeq + 1 + n).

Definition Inv (n : Z) (db : RoseDB) : Prop :=
  0 <= n ∧ positions_valid db ∧ meta_ok n db.

(** The store after [n] right pushes of one value on the list ["L"]. *)
Definition rpush_once (db : RoseDB) : RoseDB := (RPush db "L" ["x"%string]).2.

Definition rpushes (n : nat) : RoseDB := Nat.iter n rpush_once (empty_db KeyOnlyMemMode).

(** The metadata of the list stored at [key], as [listMeta] reads it; [None]
    when no list exists. *)
Definition meta_of (db : RoseDB) (key : bytes) : option (Z * Z * option error) :=
  match trees db !! key with
  | Some idxTree => Some (listMeta db idxTree key)
  | None => None
  end.

(** Whether the tree of [key] holds the internal key [ik]. *)
Definition index_has (db : RoseDB) (key ik : bytes) : bool :=
  match trees db !! key with
  | Some idxTree => bool_decide (is_Some (idxTree !! ik))
  | None => false
  end.

(** Three stores used as examples: ["L"] after [LPush x], [LPush y],
    [RPush z]; ["L"] holding one element; and ["L"] emptied by a pop. *)
Definition db_yxz (m : IndexMode) : RoseDB :=
  (RPush (LPush (LPush (empty_db m) "L" ["x"%string]).2 "L" ["y"%string]).2
         "L" ["z"%string]).2.

Definition db_one (m : IndexMode) (fs : list bool) : RoseDB :=
  (RPush (mkDB m ∅ [] fs) "L" ["x"%string]).2.

Definition db_emptied (m : IndexMode) : RoseDB := (LPop (db_one m []) "L").2.

End ListRun.

(** ** Reading a list element by its sequence *)

Module ListView.
Import ListDB ListRun.

(** What [LIndex] and [LRange] make of the element stored under a sequence:
    the value read by [getVal], or its error. *)
Definition element (db : RoseDB) (key : bytes) (seq : Z) : option bytes * option error :=
  match trees db !! key with
  | None => (None, None)
  | Some idxTree =>
      match getVal db idxTree (encodeListKey key seq) with
      | Ok val => (Some val, None)
      | Err e => (None, Some e)
      end
  end.

(** The user keys an operation works on. *)
Definition keys_of (o : op) : list bytes :=
  match o with
  | OpLPush k _ | OpLPushX k _ | OpRPush k _ | OpRPushX k _
  | OpLPop k | OpRPop k | OpLSet k _ _ => [k]
  | OpLMove s d _ _ => [s; d]
  end.

(** [db'] comes from [db] by appends to the log and changes to the trees of
    [keys] only. *)
Definition changes_only (keys : list bytes) (db db' : RoseDB) : Prop :=
  mode db' = mode db ∧
  (∃ l, logfile db' = logfile db ++ l) ∧
  (∀ k, k ∉ keys → trees db' !! k = trees db !! k).

(** A store with two lists, used as an example. *)
Definition db_two_lists : RoseDB :=
  (RPush (db_yxz KeyOnlyMemMode) "M" ["p"%string; "q"%string]).2.

(** A sequence of operations, run from left to right. *)
Definition run_all (os : list op) (db : RoseDB) : RoseDB :=
  foldl (λ d o, run o d) db os.

Definition pushed_all (os : list op) : Z :=
  foldl (λ z o, z + pushed o) 0 os.

End ListView.

(** ** Example hash stores *)

Module HashView.
Import HashDB.

(** A store in value-in-memory mode whose hash ["H"] holds the fields ["f"]
    and ["g"], put there by [HSetNx]; the appends that follow succeed but for
    the ones [fs] names. *)
Definition db_fg (fs : list bool) : RoseDB :=
  let d1 := (HSetNx check_nonempty size_of (empty_db KeyValueMemMode (false :: false :: fs))
               "H" "f" "1").2 in
  (HSetNx check_nonempty size_of d1 "H" "g" "2").2.

(** The distinct elements of a list, each at its first place. *)
Fixpoint first_occurrences (l : list bytes) : list bytes :=
  match l with
  | [] => []
  | x :: l' => x :: filter (λ y, y ≠ x) (first_occurrences l')
  end.

(** The fields of a call that the hash of [key] holds, in the order of the
    call, each once. *)
Definition stored_fields (db : RoseDB) (key : bytes) (field : list bytes) : list bytes :=
  filter (λ f, is_Some (Hash_HGet (indexes db) key f)) (first_occurrences field).

End HashView.

(** * Properties *)

(** ** Bytes and 32-bit integers *)

Lemma byte_val_of (z : Z) : byte_val (byte_of z) = z mod 256.
Proof.
  unfold byte_val, byte_of.
  rewrite N_ascii_embedding.
  - rewrite Z2N.id; [done|]. apply Z.mod_pos_bound. lia.
  - pose proof (Z.mod_pos_bound z 256 ltac:(lia)). lia.
Qed.

Lemma testbit_mod256 (z : Z) (n : Z) :
  0 <= n -> Z.testbit (z mod 256) n = (if decide (n < 8) then Z.testbit z n else false).
Proof.
  intros Hn. change 256 with (2 ^ 8).
  case_decide.
  - apply Z.mod_pow2_bits_low. lia.
  - apply Z.mod_pow2_bits_high. lia.
Qed.

Lemma le_bytes_value (v : Z) :
  Z.lor (Z.lor (Z.lor (v mod 256) (Z.shiftl (Z.shiftr v 8 mod 256) 8))
               (Z.shiftl (Z.shiftr v 16 mod 256) 16))
        (Z.shiftl (Z.shiftr v 24 mod 256) 24) = v mod 2 ^ 32.
Proof.
  apply Z.bits_inj'. intros n Hn.
  rewrite !Z.lor_spec, !Z.shiftl_spec by lia.
  rewrite testbit_mod256 by lia.
  destruct (decide (n < 32)) as [Hlt|Hge].
  - rewrite Z.mod_pow2_bits_low by lia.
    destruct (decide (n < 8)).
    { rewrite !(Z.testbit_neg_r _ (n - _)) by lia. by rewrite !orb_false_r. }
    destruct (decide (n < 16)).
    { rewrite testbit_mod256 by lia. rewrite decide_True by lia.
      rewrite !(Z.testbit_neg_r _ (n - 16)), !(Z.testbit_neg_r _ (n - 24)) by lia.
      rewrite Z.shiftr_spec by lia. rewrite !orb_false_r. simpl. f_equal. lia. }
    destruct (decide (n < 24)).
    { rewrite !testbit_mod256 by lia. rewrite decide_False by lia. rewrite decide_True by lia.
      rewrite !(Z.testbit_neg_r _ (n - 24)) by lia.
      rewrite Z.shiftr_spec by lia. rewrite !orb_false_r. simpl. f_equal. lia. }
    rewrite !testbit_mod256 by lia. rewrite !decide_False by lia. rewrite decide_True by lia.
    rewrite Z.shiftr_spec by lia. simpl. f_equal. lia.
  - rewrite Z.mod_pow2_bits_high by lia.
    rewrite !testbit_mod256 by lia. rewrite !decide_False by lia. done.
Qed.

Lemma Uint32_PutUint32_app (v : Z) (rest : bytes) :
  Uint32 (PutUint32 v ++ rest) = uint32 v.
Proof.
  unfold PutUint32, Uint32, uint32. simpl.
  rewrite !byte_val_of. apply le_bytes_value.
Qed.

Lemma Uint32_PutUint32 (v : Z) : Uint32 (PutUint32 v) = uint32 v.
Proof.
  unfold PutUint32, Uint32, uint32.
  rewrite !byte_val_of. apply le_bytes_value.
Qed.

Lemma uint32_range (z : Z) : 0 <= uint32 z < 2 ^ 32.
Proof. unfold uint32. apply Z.mod_pos_bound. lia. Qed.

Lemma uint32_small (z : Z) : 0 <= z < 2 ^ 32 → uint32 z = z.
Proof. intros. unfold uint32. apply Z.mod_small. lia. Qed.

Lemma length_app_string (a b : bytes) :
  String.length (a ++ b) = (String.length a + String.length b)%nat.
Proof. induction a as [|c a IH]; simpl; [done|]. by rewrite IH. Qed.

(** ** The list datatype: appends, keys and metadata *)

Section ListBasics.
Import ListDB ListRun.

Lemma writeLogEntry_spec db ent r db1 :
  writeLogEntry db ent = (r, db1) →
  mode db1 = mode db ∧ trees db1 = trees db ∧
  ((r = Err ErrIO ∧ logfile db1 = logfile db ∧ ∃ fs, faults db = true :: fs) ∨
   (r = Ok (length (logfile db)) ∧ logfile db1 = logfile db ++ [ent] ∧
    head (faults db) ≠ Some true)).
Proof.
  unfold writeLogEntry. intros H.
  destruct (faults db) as [|[] fs] eqn:Hf; inversion H; subst; simpl;
    split_and!; eauto; right; split_and!; done.
Qed.

Lemma writeLogEntry_fails db ent fs :
  faults db = true :: fs →
  writeLogEntry db ent = (Err ErrIO, mkDB (mode db) (trees db) (logfile db) fs).
Proof. intros H. unfold writeLogEntry. by rewrite H. Qed.

Lemma encodeListKey_length key seq :
  String.length (encodeListKey key seq) = (4 + String.length key)%nat.
Proof. unfold encodeListKey. by rewrite length_app_string. Qed.

(** An element key never collides with the metadata key of its list. *)
Lemma encodeListKey_ne key seq : encodeListKey key seq ≠ key.
Proof.
  intros H. apply (f_equal String.length) in H.
  rewrite encodeListKey_length in H. lia.
Qed.

Lemma getVal_frame db db' (tree tree' : gmap string indexNode) k :
  mode db' = mode db →
  tree' !! k = tree !! k →
  (∀ node, tree !! k = Some node →
           logfile db' !! offset node = logfile db !! offset node) →
  getVal db' tree' k = getVal db tree k.
Proof.
  intros Hm Ht Hl. unfold getVal. rewrite Hm, Ht.
  destruct (tree !! k) as [node|] eqn:Hn; [|done].
  by rewrite (Hl node).
Qed.

Lemma listMeta_frame db db' (tree tree' : gmap string indexNode) k :
  mode db' = mode db →
  tree' !! k = tree !! k →
  (∀ node, tree !! k = Some node →
           logfile db' !! offset node = logfile db !! offset node) →
  listMeta db' tree' k = listMeta db tree k.
Proof. intros. unfold listMeta. by rewrite (getVal_frame db db' tree tree'). Qed.

(** A tree without metadata entry reads as a fresh list. *)
Lemma listMeta_fresh db (tree : gmap string indexNode) k :
  tree !! k = None →
  listMeta db tree k = (initialListSeq, initialListSeq + 1, None).
Proof. intros H. unfold listMeta, getVal. by rewrite H. Qed.

Lemma meta_buf_len h t : len (PutUint32 h ++ PutUint32 t) = 8.
Proof. reflexivity. Qed.

(** What [saveListMeta] does: nothing to the index when its append fails;
    otherwise the tree gets the metadata node, and [listMeta] reads the two
    numbers back, reduced to 32 bits. *)
Lemma saveListMeta_spec db key (idxTree : gmap string indexNode) h t r db' :
  saveListMeta db key idxTree h t = (r, db') →
  mode db' = mode db ∧
  ((r = Some ErrIO ∧ trees db' = trees db ∧ logfile db' = logfile db ∧
    ∃ fs, faults db = true :: fs) ∨
   (r = None ∧ head (faults db) ≠ Some true ∧
    ∃ ent tree',
      logfile db' = logfile db ++ [ent] ∧
      trees db' = <[key := tree']> (trees db) ∧
      tree' = <[key := mkNode (if decide (mode db = KeyValueMemMode)
                                then Value ent else EmptyString)
                               (length (logfile db))]> idxTree ∧
      listMeta db' tree' key = (uint32 h, uint32 t, None))).
Proof.
  unfold saveListMeta. intros H.
  destruct (writeLogEntry db _) as [[pos|e] db1] eqn:Hw;
    apply writeLogEntry_spec in Hw as (Hm & Ht & Hcase);
    inversion H; subst; clear H.
  - destruct Hcase as [(? & _)|(Hpos & Hlog & Hf)]; [done|].
    inversion Hpos; subst pos. simpl. split; [done|]. right.
    split_and!; [done..|].
    exists (mkEntry key (PutUint32 h ++ PutUint32 t) TypeListMeta).
    eexists. split_and!;
      [done | by rewrite Ht | unfold updateIndexTree; simpl; by rewrite Hm |].
    unfold updateIndexTree. simpl. rewrite Hm.
    unfold listMeta, getVal.
    rewrite lookup_insert_eq. simpl. rewrite Hm.
    assert (Hread : (logfile db1 !! length (logfile db)) =
                    Some (mkEntry key (PutUint32 h ++ PutUint32 t) TypeListMeta)).
    { rewrite Hlog. by apply list_lookup_middle. }
    assert (Hparse : ∀ r0 : result bytes,
               r0 = Ok (PutUint32 h ++ PutUint32 t)%string →
               match r0 with
               | Ok val =>
                   if decide (len val = 0) then (initialListSeq, initialListSeq + 1, None)
                   else if decide (len val < 8) then (0, 0, Some Panic)
                   else (Uint32 val, Uint32 (bytes_drop 4 val), None)
               | Err e =>
                   if decide (e = ErrKeyNotFound)
                   then (initialListSeq, initialListSeq + 1, None)
                   else (0, 0, Some e)
               end = (uint32 h, uint32 t, None)).
    { intros r0 ->. rewrite meta_buf_len. simpl decide.
      rewrite decide_False by lia. rewrite decide_False by lia.
      rewrite Uint32_PutUint32_app.
      change (bytes_drop 4 (PutUint32 h ++ PutUint32 t)) with (PutUint32 t).
      by rewrite Uint32_PutUint32. }
    apply Hparse.
    case_decide; [done|]. rewrite Hread. done.
  - destruct Hcase as [(He & Hlog & Hf)|(? & _)]; [|done].
    inversion He; subst e. split; [done|]. left. done.
Qed.

End ListBasics.

(** ** The invariant of the list store *)

Section ListInvariant.
Import ListDB ListRun.

Lemma Inv_mono n n' db : Inv n db → n <= n' → Inv n' db.
Proof.
  intros (Hn & Hpv & Hmeta) Hle. split_and!; [lia|done|].
  intros k tree Hk. destruct (Hmeta k tree Hk) as (h & t & Hlm & Hh & Ht & Hb).
  exists h, t. split; [done|]. split; [done|]. split; [done|]. intros Hn'. lia.
Qed.

(** Appends to the log and changes to the trees that keep every metadata
    node, or start a tree without one, preserve the invariant. *)
Lemma Inv_frame n db db' :
  Inv n db → mode db' = mode db → (∃ l, logfile db' = logfile db ++ l) →
  (∀ k (tree' : gmap string indexNode), trees db' !! k = Some tree' →
     (∀ ik node, tree' !! ik = Some node →
                 (offset node < length (logfile db'))%nat) ∧
     (tree' !! k = None ∨
      ∃ tree, trees db !! k = Some tree ∧ tree' !! k = tree !! k)) →
  Inv n db'.
Proof.
  intros (Hn & Hpv & Hmeta) Hm [l Hl] Ht. split_and!; [done| |].
  - intros k tree ik node Hk Hik. by apply (proj1 (Ht k tree Hk) ik).
  - intros k tree' Hk.
    destruct (Ht k tree' Hk) as [_ [Hnone | (tree & Hold & Heq)]].
    + exists initialListSeq, (initialListSeq + 1).
      rewrite listMeta_fresh by done. unfold initialListSeq.
      split_and!; try lia; done.
    + destruct (Hmeta k tree Hold) as (h & t & Hlm & Hrest).
      exists h, t. split; [|done]. rewrite <- Hlm.
      apply listMeta_frame; [done..|].
      intros node Hnode. rewrite Hl. apply lookup_app_l. by eapply Hpv.
Qed.

Lemma Inv_same_trees n db db' :
  Inv n db → mode db' = mode db → trees db' = trees db →
  (∃ l, logfile db' = logfile db ++ l) → Inv n db'.
Proof.
  intros HI Hm Ht [l Hl]. apply (Inv_frame n db); [done..|by exists l|].
  destruct HI as (_ & Hpv & _).
  intros k tree' Hk. rewrite Ht in Hk. split.
  - intros ik node Hik. rewrite Hl, length_app.
    specialize (Hpv k tree' ik node Hk Hik). lia.
  - right. by exists tree'.
Qed.

Lemma Inv_set_tree n db db1 key (tree1 : gmap string indexNode) :
  Inv n db → mode db1 = mode db → trees db1 = trees db →
  (∃ l, logfile db1 = logfile db ++ l) →
  (tree1 !! key = None ∨
   ∃ tree, trees db !! key = Some tree ∧ tree1 !! key = tree !! key) →
  (∀ ik node, tree1 !! ik = Some node →
              (offset node < length (logfile db1))%nat) →
  Inv n (set_tree db1 key tree1).
Proof.
  intros HI Hm Ht [l Hl] Hkey Hnodes.
  apply (Inv_frame n db); [done| done | by exists l |].
  destruct HI as (_ & Hpv & _).
  intros k tree'. unfold set_tree, set_trees. simpl. rewrite Ht.
  destruct (decide (key = k)) as [->|Hne].
  - rewrite lookup_insert_eq. intros [= <-]. done.
  - rewrite lookup_insert_ne by done. intros Hk. split.
    + intros ik node Hik. rewrite Hl, length_app.
      specialize (Hpv k tree' ik node Hk Hik). lia.
    + right. by exists tree'.
Qed.

Lemma saveListMeta_Inv n n' db key (idxTree : gmap string indexNode) h t :
  Inv n db → trees db !! key = Some idxTree → n <= n' →
  0 <= h < 2 ^ 32 → 0 <= t < 2 ^ 32 →
  (n' <= 2 ^ 31 - 2 →
   initialListSeq - n' <= h ∧ h + 1 <= t ∧ t <= initialListSeq + 1 + n') →
  Inv n' (saveListMeta db key idxTree h t).2.
Proof.
  intros HI Hk Hle Hh Ht Hb.
  destruct (saveListMeta db key idxTree h t) as [r db'] eqn:Hs.
  apply saveListMeta_spec in Hs as [Hm [(_ & Htr & Hlog & _)|(_ & _ & Hok)]]; simpl.
  - apply (Inv_mono n); [|done].
    apply (Inv_same_trees n db); [done..|]. exists []. by rewrite app_nil_r.
  - destruct Hok as (ent & tree' & Hlog & Htr & Htree' & Hread).
    destruct HI as (Hn & Hpv & Hmeta). split_and!; [lia| |].
    + intros k tree ik node. rewrite Htr, Hlog, length_app. simpl.
      destruct (decide (key = k)) as [->|Hne].
      * rewrite lookup_insert_eq. intros [= <-]. rewrite Htree'.
        destruct (decide (k = ik)) as [->|Hne].
        -- rewrite lookup_insert_eq. intros [= <-]. simpl. lia.
        -- rewrite lookup_insert_ne by done. intros Hik.
           specialize (Hpv k idxTree ik node Hk Hik). lia.
      * rewrite lookup_insert_ne by done. intros Hk' Hik.
        specialize (Hpv k tree ik node Hk' Hik). lia.
    + intros k tree. rewrite Htr.
      destruct (decide (key = k)) as [->|Hne].
      * rewrite lookup_insert_eq. intros [= <-].
        exists h, t. rewrite Hread, !uint32_small by done.
        split; [done|]. split; [done|]. split; [done|]. done.
      * rewrite lookup_insert_ne by done. intros Hk'.
        destruct (Hmeta k tree Hk') as (h0 & t0 & Hlm & Hh0 & Ht0 & Hb0).
        exists h0, t0. split; [|split; [done|split; [done|intros; lia]]].
        rewrite <- Hlm. apply listMeta_frame; [done..|].
        intros node Hnode. rewrite Hlog. apply lookup_app_l. by eapply Hpv.
Qed.

Lemma ensure_tree_Inv n db key : Inv n db → Inv n (ensure_tree db key).
Proof.
  intros HI. unfold ensure_tree. destruct (trees db !! key) eqn:Hk; [done|].
  apply (Inv_set_tree n db); [done..| | |].
  - exists []. by rewrite app_nil_r.
  - by left.
  - intros ik node. by rewrite lookup_empty.
Qed.

Lemma ensure_tree_lookup db key : is_Some (trees (ensure_tree db key) !! key).
Proof.
  unfold ensure_tree. destruct (trees db !! key) eqn:Hk; [by rewrite Hk|].
  unfold set_tree, set_trees. simpl. by rewrite lookup_insert_eq.
Qed.

Lemma meta_ok_at n db key (idxTree : gmap string indexNode) h t :
  Inv n db → trees db !! key = Some idxTree →
  listMeta db idxTree key = (h, t, None) →
  0 <= h < 2 ^ 32 ∧ 0 <= t < 2 ^ 32 ∧
  (n <= 2 ^ 31 - 2 →
   initialListSeq - n <= h ∧ h + 1 <= t ∧ t <= initialListSeq + 1 + n).
Proof.
  intros (_ & _ & Hmeta) Hk Hlm.
  destruct (Hmeta key idxTree Hk) as (h0 & t0 & Hlm0 & Hrest).
  rewrite Hlm in Hlm0. by inversion Hlm0; subst.
Qed.

Lemma pushInternal_Inv n db key val isLeft :
  Inv n db → Inv (n + 1) (pushInternal db key val isLeft).2.
Proof.
  intros HI. pose proof HI as (Hn & Hpv & _). unfold pushInternal.
  destruct (trees db !! key) as [idxTree|] eqn:Hk;
    [|simpl; apply (Inv_mono n); [done|lia]].
  destruct (listMeta db idxTree key) as [[h t] [e|]] eqn:Hlm;
    [simpl; apply (Inv_mono n); [done|lia]|].
  destruct (meta_ok_at n db key idxTree h t HI Hk Hlm) as (Hh & Ht & Hb).
  cbv zeta.
  set (ent := mkEntry (encodeListKey key (if isLeft then h else t)) val TypeNormal).
  destruct (writeLogEntry db ent) as [[pos|e] db1] eqn:Hw;
    apply writeLogEntry_spec in Hw as (Hm & Htr & Hcase).
  - destruct Hcase as [(? & _)|(Hpos & Hlog & _)]; [done|].
    inversion Hpos; subst pos.
    apply (saveListMeta_Inv n).
    + apply (Inv_set_tree n db); [done..| by exists [ent] | |].
      * right. exists idxTree. split; [done|]. unfold updateIndexTree.
        rewrite lookup_insert_ne; [done|]. apply encodeListKey_ne.
      * intros ik node. unfold updateIndexTree. rewrite Hlog, length_app. simpl.
        destruct (decide (encodeListKey key (if isLeft then h else t) = ik)) as [->|Hne].
        -- rewrite lookup_insert_eq. intros [= <-]. simpl. lia.
        -- rewrite lookup_insert_ne by done. intros Hik.
           specialize (Hpv key idxTree ik node Hk Hik). lia.
    + unfold set_tree, set_trees. simpl. by rewrite lookup_insert_eq.
    + lia.
    + destruct isLeft; [apply uint32_range|done].
    + destruct isLeft; [done|apply uint32_range].
    + intros Hn'. unfold initialListSeq in *.
      destruct Hb as (Hb1 & Hb2 & Hb3); [lia|].
      destruct isLeft; rewrite uint32_small by lia; lia.
  - simpl. apply (Inv_mono n); [|lia].
    destruct Hcase as [(_ & Hlog & _)|(? & _)]; [|done].
    apply (Inv_same_trees n db); [done..|]. exists []. by rewrite app_nil_r.
Qed.

Lemma pushAll_Inv values : ∀ n db key isLeft,
  Inv n db → Inv (n + Z.of_nat (length values)) (pushAll db key values isLeft).2.
Proof.
  induction values as [|val rest IH]; intros n db key isLeft HI; simpl.
  - by rewrite Z.add_0_r.
  - pose proof (pushInternal_Inv n db key val isLeft HI) as H1.
    destruct (pushInternal db key val isLeft) as [[e|] db1]; simpl in *.
    + apply (Inv_mono (n + 1)); [done|lia].
    + replace (n + Z.of_nat (S (length rest))) with (n + 1 + Z.of_nat (length rest)) by lia.
      by apply IH.
Qed.

Lemma popInternal_Inv n db key isLeft :
  Inv n db → Inv n (popInternal db key isLeft).2.
Proof.
  intros HI. pose proof HI as (Hn & Hpv & _). unfold popInternal.
  destruct (trees db !! key) as [idxTree|] eqn:Hk; [|done].
  destruct (listMeta db idxTree key) as [[h t] [e|]] eqn:Hlm; [done|].
  destruct (meta_ok_at n db key idxTree h t HI Hk Hlm) as (Hh & Ht & Hb).
  cbv zeta. case_decide as Hsize.
  { case_decide; [|done]. simpl.
    apply (saveListMeta_Inv n); unfold initialListSeq; [done|done|lia..]. }
  set (encKey := encodeListKey key (if isLeft then uint32 (h + 1) else uint32 (t - 1))).
  destruct (getVal db idxTree encKey) as [val|e]; [|done].
  destruct (writeLogEntry db _) as [[pos|e] db1] eqn:Hw;
    apply writeLogEntry_spec in Hw as (Hm & Htr & Hcase).
  - destruct Hcase as [(? & _)|(Hpos & Hlog & _)]; [done|].
    match goal with
    | |- Inv n (let '(_, _) := ?s in _).2 =>
        assert (Inv n s.2) as Hgoal; [|by destruct s as [[?|] ?]]
    end.
    apply (saveListMeta_Inv n).
    + apply (Inv_set_tree n db); [done..| by eexists | |].
      * right. exists idxTree. split; [done|].
        rewrite lookup_delete_ne; [done|]. apply encodeListKey_ne.
      * intros ik node Hik. rewrite Hlog, length_app. simpl.
        apply lookup_delete_Some in Hik as [_ Hik].
        specialize (Hpv key idxTree ik node Hk Hik). lia.
    + unfold set_tree, set_trees. simpl. by rewrite lookup_insert_eq.
    + lia.
    + destruct isLeft; [apply uint32_range|done].
    + destruct isLeft; [done|apply uint32_range].
    + intros Hn'. unfold initialListSeq in *.
      destruct Hb as (Hb1 & Hb2 & Hb3); [lia|].
      rewrite uint32_small in Hsize by lia.
      destruct isLeft; rewrite uint32_small by lia; lia.
  - simpl. destruct Hcase as [(_ & Hlog & _)|(? & _)]; [|done].
    apply (Inv_same_trees n db); [done..|]. exists []. by rewrite app_nil_r.
Qed.

Lemma LSet_Inv n db key index val : Inv n db → Inv n (LSet db key index val).2.
Proof.
  intros HI. pose proof HI as (Hn & Hpv & _). unfold LSet.
  destruct (trees db !! key) as [idxTree|] eqn:Hk; [|done].
  destruct (listMeta db idxTree key) as [[h t] [e|]] eqn:Hlm; [done|].
  unfold listSequence. case_decide; [done|]. cbv zeta.
  match goal with |- context [mkEntry ?k val TypeNormal] => set (encKey := k) end.
  assert (encKey ≠ key) as Hne by (subst encKey; case_decide; apply encodeListKey_ne).
  destruct (writeLogEntry db _) as [[pos|e] db1] eqn:Hw;
    apply writeLogEntry_spec in Hw as (Hm & Htr & Hcase); simpl.
  - destruct Hcase as [(? & _)|(Hpos & Hlog & _)]; [done|].
    inversion Hpos; subst pos.
    apply (Inv_set_tree n db); [done..| by eexists | |].
    + right. exists idxTree. split; [done|]. unfold updateIndexTree. simpl.
      by rewrite lookup_insert_ne.
    + intros ik node. unfold updateIndexTree. rewrite Hlog, length_app. simpl.
      destruct (decide (encKey = ik)) as [->|Hne'].
      * rewrite lookup_insert_eq. intros [= <-]. simpl. lia.
      * rewrite lookup_insert_ne by done. intros Hik.
        specialize (Hpv key idxTree ik node Hk Hik). lia.
  - destruct Hcase as [(_ & Hlog & _)|(? & _)]; [|done].
    apply (Inv_same_trees n db); [done..|]. exists []. by rewrite app_nil_r.
Qed.

Lemma LMove_Inv n db src dst sl dl : Inv n db → Inv (n + 1) (LMove db src dst sl dl).2.
Proof.
  intros HI. unfold LMove.
  pose proof (popInternal_Inv n db src sl HI) as H1.
  destruct (popInternal db src sl) as [[[v|] [e|]] db1]; simpl in H1;
    try (simpl; apply (Inv_mono n); [done|lia]).
  pose proof (pushInternal_Inv n _ dst v dl (ensure_tree_Inv n db1 dst H1)) as H2.
  by destruct (pushInternal (ensure_tree db1 dst) dst v dl) as [[e|] db2].
Qed.

Lemma run_Inv n db o : Inv n db → Inv (n + pushed o) (run o db).
Proof.
  intros HI. destruct o as [k vs|k vs|k vs|k vs|k|k|s d sl dl|k i v]; simpl.
  - unfold LPush. apply pushAll_Inv. by apply ensure_tree_Inv.
  - unfold LPushX. destruct (trees db !! k); [by apply pushAll_Inv|].
    simpl. apply (Inv_mono n); [done|lia].
  - unfold RPush. apply pushAll_Inv. by apply ensure_tree_Inv.
  - unfold RPushX. destruct (trees db !! k); [by apply pushAll_Inv|].
    simpl. apply (Inv_mono n); [done|lia].
  - rewrite Z.add_0_r. by apply popInternal_Inv.
  - rewrite Z.add_0_r. by apply popInternal_Inv.
  - by apply LMove_Inv.
  - rewrite Z.add_0_r. by apply LSet_Inv.
Qed.

Lemma reachable_Inv n db : reachable n db → Inv n db.
Proof.
  induction 1 as [m fs|n db o _ IH].
  - split_and!; [done| |]; intros k tree; simpl; by rewrite lookup_empty.
  - by apply run_Inv.
Qed.

End ListInvariant.

(** ** The list datatype: results of the operations *)

Section ListResults.
Import ListDB ListRun.

(** C2.  From an empty store, [LPush L x; LPush L y; RPush L z] succeed and
    [LRange L 0 -1] is [y; x; z]; then [LPop L] returns [y], [RPop L] returns
    [z], and [LLen L] is 1.  This holds in both index modes. *)
Theorem C2_push_range_pop_scenario (m : IndexMode) :
  let db1 := LPush (empty_db m) "L" ["x"%string] in
  let db2 := LPush db1.2 "L" ["y"%string] in
  let db3 := RPush db2.2 "L" ["z"%string] in
  let p1 := LPop db3.2 "L" in
  let p2 := RPop p1.2 "L" in
  db1.1 = None ∧ db2.1 = None ∧ db3.1 = None ∧
  LRange db3.2 "L" 0 (-1) = (["y"%string; "x"%string; "z"%string], None) ∧
  p1.1 = (Some "y"%string, None) ∧
  p2.1 = (Some "z"%string, None) ∧
  LLen p2.2 "L" = 1.
Proof. destruct m; vm_compute; repeat split. Qed.

(** C10.  For a key without list, [LPop], [RPop] and [LIndex] return nil and
    no error, while [LRange], [LSet], [LPushX] and [RPushX] return
    [ErrKeyNotFound]; none of them changes the store. *)
Theorem C10_absent_key_results (db : RoseDB) (k : bytes) :
  trees db !! k = None →
  LPop db k = (None, None, db) ∧
  RPop db k = (None, None, db) ∧
  (∀ i, LIndex db k i = (None, None)) ∧
  (∀ start end_, LRange db k start end_ = ([], Some ErrKeyNotFound)) ∧
  (∀ i v, LSet db k i v = (Some ErrKeyNotFound, db)) ∧
  (∀ values, LPushX db k values = (Some ErrKeyNotFound, db)) ∧
  (∀ values, RPushX db k values = (Some ErrKeyNotFound, db)).
Proof.
  intros Hk.
  unfold LPop, RPop, popInternal, LIndex, LRange, LSet, LPushX, RPushX.
  rewrite Hk. repeat split.
Qed.

Lemma C10_absent_key_witness :
  LPop (empty_db KeyOnlyMemMode) "L" = (None, None, empty_db KeyOnlyMemMode) ∧
  LRange (empty_db KeyOnlyMemMode) "L" 0 (-1) = ([], Some ErrKeyNotFound).
Proof.
  destruct (C10_absent_key_results (empty_db KeyOnlyMemMode) "L" eq_refl)
    as (H1 & _ & _ & H4 & _).
  split; [exact H1 | exact (H4 0 (-1))].
Defined.

Lemma wrap_int_small (z : Z) : - 2 ^ 63 <= z < 2 ^ 63 → wrap_int z = z.
Proof. intros H. unfold wrap_int. rewrite Z.mod_small by lia. lia. Qed.

Lemma uint32_add_multiple (a q : Z) : uint32 (a + q * 2 ^ 32) = uint32 a.
Proof. unfold uint32. apply Z_mod_plus_full. Qed.

(** The sequence of index [i] counted from the head is the sequence of index
    [i - length] counted from the tail. *)
Lemma listSequence_from_tail (h t i : Z) :
  0 <= i < uint32 (t - h - 1) →
  listSequence h t (i - uint32 (t - h - 1)) = listSequence h t i.
Proof.
  intros Hi. pose proof (uint32_range (t - h - 1)) as Hr.
  unfold listSequence. rewrite decide_False by lia. rewrite decide_True by lia.
  f_equal.
  rewrite wrap_int_small by lia.
  rewrite (uint32_small (- (i - uint32 (t - h - 1)))) by lia.
  rewrite (uint32_small i) by lia.
  rewrite <- (uint32_add_multiple (h + i + 1) ((t - h - 1) / 2 ^ 32)).
  f_equal. unfold uint32.
  pose proof (Z.div_mod (t - h - 1) (2 ^ 32) ltac:(lia)). lia.
Qed.

(** C6.  For [0 <= i < LLen k], [LIndex k i] and [LIndex k (i - LLen k)]
    return the same value and the same error. *)
Theorem C6_LIndex_negative_index (db : RoseDB) (k : bytes) (i : Z) :
  0 <= i < LLen db k →
  LIndex db k i = LIndex db k (i - LLen db k).
Proof.
  unfold LLen, LIndex.
  destruct (trees db !! k) as [idxTree|]; [|done].
  destruct (listMeta db idxTree k) as [[h t] [e|]]; [done|].
  intros Hi. by rewrite listSequence_from_tail.
Qed.

Lemma C6_LIndex_negative_index_witness :
  LIndex (db_yxz KeyOnlyMemMode) "L" 1 = LIndex (db_yxz KeyOnlyMemMode) "L" (1 - 3).
Proof.
  apply (C6_LIndex_negative_index (db_yxz KeyOnlyMemMode) "L" 1).
  vm_compute. split; [discriminate | reflexivity].
Defined.

Lemma getVal_err db (idxTree : gmap string indexNode) k e :
  getVal db idxTree k = Err e → e = ErrKeyNotFound ∨ e = ErrLogFileNotFound.
Proof.
  unfold getVal. intros H.
  destruct (idxTree !! k) as [node|]; [|inversion H; tauto].
  case_decide; [done|].
  destruct (logfile db !! offset node) as [ent|]; [|inversion H; tauto].
  case_decide; inversion H; tauto.
Qed.

Lemma rangeLoop_err n : ∀ db (idxTree : gmap string indexNode) key seq values,
  (rangeLoop n db idxTree key seq values).2 ≠ Some ErrWrongIndex.
Proof.
  induction n as [|n IH]; intros db idxTree key seq values; simpl; [done|].
  destruct (getVal db idxTree (encodeListKey key seq)) as [val|e] eqn:Hg; [apply IH|].
  simpl. apply getVal_err in Hg as [-> | ->]; discriminate.
Qed.

Lemma listSequence_head (h t i : Z) :
  0 <= h → 0 <= i → h + i + 1 < 2 ^ 32 → (listSequence h t i).1 = h + i + 1.
Proof.
  intros Hh Hi Hb. unfold listSequence. simpl. rewrite decide_True by lia.
  rewrite (uint32_small i) by lia. apply uint32_small. lia.
Qed.

Lemma listSequence_tail (h t i : Z) :
  t < 2 ^ 32 → - 2 ^ 63 <= i < 0 → 0 <= t - Z.abs i →
  (listSequence h t i).1 = t - Z.abs i.
Proof.
  intros Ht Hi Hb. unfold listSequence. simpl. rewrite decide_False by lia.
  rewrite wrap_int_small by lia.
  rewrite (uint32_small (- i)) by lia. rewrite uint32_small by lia. lia.
Qed.

(** C5, as the code has it.  For a list with metadata [(headSeq, tailSeq)]
    and an index [i]: the sequence is [headSeq + i + 1] for [i >= 0] and
    [tailSeq - |i|] for [i < 0], whenever that number fits 32 bits; [LIndex]
    and [LSet] return [ErrWrongIndex], which is not [ErrKeyNotFound], exactly
    when the sequence is outside the open interval; [LRange] first moves its
    start up to [headSeq + 1] and its end down to [tailSeq - 1] and returns
    [ErrWrongIndex] exactly when what is left is empty. *)
Theorem C5_index_to_sequence (db : RoseDB) (key : bytes)
    (idxTree : gmap string indexNode) (h t i : Z) :
  trees db !! key = Some idxTree →
  listMeta db idxTree key = (h, t, None) →
  0 <= h < 2 ^ 32 → 0 <= t < 2 ^ 32 → - 2 ^ 63 <= i < 2 ^ 63 →
  let seq := (listSequence h t i).1 in
  (0 <= i → h + i + 1 < 2 ^ 32 → seq = h + i + 1) ∧
  (i < 0 → 0 <= t - Z.abs i → seq = t - Z.abs i) ∧
  ((LIndex db key i).2 = Some ErrWrongIndex ↔ (seq >= t ∨ seq <= h)) ∧
  (∀ v, (LSet db key i v).1 = Some ErrWrongIndex ↔ (seq >= t ∨ seq <= h)) ∧
  (∀ v, seq >= t ∨ seq <= h → LSet db key i v = (Some ErrWrongIndex, db)) ∧
  ErrWrongIndex ≠ ErrKeyNotFound ∧
  (∀ j,
     let startSeq := if decide (seq <= h) then uint32 (h + 1) else seq in
     let endSeq :=
       if decide ((listSequence h t j).1 >= t) then uint32 (t - 1)
       else (listSequence h t j).1 in
     (LRange db key i j).2 = Some ErrWrongIndex ↔
     (startSeq >= t ∨ endSeq <= h ∨ startSeq > endSeq)).
Proof.
  intros Hk Hlm Hh Ht Hi seq.
  split; [intros; apply listSequence_head; lia|].
  split; [intros; apply listSequence_tail; lia|].
  unfold LIndex, LSet, LRange. rewrite Hk, Hlm.
  assert (Hseq : ∀ x, listSequence h t x = ((listSequence h t x).1, None)) by done.
  rewrite (Hseq i). fold seq.
  split_and!.
  - case_decide as Hd; [done|].
    destruct (getVal db idxTree (encodeListKey key seq)) as [val|e] eqn:Hg; simpl.
    + split; [done|tauto].
    + split; [|tauto]. apply getVal_err in Hg as [-> | ->]; discriminate.
  - intros v. case_decide as Hd; [done|]. cbv zeta.
    destruct (writeLogEntry db _) as [[pos|e] db1] eqn:Hw; simpl.
    + split; [done|tauto].
    + apply writeLogEntry_spec in Hw as (_ & _ & [(He & _)|(? & _)]); [|done].
      inversion He; subst. split; [done|tauto].
  - intros v Hout. by rewrite decide_True.
  - done.
  - intros j. rewrite (Hseq j). cbv zeta.
    case_decide as Hd; [done|]. split; [|tauto].
    intros Herr. by apply rangeLoop_err in Herr.
Qed.

Lemma C5_index_to_sequence_witness :
  (listSequence (2 ^ 31 - 2) (2 ^ 31 + 2) (-1)).1 = 2 ^ 31 + 2 - Z.abs (-1) ∧
  ((LIndex (db_yxz KeyOnlyMemMode) "L" 3).2 = Some ErrWrongIndex ↔
   ((listSequence (2 ^ 31 - 2) (2 ^ 31 + 2) 3).1 >= 2 ^ 31 + 2 ∨
    (listSequence (2 ^ 31 - 2) (2 ^ 31 + 2) 3).1 <= 2 ^ 31 - 2)).
Proof.
  assert (Hk : trees (db_yxz KeyOnlyMemMode) !! "L"%string =
               Some (default ∅ (trees (db_yxz KeyOnlyMemMode) !! "L"%string)))
    by (vm_compute; reflexivity).
  split.
  - refine (proj1 (proj2 (C5_index_to_sequence (db_yxz KeyOnlyMemMode) "L" _
                            (2 ^ 31 - 2) (2 ^ 31 + 2) (-1) Hk _ _ _ _)) _ _);
      first [lia | vm_compute; reflexivity | vm_compute; discriminate].
  - refine (proj1 (proj2 (proj2 (C5_index_to_sequence (db_yxz KeyOnlyMemMode) "L" _
                            (2 ^ 31 - 2) (2 ^ 31 + 2) 3 Hk _ _ _ _))));
      first [lia | vm_compute; reflexivity].
Defined.

(** C5 as stated fails for [LRange]: on a list of one element the end index
    5 gives a sequence outside the open interval, and [LRange L 0 5] returns
    the element without error. *)
Lemma C5_counterexample_LRange_clamps :
  meta_of (db_one KeyOnlyMemMode []) "L" = Some (2 ^ 31, 2 ^ 31 + 2, None) ∧
  (listSequence (2 ^ 31) (2 ^ 31 + 2) 5).1 = 2 ^ 31 + 5 + 1 ∧
  2 ^ 31 + 5 + 1 >= 2 ^ 31 + 2 ∧
  LRange (db_one KeyOnlyMemMode []) "L" 0 5 = (["x"%string], None).
Proof.
  split; [vm_compute; reflexivity|].
  split; [vm_compute; reflexivity|].
  split; [lia|]. vm_compute; reflexivity.
Qed.

Lemma LLen_meta db key h t :
  meta_of db key = Some (h, t, None) → LLen db key = uint32 (t - h - 1).
Proof.
  unfold meta_of, LLen. destruct (trees db !! key) as [idxTree|]; [|done].
  by intros [= ->].
Qed.

Lemma meta_of_set_tree db key (idxTree : gmap string indexNode) :
  meta_of (set_tree db key idxTree) key =
  Some (listMeta (set_tree db key idxTree) idxTree key).
Proof. unfold meta_of, set_tree, set_trees. simpl. by rewrite lookup_insert_eq. Qed.

Lemma writeLogEntry_faults db ent :
  faults (writeLogEntry db ent).2 = tail (faults db).
Proof. unfold writeLogEntry. by destruct (faults db) as [|[] fs]. Qed.

Lemma saveListMeta_faults db key (idxTree : gmap string indexNode) h t :
  faults (saveListMeta db key idxTree h t).2 = tail (faults db).
Proof.
  unfold saveListMeta.
  pose proof (writeLogEntry_faults db
                (mkEntry key (PutUint32 h ++ PutUint32 t) TypeListMeta)) as H.
  by destruct (writeLogEntry db _) as [[pos|e] db1].
Qed.

(** The metadata after a [saveListMeta] that returned no error. *)
Lemma saveListMeta_meta db key (idxTree : gmap string indexNode) h t :
  (saveListMeta db key idxTree h t).1 = None →
  meta_of (saveListMeta db key idxTree h t).2 key = Some (uint32 h, uint32 t, None).
Proof.
  destruct (saveListMeta db key idxTree h t) as [r db'] eqn:Hs. simpl.
  intros ->.
  apply saveListMeta_spec in Hs as [_ [(? & _)|(_ & _ & Hok)]]; [done|].
  destruct Hok as (ent & tree' & _ & Htr & _ & Hread).
  unfold meta_of. rewrite Htr, lookup_insert_eq. by rewrite Hread.
Qed.

Lemma saveListMeta_nofault db key (idxTree : gmap string indexNode) h t :
  head (faults db) ≠ Some true → (saveListMeta db key idxTree h t).1 = None.
Proof.
  intros Hf. destruct (saveListMeta db key idxTree h t) as [r db'] eqn:Hs.
  apply saveListMeta_spec in Hs as [_ [(_ & _ & _ & fs & Hfs)|(-> & _)]]; [|done].
  by rewrite Hfs in Hf.
Qed.

(** A push on a store whose appends all succeed. *)
Lemma pushInternal_nofault db key (idxTree : gmap string indexNode) val isLeft h t :
  faults db = [] → trees db !! key = Some idxTree →
  listMeta db idxTree key = (h, t, None) →
  (pushInternal db key val isLeft).1 = None ∧
  faults (pushInternal db key val isLeft).2 = [] ∧
  meta_of (pushInternal db key val isLeft).2 key =
    Some (uint32 (if isLeft then uint32 (h - 1) else h),
          uint32 (if isLeft then t else uint32 (t + 1)), None).
Proof.
  intros Hf Hk Hlm. unfold pushInternal. rewrite Hk, Hlm. cbv zeta.
  set (ent := mkEntry _ val TypeNormal).
  pose proof (writeLogEntry_faults db ent) as Hf1. rewrite Hf in Hf1.
  destruct (writeLogEntry db ent) as [[pos|e] db1] eqn:Hw;
    apply writeLogEntry_spec in Hw as (_ & _ & [(He & _ & fs & Hfs)|(He & _)]);
    try done; try (by rewrite Hf in Hfs).
  simpl in Hf1.
  match goal with |- context [saveListMeta ?d key ?tr ?a ?b] =>
    pose proof (saveListMeta_faults d key tr a b) as Hf2;
    pose proof (saveListMeta_nofault d key tr a b) as Hok;
    pose proof (saveListMeta_meta d key tr a b) as Hm
  end.
  simpl in Hf2, Hok. rewrite Hf1 in Hf2, Hok.
  split; [by apply Hok|]. split; [done|]. apply Hm. by apply Hok.
Qed.

(** A pop that takes an element and returns no error. *)
Lemma popInternal_meta db key (idxTree : gmap string indexNode) isLeft h t :
  trees db !! key = Some idxTree →
  listMeta db idxTree key = (h, t, None) →
  uint32 (t - h - 1) ≠ 0 →
  (popInternal db key isLeft).1.2 = None →
  meta_of (popInternal db key isLeft).2 key =
    Some (uint32 (if isLeft then uint32 (h + 1) else h),
          uint32 (if isLeft then t else uint32 (t - 1)), None).
Proof.
  intros Hk Hlm Hsize. unfold popInternal. rewrite Hk, Hlm. cbv zeta.
  pose proof (uint32_range (t - h - 1)).
  rewrite decide_False by lia.
  destruct (getVal db idxTree _) as [val|e]; [|done].
  destruct (writeLogEntry db _) as [[pos|e] db1]; [|done].
  match goal with |- context [saveListMeta ?d key ?tr ?a ?b] =>
    pose proof (saveListMeta_meta d key tr a b) as Hm;
    destruct (saveListMeta d key tr a b) as [[e|] db2]
  end; [done|].
  intros _. by apply Hm.
Qed.

Lemma reachable_fresh (m : IndexMode) (fs : list bool) (o1 o2 : op) :
  reachable (pushed o1 + pushed o2) (run o2 (run o1 (mkDB m ∅ [] fs))).
Proof.
  apply reach_step.
  replace (pushed o1) with (0 + pushed o1) by lia.
  apply reach_step, reach_open.
Qed.

(** What a pop does to the metadata of a list that is empty, and of a list
    of one element. *)
Lemma popInternal_meta_cases (n : Z) (db : RoseDB) (key : bytes)
    (isLeft : bool) (h t : Z) :
  reachable n db →
  meta_of db key = Some (h, t, None) →
  (uint32 (t - h - 1) = 0 → head (faults db) ≠ Some true →
   (popInternal db key isLeft).1 = (None, None) ∧
   meta_of (popInternal db key isLeft).2 key =
     Some (initialListSeq, initialListSeq + 1, None)) ∧
  (uint32 (t - h - 1) = 1 → (popInternal db key isLeft).1.2 = None →
   meta_of (popInternal db key isLeft).2 key =
     Some (if isLeft then uint32 (h + 1) else h,
           if isLeft then t else uint32 (t - 1), None) ∧
   LLen (popInternal db key isLeft).2 key = 0).
Proof.
  intros Hreach Hmeta. apply reachable_Inv in Hreach as HI.
  unfold meta_of in Hmeta.
  destruct (trees db !! key) as [idxTree|] eqn:Hk; [|done].
  injection Hmeta as Hlm.
  destruct (meta_ok_at n db key idxTree h t HI Hk Hlm) as (Hh & Ht & _).
  split.
  - intros Hsize Hf. unfold popInternal. rewrite Hk, Hlm. cbv zeta.
    rewrite decide_True by lia.
    case_decide as Hne.
    + simpl. split; [done|].
      rewrite saveListMeta_meta by (by apply saveListMeta_nofault).
      unfold initialListSeq. by rewrite !uint32_small by lia.
    + simpl. split; [done|]. unfold meta_of. rewrite Hk, Hlm.
      assert (h = initialListSeq ∧ t = initialListSeq + 1) as [-> ->]; [|done].
      destruct (decide (h = initialListSeq)), (decide (t = initialListSeq + 1)); tauto.
  - intros Hsize Herr.
    rewrite (popInternal_meta db key idxTree isLeft h t) by (done || lia).
    assert (Hmod : ∀ a b, uint32 a = 1 → uint32 b = uint32 (a - 1) → uint32 b = 0).
    { intros a b Ha ->. unfold uint32 in *.
      pose proof (Z.div_mod a (2 ^ 32) ltac:(lia)).
      replace (a - 1) with (0 + (a / 2 ^ 32) * 2 ^ 32) by lia.
      by rewrite Z_mod_plus_full. }
    destruct isLeft.
    + rewrite (uint32_small (uint32 (h + 1))) by apply uint32_range.
      rewrite (uint32_small t) by done. split; [done|].
      erewrite LLen_meta by (rewrite (popInternal_meta db key idxTree true h t)
                               by (done || lia);
                             rewrite (uint32_small (uint32 (h + 1))) by apply uint32_range;
                             by rewrite (uint32_small t) by done).
      apply (Hmod (t - h - 1)); [done|].
      unfold uint32.
      pose proof (Z.div_mod (h + 1) (2 ^ 32) ltac:(lia)).
      replace (t - (h + 1) mod 2 ^ 32 - 1)
        with (t - h - 1 - 1 + ((h + 1) / 2 ^ 32) * 2 ^ 32) by lia.
      by rewrite Z_mod_plus_full.
    + rewrite (uint32_small (uint32 (t - 1))) by apply uint32_range.
      rewrite (uint32_small h) by done. split; [done|].
      erewrite LLen_meta by (rewrite (popInternal_meta db key idxTree false h t)
                               by (done || lia);
                             rewrite (uint32_small (uint32 (t - 1))) by apply uint32_range;
                             by rewrite (uint32_small h) by done).
      apply (Hmod (t - h - 1)); [done|].
      unfold uint32.
      pose proof (Z.div_mod (t - 1) (2 ^ 32) ltac:(lia)).
      replace ((t - 1) mod 2 ^ 32 - h - 1)
        with (t - h - 1 - 1 + (- ((t - 1) / 2 ^ 32)) * 2 ^ 32) by lia.
      by rewrite Z_mod_plus_full.
Qed.

(** C4, as the code has it.  In a reachable store, a pop on a list that is
    already empty returns nil without error and, unless the metadata append
    fails, leaves the metadata at the initial values [2^31], [2^31 + 1].  A
    pop that takes the last element only moves the head ([LPop]) or the tail
    ([RPop]) by one: the list is then empty, and its metadata is at the
    initial values only when that step lands on them, that is for [LPop] when
    the head was [2^31 - 1] and for [RPop] when the tail was [2^31 + 2]. *)
Theorem C4_meta_reset_by_pop_on_empty (n : Z) (db : RoseDB) (key : bytes)
    (isLeft : bool) (h t : Z) :
  reachable n db →
  meta_of db key = Some (h, t, None) →
  (uint32 (t - h - 1) = 0 → head (faults db) ≠ Some true →
   (popInternal db key isLeft).1 = (None, None) ∧
   meta_of (popInternal db key isLeft).2 key =
     Some (initialListSeq, initialListSeq + 1, None)) ∧
  (uint32 (t - h - 1) = 1 → (popInternal db key isLeft).1.2 = None →
   meta_of (popInternal db key isLeft).2 key =
     Some (if isLeft then uint32 (h + 1) else h,
           if isLeft then t else uint32 (t - 1), None) ∧
   LLen (popInternal db key isLeft).2 key = 0 ∧
   (meta_of (popInternal db key isLeft).2 key =
      Some (initialListSeq, initialListSeq + 1, None) ↔
    (if isLeft then h = initialListSeq - 1 else t = initialListSeq + 2))).
Proof.
  intros Hreach Hmeta.
  destruct (popInternal_meta_cases n db key isLeft h t Hreach Hmeta) as [H0 H1].
  split; [exact H0|]. intros Hsize Herr.
  destruct (H1 Hsize Herr) as [Hm Hl]. split; [exact Hm|]. split; [exact Hl|].
  rewrite Hm. apply reachable_Inv in Hreach as HI.
  unfold meta_of in Hmeta.
  destruct (trees db !! key) as [idxTree|] eqn:Hk; [|done].
  injection Hmeta as Hlm.
  destruct (meta_ok_at n db key idxTree h t HI Hk Hlm) as (Hh & Ht & _).
  unfold initialListSeq, uint32 in *.
  destruct isLeft.
  - split.
    + intros [= E1 E2]. Z.div_mod_to_equations. lia.
    + intros ->. f_equal. f_equal. f_equal; Z.div_mod_to_equations; lia.
  - split.
    + intros [= E1 E2]. Z.div_mod_to_equations. lia.
    + intros ->. f_equal. f_equal. f_equal; Z.div_mod_to_equations; lia.
Qed.

Lemma C4_meta_reset_witness :
  (LPop (db_emptied KeyOnlyMemMode) "L").1 = (None, None) ∧
  meta_of (LPop (db_emptied KeyOnlyMemMode) "L").2 "L" =
    Some (initialListSeq, initialListSeq + 1, None).
Proof.
  refine (proj1 (C4_meta_reset_by_pop_on_empty 1 (db_emptied KeyOnlyMemMode) "L" true
                   (2 ^ 31 + 1) (2 ^ 31 + 2) _ _) _ _).
  - exact (reachable_fresh KeyOnlyMemMode [] (OpRPush "L" ["x"%string]) (OpLPop "L")).
  - vm_compute. reflexivity.
  - vm_compute. reflexivity.
  - vm_compute. discriminate.
Defined.

(** C4 as stated fails: after [RPush L x] and [LPop L], which returns [x], the
    list is empty and its metadata is [(2^31 + 1, 2^31 + 2)], not the initial
    values. *)
Lemma C4_counterexample_no_reset_after_last_pop :
  reachable 1 (db_emptied KeyOnlyMemMode) ∧
  (LPop (db_one KeyOnlyMemMode []) "L").1 = (Some "x"%string, None) ∧
  LLen (db_emptied KeyOnlyMemMode) "L" = 0 ∧
  meta_of (db_emptied KeyOnlyMemMode) "L" = Some (2 ^ 31 + 1, 2 ^ 31 + 2, None) ∧
  (2 ^ 31 + 1, 2 ^ 31 + 2) ≠ (initialListSeq, initialListSeq + 1).
Proof.
  split.
  { exact (reachable_fresh KeyOnlyMemMode [] (OpRPush "L" ["x"%string]) (OpLPop "L")). }
  split; [vm_compute; reflexivity|].
  split; [vm_compute; reflexivity|].
  split; [vm_compute; reflexivity|].
  vm_compute. discriminate.
Qed.

(** A push and a pop at the same end of a fresh list land on the initial
    values again. *)
Example pop_at_the_pushed_end_lands_on_initial :
  meta_of (LPop (LPush (empty_db KeyOnlyMemMode) "L" ["x"%string]).2 "L").2 "L" =
    Some (initialListSeq, initialListSeq + 1, None) ∧
  meta_of (RPop (RPush (empty_db KeyOnlyMemMode) "L" ["x"%string]).2 "L").2 "L" =
    Some (initialListSeq, initialListSeq + 1, None).
Proof. vm_compute. split; reflexivity. Qed.

(** C3, as the code has it.  In every store reached by pushes, pops, moves
    and sets, for every existing list: the metadata is readable and within 32
    bits; [LLen] returns [tailSeq - headSeq - 1] reduced modulo [2^32], hence
    a number [>= 0]; a list without metadata entry reads as [2^31] and
    [2^31 + 1]; and as long as at most [2^31 - 2] values were pushed in
    total, [tailSeq >= headSeq + 1] and [LLen] is [tailSeq - headSeq - 1]
    itself.  A key without list has length 0. *)
Theorem C3_list_meta_invariant (n : Z) (db : RoseDB) (key : bytes) :
  reachable n db →
  match trees db !! key with
  | None => LLen db key = 0
  | Some idxTree =>
      ∃ headSeq tailSeq,
        listMeta db idxTree key = (headSeq, tailSeq, None) ∧
        0 <= headSeq < 2 ^ 32 ∧ 0 <= tailSeq < 2 ^ 32 ∧
        LLen db key = uint32 (tailSeq - headSeq - 1) ∧
        LLen db key >= 0 ∧
        (idxTree !! key = None → headSeq = 2 ^ 31 ∧ tailSeq = 2 ^ 31 + 1) ∧
        (n <= 2 ^ 31 - 2 →
         tailSeq >= headSeq + 1 ∧ LLen db key = tailSeq - headSeq - 1)
  end.
Proof.
  intros Hreach. apply reachable_Inv in Hreach as HI.
  destruct (trees db !! key) as [idxTree|] eqn:Hk.
  - destruct HI as (Hn & _ & Hmeta).
    destruct (Hmeta key idxTree Hk) as (h & t & Hlm & Hh & Ht & Hb).
    assert (HL : LLen db key = uint32 (t - h - 1)).
    { apply LLen_meta. unfold meta_of. by rewrite Hk, Hlm. }
    exists h, t. split; [done|]. split; [done|]. split; [done|]. split; [done|].
    split; [rewrite HL; pose proof (uint32_range (t - h - 1)); lia|].
    split.
    + intros Hnone. rewrite listMeta_fresh in Hlm by done.
      unfold initialListSeq in Hlm. by inversion Hlm.
    + intros Hn'. unfold initialListSeq in Hb. destruct (Hb Hn') as (? & ? & ?).
      split; [lia|]. rewrite HL. apply uint32_small. lia.
  - unfold LLen. by rewrite Hk.
Qed.

Lemma C3_list_meta_invariant_witness :
  ∃ headSeq tailSeq,
    listMeta (db_emptied KeyOnlyMemMode)
      (default ∅ (trees (db_emptied KeyOnlyMemMode) !! "L"%string)) "L" =
      (headSeq, tailSeq, None) ∧
    0 <= headSeq < 2 ^ 32 ∧ 0 <= tailSeq < 2 ^ 32 ∧
    LLen (db_emptied KeyOnlyMemMode) "L" = uint32 (tailSeq - headSeq - 1) ∧
    LLen (db_emptied KeyOnlyMemMode) "L" >= 0 ∧
    (default ∅ (trees (db_emptied KeyOnlyMemMode) !! "L"%string) !! "L"%string = None →
     headSeq = 2 ^ 31 ∧ tailSeq = 2 ^ 31 + 1) ∧
    (1 <= 2 ^ 31 - 2 →
     tailSeq >= headSeq + 1 ∧
     LLen (db_emptied KeyOnlyMemMode) "L" = tailSeq - headSeq - 1).
Proof.
  pose proof (C3_list_meta_invariant 1 (db_emptied KeyOnlyMemMode) "L"
                (reachable_fresh KeyOnlyMemMode [] (OpRPush "L" ["x"%string])
                   (OpLPop "L"))) as H.
  assert (Hk : trees (db_emptied KeyOnlyMemMode) !! "L"%string =
               Some (default ∅ (trees (db_emptied KeyOnlyMemMode) !! "L"%string)))
    by (vm_compute; reflexivity).
  rewrite Hk in H. exact H.
Defined.

Lemma rpushes_S (n : nat) : rpushes (S n) = rpush_once (rpushes n).
Proof. reflexivity. Qed.

Lemma rpushes_reachable (n : nat) : reachable (Z.of_nat n) (rpushes n).
Proof.
  induction n as [|n IH].
  - apply reach_open.
  - rewrite rpushes_S, Nat2Z.inj_succ.
    replace (Z.succ (Z.of_nat n))
      with (Z.of_nat n + pushed (OpRPush "L" ["x"%string])) by (simpl; lia).
    exact (reach_step _ _ (OpRPush "L" ["x"%string]) IH).
Qed.

(** After [n >= 1] right pushes on a fresh store the head has not moved and
    the tail is [2^31 + 1 + n] reduced to 32 bits. *)
Lemma rpushes_meta (n : nat) :
  faults (rpushes (S n)) = [] ∧
  meta_of (rpushes (S n)) "L" =
    Some (initialListSeq, uint32 (initialListSeq + 1 + Z.of_nat (S n)), None).
Proof.
  induction n as [|n [IHf IHm]].
  - vm_compute. done.
  - rewrite (rpushes_S (S n)). unfold rpush_once, RPush, ensure_tree.
    unfold meta_of in IHm.
    destruct (trees (rpushes (S n)) !! "L"%string) as [idxTree|] eqn:Hk; [|done].
    injection IHm as Hlm. unfold pushAll.
    destruct (pushInternal_nofault (rpushes (S n)) "L" idxTree "x" false _ _
                IHf Hk Hlm) as (Herr & Hf & Hm).
    destruct (pushInternal (rpushes (S n)) "L" "x" false) as [[e|] db1];
      [done|]. cbn [fst snd] in *. split; [done|].
    rewrite Hm.
    rewrite (uint32_small initialListSeq) by done.
    rewrite (uint32_small (uint32 _)) by apply uint32_range.
    rewrite (Nat2Z.inj_succ (S n)). unfold uint32.
    rewrite Z.add_mod_idemp_l by lia.
    replace (Z.succ (Z.of_nat (S n))) with (Z.of_nat (S n) + 1) by lia.
    by rewrite Z.add_assoc.
Qed.

(** C3 as stated fails: the sequence numbers are 32-bit counters.  After
    [2^31 - 1] right pushes on one list (a reachable store) the tail has
    wrapped to 0 while the head is [2^31], so [tailSeq < headSeq + 1]. *)
Lemma C3_counterexample_tail_wraps :
  reachable (2 ^ 31 - 1) (rpushes (Z.to_nat (2 ^ 31 - 1))) ∧
  meta_of (rpushes (Z.to_nat (2 ^ 31 - 1))) "L" = Some (2 ^ 31, 0, None) ∧
  ¬ (0 >= 2 ^ 31 + 1).
Proof.
  assert (HN : Z.of_nat (Z.to_nat (2 ^ 31 - 1)) = 2 ^ 31 - 1)
    by (apply Z2Nat.id; lia).
  split; [|split; [|lia]].
  - rewrite <- HN at 1. apply rpushes_reachable.
  - assert (HS : ∃ k, Z.to_nat (2 ^ 31 - 1) = S k).
    { exists (Nat.pred (Z.to_nat (2 ^ 31 - 1))). lia. }
    destruct HS as [k Hk].
    pose proof (rpushes_meta k) as [_ Hm].
    rewrite <- Hk in Hm. rewrite Hm, HN. reflexivity.
Qed.

(** C8.  The internal key of a list element is the four bytes of the
    sequence, lowest first, followed by the user key, and [decodeListKey]
    inverts [encodeListKey]; the metadata body written by [saveListMeta] is
    [headSeq] then [tailSeq], four little-endian bytes each, and [listMeta]
    reads the same pair back. *)
Theorem C8_list_key_and_meta_roundtrip (key : bytes) (seq headSeq tailSeq : Z)
    (db : RoseDB) (idxTree : gmap string indexNode) :
  0 <= seq < 2 ^ 32 → 0 <= headSeq < 2 ^ 32 → 0 <= tailSeq < 2 ^ 32 →
  encodeListKey key seq =
    String (byte_of seq)
      (String (byte_of (seq / 2 ^ 8))
         (String (byte_of (seq / 2 ^ 16))
            (String (byte_of (seq / 2 ^ 24)) key))) ∧
  decodeListKey (encodeListKey key seq) = Some (key, seq) ∧
  ((saveListMeta db key idxTree headSeq tailSeq).1 = None →
   last (logfile (saveListMeta db key idxTree headSeq tailSeq).2) =
     Some (mkEntry key (PutUint32 headSeq ++ PutUint32 tailSeq) TypeListMeta) ∧
   meta_of (saveListMeta db key idxTree headSeq tailSeq).2 key =
     Some (headSeq, tailSeq, None)).
Proof.
  intros Hseq Hh Ht. split; [|split].
  - unfold encodeListKey, PutUint32. simpl. by rewrite !Z.shiftr_div_pow2 by lia.
  - unfold decodeListKey.
    change (encodeListKey key seq) with
      (String (byte_of seq)
         (String (byte_of (Z.shiftr seq 8))
            (String (byte_of (Z.shiftr seq 16))
               (String (byte_of (Z.shiftr seq 24)) key)))).
    change (String (byte_of seq) _) with (PutUint32 seq ++ key)%string.
    by rewrite Uint32_PutUint32_app, uint32_small.
  - intros Hok. split.
    + revert Hok. unfold saveListMeta.
      destruct (writeLogEntry db _) as [[pos|e] db1] eqn:Hw; [|done].
      apply writeLogEntry_spec in Hw as (_ & _ & [(? & _)|(_ & Hlog & _)]); [done|].
      intros _. simpl. rewrite Hlog. by rewrite last_snoc.
    + rewrite saveListMeta_meta by done. by rewrite !uint32_small.
Qed.

Lemma C8_list_key_and_meta_roundtrip_witness :
  decodeListKey (encodeListKey "L" 2147483649) = Some ("L"%string, 2147483649) ∧
  meta_of (saveListMeta (empty_db KeyOnlyMemMode) "L" ∅ 2147483647 2147483650).2 "L" =
    Some (2147483647, 2147483650, None).
Proof.
  pose proof (C8_list_key_and_meta_roundtrip "L" 2147483649 2147483647 2147483650
                (empty_db KeyOnlyMemMode) ∅
                ltac:(lia) ltac:(lia) ltac:(lia)) as (_ & H2 & H3).
  split; [exact H2|]. exact (proj2 (H3 eq_refl)).
Defined.

Lemma LSet_error_keeps_index db key i v :
  (LSet db key i v).1 ≠ None → trees (LSet db key i v).2 = trees db.
Proof.
  unfold LSet.
  destruct (trees db !! key) as [idxTree|]; [|done].
  destruct (listMeta db idxTree key) as [[h t] [e|]]; [done|].
  unfold listSequence. case_decide; [done|]. cbv zeta.
  destruct (writeLogEntry db _) as [[pos|e] db1] eqn:Hw; [done|].
  apply writeLogEntry_spec in Hw as (_ & Htr & _). done.
Qed.

Lemma pushInternal_first_append_fails db key val isLeft fs :
  faults db = true :: fs →
  (pushInternal db key val isLeft).1 ≠ None ∧
  trees (pushInternal db key val isLeft).2 = trees db.
Proof.
  intros Hf. unfold pushInternal.
  destruct (trees db !! key) as [idxTree|]; [|done].
  destruct (listMeta db idxTree key) as [[h t] [e|]]; [done|].
  cbv zeta. by rewrite (writeLogEntry_fails db _ fs).
Qed.

Lemma popInternal_first_append_fails db key isLeft fs :
  faults db = true :: fs →
  trees (popInternal db key isLeft).2 = trees db.
Proof.
  intros Hf. unfold popInternal.
  destruct (trees db !! key) as [idxTree|]; [|done].
  destruct (listMeta db idxTree key) as [[h t] [e|]]; [done|].
  cbv zeta. case_decide.
  - case_decide; [|done]. simpl. unfold saveListMeta.
    by rewrite (writeLogEntry_fails db _ fs).
  - destruct (getVal db idxTree _) as [val|e]; [|done].
    by rewrite (writeLogEntry_fails db _ fs).
Qed.

End ListResults.

(** ** The hash datatype *)

Section HashResults.
Import HashDB.

Variable checkKeyValue : bytes → list bytes → option error.
Variable Size : Entry → Z.

Lemma store_indexes db e : indexes (store Size db e).2 = indexes db.
Proof.
  unfold store. destruct (activeFile db); [|done].
  by destruct (faults db) as [|[] fs].
Qed.

Lemma store_ok_active db e :
  (store Size db e).1 = None → is_Some (activeFile (store Size db e).2).
Proof.
  unfold store. destruct (activeFile db); [|done].
  destruct (faults db) as [|[] fs]; simpl; eauto.
Qed.

Lemma Hash_HSetIndexer_spec h idx onlyNotExist :
  let key := Key (IMeta idx) in
  let field := Extra (IMeta idx) in
  let r := Hash_HSetIndexer h idx onlyNotExist in
  (Hash_HGet h key field = None → r.1 = 1 ∧ Hash_HGet r.2 key field = Some idx) ∧
  (is_Some (Hash_HGet h key field) → r.1 = 0 ∧ is_Some (Hash_HGet r.2 key field)).
Proof.
  intros key field. unfold Hash_HSetIndexer, Hash_HGet. fold key field. simpl.
  destruct (h !! key) as [fields|] eqn:Hk; simpl.
  - destruct (fields !! field) as [old|] eqn:Hf.
    + split; [done|]. intros _.
      destruct onlyNotExist; simpl; (split; [done|]).
      * by rewrite Hk; simpl; rewrite Hf.
      * rewrite lookup_insert_eq. simpl. by rewrite lookup_insert_eq.
    + split; [|by intros [? ?]]. intros _. simpl. split; [done|].
      rewrite lookup_insert_eq. simpl. by rewrite lookup_insert_eq.
  - rewrite lookup_empty. split; [|by intros [? ?]]. intros _. simpl.
    split; [done|]. rewrite lookup_insert_eq. simpl. by rewrite lookup_insert_eq.
Qed.

(** [setHashIndexer] answers 1 exactly when the field was not stored and now
    is, and 0 otherwise. *)
Lemma setHashIndexer_spec db key field value mark onlyNotExist :
  let r := setHashIndexer Size db (NewEntry key value field mark) onlyNotExist in
  (r.1 = 1 ↔ ¬ field_stored db key field ∧ field_stored r.2 key field) ∧
  (r.1 = 0 ∨ r.1 = 1) ∧
  (field_stored db key field → field_stored r.2 key field) ∧
  (is_Some (activeFile db) → ¬ field_stored db key field → r.1 = 1) ∧
  activeFile r.2 = activeFile db ∧ faults r.2 = faults db.
Proof.
  unfold setHashIndexer, field_stored. simpl.
  destruct (activeFile db) as [af|] eqn:Ha; simpl.
  - match goal with |- context [Hash_HSetIndexer ?h ?i ?b] =>
      pose proof (Hash_HSetIndexer_spec h i b) as [Hnew Hold];
      destruct (Hash_HSetIndexer h i b) as [res h'] eqn:Hr
    end. simpl in *.
    destruct (Hash_HGet (indexes db) key field) as [old|] eqn:Hg.
    + destruct Hold as [-> Hs]; [by eexists|].
      assert (is_Some (Some old)) by (by eexists).
      clear Hnew. split_and!; try done; intuition congruence.
    + destruct Hnew as [-> Hs]; [done|].
      assert (¬ is_Some (@None Indexer)) by (by intros [? ?]).
      assert (is_Some (Hash_HGet h' key field)) by (rewrite Hs; by eexists).
      clear Hold. split_and!; try done; intuition congruence.
  - assert (¬ is_Some (@None DBFile)) by (by intros [? ?]).
    split_and!; try done; intuition congruence.
Qed.


Lemma HSet_locked_result db key field value :
  let r := HSet_locked Size db key field value in
  (r.1.1 = 1 ↔ ¬ field_stored db key field ∧ field_stored r.2 key field) ∧
  (field_stored db key field → r.1.1 = 0) ∧
  (r.1.2 ≠ None → r.1.1 = 0 ∧ indexes r.2 = indexes db) ∧
  (¬ field_stored db key field → r.1.2 = None → r.1.1 = 1).
Proof.
  unfold HSet_locked.
  pose proof (store_indexes db (NewEntry key value field HashHSet)) as Hidx.
  pose proof (store_ok_active db (NewEntry key value field HashHSet)) as Hact.
  destruct (store Size db _) as [[err|] db1]; simpl in *.
  - unfold field_stored. rewrite Hidx. split_and!; try done.
    split; [done|]. by intros [? ?].
  - pose proof (setHashIndexer_spec db1 key field value HashHSet false)
      as (Hiff & H01 & Hkeep & Hnew & _).
    destruct (setHashIndexer Size db1 (NewEntry key value field HashHSet) false)
      as [res db2]. simpl in *.
    unfold field_stored in *. rewrite Hidx in *.
    split_and!; try done.
    + intros Hs. destruct H01 as [->| ->]; [done|]. by apply Hiff in Hs.
    + intros Hn _. apply Hnew; [by apply Hact|done].
Qed.

(** [HSet] answers 1 exactly when the field was not stored and is stored by
    the call; it answers 0 on a stored field and whenever it returns an error,
    and then the index is as before. *)
Lemma HSet_result db key field value :
  let r := HSet checkKeyValue Size db key field value in
  (r.1.1 = 1 ↔ ¬ field_stored db key field ∧ field_stored r.2 key field) ∧
  (field_stored db key field → r.1.1 = 0) ∧
  (r.1.2 ≠ None → r.1.1 = 0 ∧ indexes r.2 = indexes db) ∧
  (IdxMode db = KeyOnlyMemMode → ¬ field_stored db key field → r.1.2 = None →
   r.1.1 = 1).
Proof.
  unfold HSet.
  assert (Hstay : ∀ err : option error,
             ((0, err, db).1.1 = 1 ↔
              ¬ field_stored db key field ∧ field_stored (0, err, db).2 key field) ∧
             (field_stored db key field → (0, err, db).1.1 = 0) ∧
             ((0, err, db).1.2 ≠ None →
              (0, err, db).1.1 = 0 ∧ indexes (0, err, db).2 = indexes db)).
  { intros err. simpl. split_and!; try done. split; [done|]. by intros [? ?]. }
  pose proof (HSet_locked_result db key field value) as (L1 & L2 & L3 & L4).
  destruct (checkKeyValue key [value]) as [err|].
  { destruct (Hstay (Some err)) as (? & ? & ?). split_and!; try done. }
  case_decide as Hmode.
  - destruct (HGet checkKeyValue db key field) as [oldVal|err].
    + case_decide.
      * destruct (Hstay None) as (? & ? & ?).
        split_and!; try done; intros E; by rewrite E in Hmode.
      * split_and!; try done; intros E; by rewrite E in Hmode.
    + destruct (Hstay (Some err)) as (? & ? & ?). split_and!; try done.
  - split_and!; try done; intros _; done.
Qed.


End HashResults.



(** The spec's scenario for hashes: a first [HSet H f v1] returns 1, a second
    [HSet H f v2] returns 0, and [HSetNx] on the stored field returns 0. *)
Example HSet_twice :
  let db0 := HashDB.empty_db HashDB.KeyOnlyMemMode [] in
  let r1 := HashDB.HSet HashDB.check_nonempty HashDB.size_of db0 "H" "f" "v1" in
  let r2 := HashDB.HSet HashDB.check_nonempty HashDB.size_of r1.2 "H" "f" "v2" in
  let r3 := HashDB.HSetNx HashDB.check_nonempty HashDB.size_of r2.2 "H" "f" "v3" in
  r1.1 = (1, None) ∧ r2.1 = (0, None) ∧ r3.1 = (0, None).
Proof. vm_compute. repeat split. Qed.

(** On the error path [HSet] returns 0 next to the error: a new field whose
    append fails. *)
Example HSet_failed_append_returns_zero :
  ¬ HashDB.field_stored (HashDB.empty_db HashDB.KeyOnlyMemMode [true]) "H" "f" ∧
  (HashDB.HSet HashDB.check_nonempty HashDB.size_of
     (HashDB.empty_db HashDB.KeyOnlyMemMode [true]) "H" "f" "v").1 =
    (0, Some ErrIO).
Proof.
  split.
  - intros [x Hx]. vm_compute in Hx. discriminate.
  - vm_compute. reflexivity.
Qed.

(** [HSetNx] and [HDel] change the index before they append: when the append
    fails, the error comes back with the index already changed.  ([HSet]
    appends first.) *)
Example HSetNx_HDel_index_before_append :
  let nx := HashDB.HSetNx HashDB.check_nonempty HashDB.size_of
              (HashDB.empty_db HashDB.KeyOnlyMemMode [true]) "H" "f" "v" in
  let db1 := (HashDB.HSet HashDB.check_nonempty HashDB.size_of
                (HashDB.empty_db HashDB.KeyOnlyMemMode [false; true]) "H" "f" "v").2 in
  let del := HashDB.HDel HashDB.check_nonempty HashDB.size_of db1 "H" ["f"%string] in
  nx.1 = (1, Some ErrIO) ∧
  HashDB.Hash_HGet (HashDB.indexes nx.2) "H" "f" ≠ None ∧
  HashDB.Hash_HGet (HashDB.indexes db1) "H" "f" ≠ None ∧
  del.1 = (0, Some ErrIO) ∧
  HashDB.Hash_HGet (HashDB.indexes del.2) "H" "f" = None.
Proof. vm_compute. repeat split; discriminate. Qed.

(** ** Failed appends *)

(** C1, as the code has it.  [HSet] and [LSet] leave the index as it was
    whenever they return an error, in particular when their append fails.
    When the first append of the call fails: [LPop] and [RPop] return with the
    trees as they were; [LPushX] and [RPushX] return an error with the trees
    as they were; [LPush] and [RPush] return an error with the trees as they
    were if the key had a list, and with an empty tree added for the key if
    it had none, since they create the tree before they append;
    [pushInternal] alone returns an error with the trees as they were. *)
Theorem C1_failed_append_keeps_index :
  (∀ (checkKeyValue : bytes → list bytes → option error) (Size : HashDB.Entry → Z)
     (db : HashDB.RoseDB) (key field value : bytes),
     (HashDB.HSet checkKeyValue Size db key field value).1.2 ≠ None →
     HashDB.indexes (HashDB.HSet checkKeyValue Size db key field value).2 =
       HashDB.indexes db) ∧
  (∀ (db : ListDB.RoseDB) (key : bytes) (index : Z) (val : bytes),
     (ListDB.LSet db key index val).1 ≠ None →
     ListDB.trees (ListDB.LSet db key index val).2 = ListDB.trees db) ∧
  (∀ (db : ListDB.RoseDB) (key : bytes) (isLeft : bool) (fs : list bool),
     ListDB.faults db = true :: fs →
     ListDB.trees (ListDB.LPop db key).2 = ListDB.trees db ∧
     ListDB.trees (ListDB.RPop db key).2 = ListDB.trees db ∧
     ListDB.trees (ListDB.popInternal db key isLeft).2 = ListDB.trees db) ∧
  (∀ (db : ListDB.RoseDB) (key val : bytes) (rest : list bytes) (fs : list bool),
     ListDB.faults db = true :: fs →
     (ListDB.LPushX db key (val :: rest)).1 ≠ None ∧
     ListDB.trees (ListDB.LPushX db key (val :: rest)).2 = ListDB.trees db ∧
     (ListDB.RPushX db key (val :: rest)).1 ≠ None ∧
     ListDB.trees (ListDB.RPushX db key (val :: rest)).2 = ListDB.trees db) ∧
  (∀ (db : ListDB.RoseDB) (key val : bytes) (rest : list bytes) (fs : list bool),
     ListDB.faults db = true :: fs →
     (ListDB.LPush db key (val :: rest)).1 ≠ None ∧
     (ListDB.RPush db key (val :: rest)).1 ≠ None ∧
     (is_Some (ListDB.trees db !! key) →
      ListDB.trees (ListDB.LPush db key (val :: rest)).2 = ListDB.trees db ∧
      ListDB.trees (ListDB.RPush db key (val :: rest)).2 = ListDB.trees db) ∧
     (ListDB.trees db !! key = None →
      ListDB.trees (ListDB.LPush db key (val :: rest)).2 = <[key := ∅]> (ListDB.trees db) ∧
      ListDB.trees (ListDB.RPush db key (val :: rest)).2 = <[key := ∅]> (ListDB.trees db))) ∧
  (∀ (db : ListDB.RoseDB) (key val : bytes) (isLeft : bool) (fs : list bool),
     ListDB.faults db = true :: fs →
     (ListDB.pushInternal db key val isLeft).1 ≠ None ∧
     ListDB.trees (ListDB.pushInternal db key val isLeft).2 = ListDB.trees db).
Proof.
  assert (Hall : ∀ (db : ListDB.RoseDB) key val rest isLeft fs,
            ListDB.faults db = true :: fs →
            (ListDB.pushAll db key (val :: rest) isLeft).1 ≠ None ∧
            ListDB.trees (ListDB.pushAll db key (val :: rest) isLeft).2 =
              ListDB.trees db).
  { intros db key val rest isLeft fs Hf. simpl.
    destruct (pushInternal_first_append_fails db key val isLeft fs Hf) as [He Ht].
    by destruct (ListDB.pushInternal db key val isLeft) as [[e|] db1]. }
  split_and!.
  - intros ck Size db key field value Herr.
    by apply (HSet_result ck Size db key field value).
  - apply LSet_error_keeps_index.
  - intros db key isLeft fs Hf. unfold ListDB.LPop, ListDB.RPop.
    split_and!; by apply (popInternal_first_append_fails _ _ _ fs).
  - intros db key val rest fs Hf. unfold ListDB.LPushX, ListDB.RPushX.
    destruct (ListDB.trees db !! key) as [idxTree|]; [|done].
    destruct (Hall db key val rest true fs Hf) as [? ?].
    destruct (Hall db key val rest false fs Hf) as [? ?]. done.
  - intros db key val rest fs Hf. unfold ListDB.LPush, ListDB.RPush, ListDB.ensure_tree.
    destruct (ListDB.trees db !! key) as [idxTree|] eqn:Hk.
    + destruct (Hall db key val rest true fs Hf) as [? ?].
      destruct (Hall db key val rest false fs Hf) as [? ?].
      split; [done|]. split; [done|]. split; [done|]. intros [=].
    + destruct (Hall (ListDB.set_tree db key ∅) key val rest true fs Hf) as [? ?].
      destruct (Hall (ListDB.set_tree db key ∅) key val rest false fs Hf) as [? ?].
      split; [done|]. split; [done|]. split; [by intros [? [=]]|]. done.
  - apply pushInternal_first_append_fails.
Qed.

Lemma C1_failed_append_witness :
  (ListDB.LPush (ListDB.mkDB ListDB.KeyOnlyMemMode ∅ [] [true]) "L" ["x"%string]).1 ≠ None ∧
  ListDB.trees
    (ListDB.LPush (ListDB.mkDB ListDB.KeyOnlyMemMode ∅ [] [true]) "L" ["x"%string]).2 =
  <["L"%string := ∅]> ∅.
Proof.
  destruct (proj1 (proj2 (proj2 (proj2 (proj2 C1_failed_append_keeps_index))))
              (ListDB.mkDB ListDB.KeyOnlyMemMode ∅ [] [true]) "L" "x" [] [] eq_refl)
    as (H1 & _ & _ & H4).
  split; [exact H1|]. exact (proj1 (H4 eq_refl)).
Defined.

(** C1 as stated fails for a push: when the append of the element succeeds
    and the append of the metadata fails, [LPush] returns the error and the
    element stays in the tree of the list. *)
Lemma C1_counterexample_push_meta_append_fails :
  let db := ListRun.db_one ListDB.KeyOnlyMemMode [false; false; false; true] in
  let ik := ListDB.encodeListKey "L" (2 ^ 31) in
  (ListDB.LPush db "L" ["y"%string]).1 = Some ErrIO ∧
  ListRun.index_has db "L" ik = false ∧
  ListRun.index_has (ListDB.LPush db "L" ["y"%string]).2 "L" ik = true.
Proof. vm_compute. repeat split. Qed.

(** [LPush] on a key without a list, when its append fails: the error comes
    back, and the empty tree made for the key is seen by the reads and by
    [LPushX]. *)
Example LPush_failed_append_leaves_empty_list :
  let db := ListDB.mkDB ListDB.KeyOnlyMemMode ∅ [] [true] in
  let db' := (ListDB.LPush db "L" ["x"%string]).2 in
  (ListDB.LPush db "L" ["x"%string]).1 = Some ErrIO ∧
  ListDB.LRange db "L" 0 (-1) = ([], Some ErrKeyNotFound) ∧
  ListDB.LRange db' "L" 0 (-1) = ([], Some ErrWrongIndex) ∧
  (ListDB.LPushX db "L" ["y"%string]).1 = Some ErrKeyNotFound ∧
  (ListDB.LPushX db' "L" ["y"%string]).1 = None.
Proof. vm_compute. repeat split. Qed.

(** ** The B-tree index *)

Section BTreeOrder.
Import Index.

Lemma ascii_compare_refl (a : ascii) : Ascii.compare a a = Eq.
Proof. unfold Ascii.compare. apply N.compare_refl. Qed.

Lemma ascii_compare_lt_trans (a b c : ascii) :
  Ascii.compare a b = Lt → Ascii.compare b c = Lt → Ascii.compare a c = Lt.
Proof.
  unfold Ascii.compare. rewrite !N.compare_lt_iff. apply N.lt_trans.
Qed.

Lemma compare_refl (s : bytes) : String.compare s s = Eq.
Proof. induction s as [|a s IH]; simpl; [done|]. by rewrite ascii_compare_refl. Qed.

Lemma klt_irrefl (a : bytes) : ¬ klt a a.
Proof. unfold klt, bytes_Compare. by rewrite compare_refl. Qed.

Lemma klt_trans (a b c : bytes) : klt a b → klt b c → klt a c.
Proof.
  unfold klt, bytes_Compare. revert b c.
  induction a as [|x a IH]; intros [|y b] [|z c]; simpl; try done.
  destruct (Ascii.compare x y) eqn:Hxy; try done.
  - apply Ascii.compare_eq_iff in Hxy as ->.
    destruct (Ascii.compare y z); try done. apply IH.
  - intros _. destruct (Ascii.compare y z) eqn:Hyz; try done.
    + apply Ascii.compare_eq_iff in Hyz as ->. by rewrite Hxy.
    + by rewrite (ascii_compare_lt_trans x y z).
Qed.

Lemma klt_asym (a b : bytes) : klt a b → ¬ klt b a.
Proof. intros H1 H2. exact (klt_irrefl a (klt_trans a b a H1 H2)). Qed.

Lemma klt_total (a b : bytes) : klt a b ∨ a = b ∨ klt b a.
Proof.
  unfold klt, bytes_Compare.
  destruct (String.compare a b) eqn:H.
  - right. left. by apply String.compare_eq_iff.
  - by left.
  - right. right. rewrite String.compare_antisym, H. done.
Qed.

Lemma Less_klt (a b : item) : Less a b = true ↔ klt (key a) (key b).
Proof.
  unfold Less, klt. destruct (bytes_Compare (key a) (key b)); split; done.
Qed.

Lemma Less_false (a b : item) :
  Less a b = false → Less b a = false → key a = key b.
Proof.
  intros H1 H2.
  destruct (klt_total (key a) (key b)) as [H|[H|H]]; [|done|].
  - apply Less_klt in H. congruence.
  - apply Less_klt in H. congruence.
Qed.

(** The three cases every function on the tree goes through. *)
Lemma Less_cases (it x : item) :
  (Less it x = true ∧ klt (key it) (key x)) ∨
  (Less it x = false ∧ Less x it = true ∧ klt (key x) (key it)) ∨
  (Less it x = false ∧ Less x it = false ∧ key it = key x).
Proof.
  destruct (Less it x) eqn:H1.
  - left. split; [done|]. by apply Less_klt.
  - right. destruct (Less x it) eqn:H2.
    + left. split_and!; [done..|]. by apply Less_klt.
    + right. split_and!; [done..|]. by apply Less_false.
Qed.

Lemma ascending_cons x t :
  ascending (x :: t) ↔ ascending t ∧ Forall (λ y, klt (key x) (key y)) t.
Proof.
  unfold ascending. split.
  - intros H. by inversion H.
  - intros [H1 H2]. by constructor.
Qed.

(** In an ascending tree [Get] finds exactly the item that carries the key. *)
Lemma BTree_Get_spec t it x :
  ascending t → (BTree_Get t it = Some x ↔ x ∈ t ∧ key x = key it).
Proof.
  induction t as [|y t IH]; intros Hs; simpl.
  - split; [done|]. intros [H _]. by apply elem_of_nil in H.
  - apply ascending_cons in Hs as [Hs Hall].
    rewrite Forall_forall in Hall. rewrite elem_of_cons.
    destruct (Less_cases it y) as [(-> & Hlt)|[(-> & -> & Hlt)|(-> & -> & Heq)]].
    + split; [done|]. intros [[->|Hin] Hk].
      * rewrite Hk in Hlt. by apply klt_irrefl in Hlt.
      * specialize (Hall x Hin). rewrite Hk in Hall.
        by apply (klt_asym _ _ Hlt) in Hall.
    + rewrite (IH Hs). split; [tauto|]. intros [[->|Hin] Hk]; [|done].
      rewrite Hk in Hlt. by apply klt_irrefl in Hlt.
    + split.
      * intros [= ->]. split; [by left|done].
      * intros [[->|Hin] Hk]; [done|].
        specialize (Hall x Hin). rewrite Hk, Heq in Hall.
        by apply klt_irrefl in Hall.
Qed.

Lemma BTree_Get_None t it :
  ascending t → (BTree_Get t it = None ↔ key it ∉ map key t).
Proof.
  intros Hs. split.
  - intros Hn Hin. apply list_elem_of_fmap in Hin as (x & Hk & Hin).
    assert (BTree_Get t it = Some x) as E by (by apply BTree_Get_spec).
    congruence.
  - intros Hnot. destruct (BTree_Get t it) as [x|] eqn:Hg; [|done].
    apply BTree_Get_spec in Hg as [Hin Hk]; [|done].
    destruct Hnot. rewrite <- Hk. apply list_elem_of_fmap. by exists x.
Qed.

Lemma ReplaceOrInsert_spec t it :
  ascending t →
  ascending (ReplaceOrInsert t it).1 ∧
  (ReplaceOrInsert t it).2 = BTree_Get t it ∧
  (∀ x, x ∈ (ReplaceOrInsert t it).1 ↔ x = it ∨ (x ∈ t ∧ key x ≠ key it)).
Proof.
  induction t as [|y t IH]; intros Hs; simpl.
  - split_and!; [by repeat constructor|done|].
    intros x. rewrite list_elem_of_singleton. split; [by left|].
    intros [->|[H _]]; [done|]. by apply elem_of_nil in H.
  - pose proof Hs as Hs0.
    apply ascending_cons in Hs as [Hs Hall].
    rewrite Forall_forall in Hall.
    destruct (Less_cases it y) as [(-> & Hlt)|[(-> & -> & Hlt)|(-> & -> & Heq)]].
    + simpl. split_and!; [|done|].
      * apply ascending_cons. split; [done|]. constructor; [done|].
        apply Forall_forall. intros z Hz. by apply (klt_trans _ (key y)), Hall.
      * intros x. rewrite !elem_of_cons. split.
        -- intros [->|[->|Hin]]; [by left| |].
           ++ right. split; [by left|]. intros E. rewrite E in Hlt.
              by apply klt_irrefl in Hlt.
           ++ right. split; [by right|]. intros E. specialize (Hall x Hin).
              rewrite E in Hall. by apply (klt_asym _ _ Hlt) in Hall.
        -- intros [->|[[->|Hin] _]]; tauto.
    + destruct (IH Hs) as (IH1 & IH2 & IH3).
      destruct (ReplaceOrInsert t it) as [t'' old]. simpl in *.
      split_and!; [|done|].
      * apply ascending_cons. split; [done|]. apply Forall_forall.
        intros z Hz. apply IH3 in Hz as [->|[Hz _]]; [done|by apply Hall].
      * intros x. rewrite !elem_of_cons, IH3. split.
        -- intros [->|[->|[Hin Hne]]]; [|by left|].
           ++ right. split; [by left|]. intros E. rewrite E in Hlt.
              by apply klt_irrefl in Hlt.
           ++ right. split; [by right|done].
        -- intros [->|[[->|Hin] Hne]]; tauto.
    + simpl. split_and!; [|done|].
      * apply ascending_cons. split; [done|]. apply Forall_forall.
        intros z Hz. rewrite Heq. by apply Hall.
      * intros x. rewrite !elem_of_cons. split.
        -- intros [->|Hin]; [by left|]. right. split; [by right|].
           intros E. specialize (Hall x Hin). rewrite E, Heq in Hall.
           by apply klt_irrefl in Hall.
        -- intros [->|[[->|Hin] Hne]]; [by left| |by right].
           by rewrite Heq in Hne.
Qed.

Lemma BTree_Delete_spec t it :
  ascending t →
  ascending (BTree_Delete t it).1 ∧
  (BTree_Delete t it).2 = BTree_Get t it ∧
  (∀ x, x ∈ (BTree_Delete t it).1 ↔ x ∈ t ∧ key x ≠ key it).
Proof.
  induction t as [|y t IH]; intros Hs; simpl.
  - split_and!; [done..|]. intros x. split; [|tauto].
    intros H. by apply elem_of_nil in H.
  - pose proof Hs as Hs0.
    apply ascending_cons in Hs as [Hs Hall].
    rewrite Forall_forall in Hall.
    destruct (Less_cases it y) as [(-> & Hlt)|[(-> & -> & Hlt)|(-> & -> & Heq)]].
    + simpl. split_and!; [done..|]. intros x. rewrite !elem_of_cons.
      split; [|tauto]. intros [->|Hin].
      * split; [by left|]. intros E. rewrite E in Hlt. by apply klt_irrefl in Hlt.
      * split; [by right|]. intros E. specialize (Hall x Hin).
        rewrite E in Hall. by apply (klt_asym _ _ Hlt) in Hall.
    + destruct (IH Hs) as (IH1 & IH2 & IH3).
      destruct (BTree_Delete t it) as [t'' old]. simpl in *.
      split_and!; [|done|].
      * apply ascending_cons. split; [done|]. apply Forall_forall.
        intros z Hz. apply IH3 in Hz as [Hz _]. by apply Hall.
      * intros x. rewrite !elem_of_cons, IH3. split.
        -- intros [->|[Hin Hne]]; [|tauto].
           split; [by left|]. intros E. rewrite E in Hlt.
           by apply klt_irrefl in Hlt.
        -- intros [[->|Hin] Hne]; tauto.
    + simpl. split_and!; [done..|]. intros x. rewrite !elem_of_cons. split.
      * intros Hin. split; [by right|]. intros E. specialize (Hall x Hin).
        rewrite E, Heq in Hall. by apply klt_irrefl in Hall.
      * intros [[->|Hin] Hne]; [|done]. by rewrite Heq in Hne.
Qed.

(** An ascending tree is determined by the items it holds. *)
Lemma ascending_ext t1 : ∀ t2,
  ascending t1 → ascending t2 → (∀ x, x ∈ t1 ↔ x ∈ t2) → t1 = t2.
Proof.
  induction t1 as [|x t1 IH]; intros [|y t2] H1 H2 Hext.
  - done.
  - specialize (Hext y). rewrite elem_of_cons in Hext.
    assert (y ∈ @nil item) as Hin by (apply Hext; by left). by apply elem_of_nil in Hin.
  - specialize (Hext x). rewrite elem_of_cons in Hext.
    assert (x ∈ @nil item) as Hin by (apply Hext; by left). by apply elem_of_nil in Hin.
  - apply ascending_cons in H1 as [H1 Hx]. apply ascending_cons in H2 as [H2 Hy].
    rewrite Forall_forall in Hx, Hy.
    assert (x = y) as ->.
    { pose proof (proj1 (Hext x) ltac:(left)) as Hxin.
      pose proof (proj2 (Hext y) ltac:(left)) as Hyin.
      apply elem_of_cons in Hxin as [?|Hxin]; [done|].
      apply elem_of_cons in Hyin as [?|Hyin]; [done|].
      specialize (Hx y Hyin). specialize (Hy x Hxin).
      by apply (klt_asym _ _ Hx) in Hy. }
    f_equal. apply IH; [done..|]. intros z. split; intros Hz.
    + pose proof (proj1 (Hext z) ltac:(by right)) as Hz'.
      apply elem_of_cons in Hz' as [->|?]; [|done].
      specialize (Hx y Hz). by apply klt_irrefl in Hx.
    + pose proof (proj2 (Hext z) ltac:(by right)) as Hz'.
      apply elem_of_cons in Hz' as [->|?]; [|done].
      specialize (Hy y Hz). by apply klt_irrefl in Hy.
Qed.

End BTreeOrder.

Section BTreeResults.
Import Index.

Lemma BTree_Get_key t it it' :
  key it = key it' → BTree_Get t it = BTree_Get t it'.
Proof.
  intros Hk. induction t as [|x t IH]; simpl; [done|].
  unfold Less. by rewrite Hk, IH.
Qed.

Lemma Put_tree mt k p :
  tree (Put mt k p).1 = (ReplaceOrInsert (tree mt) (mkItem k p)).1 ∧
  (Put mt k p).2 = (ReplaceOrInsert (tree mt) (mkItem k p)).2 ≫= pos.
Proof.
  unfold Put. by destruct (ReplaceOrInsert (tree mt) (mkItem k p)) as [t [old|]].
Qed.

Lemma Delete_tree mt k :
  tree (Delete mt k).1.1 = (BTree_Delete (tree mt) (mkItem k None)).1 ∧
  (Delete mt k).1.2 = (BTree_Delete (tree mt) (mkItem k None)).2 ≫= pos ∧
  (Delete mt k).2 = bool_decide (is_Some (BTree_Delete (tree mt) (mkItem k None)).2).
Proof.
  unfold Delete. by destruct (BTree_Delete (tree mt) (mkItem k None)) as [t [old|]].
Qed.

Lemma Get_find mt k : Get mt k = BTree_Get (tree mt) (mkItem k None) ≫= pos.
Proof. unfold Get. by destruct (BTree_Get (tree mt) (mkItem k None)). Qed.

Lemma reachable_ascending mt : reachable mt → ascending (tree mt).
Proof.
  induction 1 as [|mt k p _ IH|mt k _ IH].
  - constructor.
  - rewrite (proj1 (Put_tree mt k p)). by apply ReplaceOrInsert_spec.
  - rewrite (proj1 (Delete_tree mt k)). by apply BTree_Delete_spec.
Qed.

Lemma stored_iff mt k : stored mt k ↔ ∃ x, x ∈ tree mt ∧ key x = k.
Proof.
  unfold stored. rewrite list_elem_of_fmap. split; intros (x & H1 & H2); eauto.
Qed.

Lemma find_ext t t' k :
  ascending t → ascending t' →
  (∀ x, key x = k → (x ∈ t' ↔ x ∈ t)) →
  BTree_Get t' (mkItem k None) = BTree_Get t (mkItem k None).
Proof.
  intros Hs Hs' Hext.
  destruct (BTree_Get t (mkItem k None)) as [x|] eqn:Hg.
  - apply BTree_Get_spec in Hg as [Hin Hk]; [|done].
    apply BTree_Get_spec; [done|]. split; [|done]. by apply Hext.
  - apply BTree_Get_None in Hg; [|done]. apply BTree_Get_None; [done|].
    intros Hin. apply Hg. simpl in *.
    apply list_elem_of_fmap in Hin as (x & Hk & Hin).
    apply list_elem_of_fmap. exists x. split; [done|]. by apply Hext.
Qed.

Lemma Get_member mt x : ascending (tree mt) → x ∈ tree mt → Get mt (key x) = pos x.
Proof.
  intros Hs Hin. rewrite Get_find.
  assert (BTree_Get (tree mt) (mkItem (key x) None) = Some x) as ->; [|done].
  by apply BTree_Get_spec.
Qed.

Lemma Get_not_stored mt k : ascending (tree mt) → ¬ stored mt k → Get mt k = None.
Proof.
  intros Hs Hn. rewrite Get_find.
  assert (BTree_Get (tree mt) (mkItem k None) = None) as ->; [|done].
  by apply BTree_Get_None.
Qed.

(** What [Put] does to an index with an ascending tree. *)
Lemma Put_spec mt k p :
  ascending (tree mt) →
  (Put mt k p).2 = Get mt k ∧
  Get (Put mt k p).1 k = p ∧
  (∀ k', k' ≠ k → Get (Put mt k p).1 k' = Get mt k') ∧
  (∀ k', stored (Put mt k p).1 k' ↔ k' = k ∨ stored mt k').
Proof.
  intros Hs.
  destruct (Put_tree mt k p) as [Ht Hold].
  destruct (ReplaceOrInsert_spec (tree mt) (mkItem k p) Hs) as (Hs' & Hget & Hmem).
  rewrite <- Ht in Hs', Hmem.
  split_and!.
  - rewrite Hold, Hget, Get_find. f_equal. by apply BTree_Get_key.
  - apply (Get_member (Put mt k p).1 (mkItem k p)); [done|]. apply Hmem. by left.
  - intros k' Hne. rewrite !Get_find. f_equal. apply find_ext; [done..|].
    intros x Hk. rewrite Hmem. simpl. split.
    + intros [->|[? _]]; [|done]. simpl in Hk. congruence.
    + intros Hin. right. split; [done|]. congruence.
  - intros k'. rewrite !stored_iff. split.
    + intros (x & Hin & Hk). apply Hmem in Hin as [->|[Hin _]]; [by left|].
      right. by exists x.
    + intros [->|(x & Hin & Hk)].
      * exists (mkItem k p). split; [|done]. apply Hmem. by left.
      * destruct (decide (k' = k)) as [->|Hne].
        -- exists (mkItem k p). split; [|done]. apply Hmem. by left.
        -- exists x. split; [|done]. apply Hmem. right. split; [done|].
           simpl. congruence.
Qed.

(** What [Delete] does to an index with an ascending tree. *)
Lemma Delete_spec mt k :
  ascending (tree mt) →
  (Delete mt k).1.2 = Get mt k ∧
  ((Delete mt k).2 = true ↔ stored mt k) ∧
  ¬ stored (Delete mt k).1.1 k ∧
  Get (Delete mt k).1.1 k = None ∧
  (∀ k', k' ≠ k →
     Get (Delete mt k).1.1 k' = Get mt k' ∧
     (stored (Delete mt k).1.1 k' ↔ stored mt k')).
Proof.
  intros Hs.
  destruct (Delete_tree mt k) as (Ht & Hold & Hex).
  destruct (BTree_Delete_spec (tree mt) (mkItem k None) Hs) as (Hs' & Hget & Hmem).
  rewrite <- Ht in Hs', Hmem. simpl in Hmem.
  assert (Hgone : ¬ stored (Delete mt k).1.1 k).
  { rewrite stored_iff. intros (x & Hin & Hk). apply Hmem in Hin as [_ Hne]. done. }
  split_and!.
  - by rewrite Hold, Hget, Get_find.
  - rewrite Hex, Hget, bool_decide_eq_true. split.
    + intros [x Hx]. apply BTree_Get_spec in Hx as [Hin Hk]; [|done].
      apply stored_iff. by exists x.
    + intros Hst. apply stored_iff in Hst as (x & Hin & Hk).
      exists x. by apply BTree_Get_spec.
  - done.
  - by apply Get_not_stored.
  - intros k' Hne. split.
    + rewrite !Get_find. f_equal. apply find_ext; [done..|].
      intros x Hk. rewrite Hmem. split; [tauto|]. intros Hin. split; [done|].
      congruence.
    + rewrite !stored_iff. split; intros (x & Hin & Hk); exists x.
      * apply Hmem in Hin. tauto.
      * split; [|done]. apply Hmem. split; [done|]. congruence.
Qed.

Lemma BTree_Ascend_record go t : ∀ seen,
  BTree_Ascend t (λ i, record_visit go (key i) (pos i)) seen =
  seen ++ until_stop go t.
Proof.
  induction t as [|x t IH]; intros seen; simpl.
  - by rewrite app_nil_r.
  - destruct (go (key x) (pos x)).
    + rewrite IH, <- app_assoc. done.
    + done.
Qed.

Lemma until_stop_all t : until_stop (λ _ _, true) t = map (λ x, (key x, pos x)) t.
Proof. induction t as [|x t IH]; simpl; [done|]. by rewrite IH. Qed.

Lemma until_stop_prefix go t :
  until_stop go t `prefix_of` map (λ x, (key x, pos x)) t.
Proof.
  induction t as [|x t IH]; simpl; [done|].
  destruct (go (key x) (pos x)).
  - by apply prefix_cons.
  - apply prefix_cons, prefix_nil.
Qed.

Lemma ascending_keys t : ascending t → StronglySorted klt (map key t).
Proof.
  induction t as [|x t IH]; intros Hs; simpl; [constructor|].
  apply ascending_cons in Hs as [Hs Hall]. constructor; [by apply IH|].
  apply Forall_fmap. done.
Qed.

Lemma StronglySorted_klt_NoDup l : StronglySorted klt l → NoDup l.
Proof.
  induction 1 as [|a l _ IH Hall]; constructor; [|done].
  intros Hin. rewrite Forall_forall in Hall.
  by apply (klt_irrefl a), Hall.
Qed.

(** Two indexes that store the same keys with the same positions are equal,
    however they were built. *)
Lemma index_ext mt1 mt2 :
  ascending (tree mt1) → ascending (tree mt2) →
  (∀ k, stored mt1 k ↔ stored mt2 k) → (∀ k, Get mt1 k = Get mt2 k) →
  mt1 = mt2.
Proof.
  intros H1 H2 Hst Hget.
  assert (Hhalf : ∀ a b, ascending (tree a) → ascending (tree b) →
             (∀ k, stored a k → stored b k) → (∀ k, Get a k = Get b k) →
             ∀ x, x ∈ tree a → x ∈ tree b).
  { intros a b Ha Hb Hab Hg x Hin.
    assert (stored b (key x)) as Hs.
    { apply Hab, stored_iff. by exists x. }
    apply stored_iff in Hs as (y & Hy & Hk).
    pose proof (Get_member a x Ha Hin) as E1.
    pose proof (Get_member b y Hb Hy) as E2.
    rewrite Hk, <- Hg, E1 in E2.
    assert (x = y) as ->; [|done].
    destruct x, y. simpl in *. congruence. }
  destruct mt1 as [t1], mt2 as [t2]. f_equal. simpl in *.
  apply ascending_ext; [done..|]. intros x. split.
  - apply (Hhalf (mkBTree t1) (mkBTree t2)); [done..| |done]. intros k. apply Hst.
  - apply (Hhalf (mkBTree t2) (mkBTree t1)); [done..| |done]. intros k. apply Hst.
Qed.

Lemma entries_keys mt : map fst (entries mt) = map key (tree mt).
Proof. unfold entries. rewrite map_map. done. Qed.

Lemma Put_commute mt k1 p1 k2 p2 :
  ascending (tree mt) → k1 ≠ k2 →
  (Put (Put mt k1 p1).1 k2 p2).1 = (Put (Put mt k2 p2).1 k1 p1).1.
Proof.
  intros Hs Hne.
  assert (Hasc : ∀ m k p, ascending (tree m) → ascending (tree (Put m k p).1)).
  { intros m k p Hm. rewrite (proj1 (Put_tree m k p)). by apply ReplaceOrInsert_spec. }
  pose proof (Hasc mt k1 p1 Hs) as Hs1. pose proof (Hasc mt k2 p2 Hs) as Hs2.
  destruct (Put_spec mt k1 p1 Hs) as (_ & G1 & O1 & S1).
  destruct (Put_spec mt k2 p2 Hs) as (_ & G2 & O2 & S2).
  destruct (Put_spec (Put mt k1 p1).1 k2 p2 Hs1) as (_ & G12 & O12 & S12).
  destruct (Put_spec (Put mt k2 p2).1 k1 p1 Hs2) as (_ & G21 & O21 & S21).
  apply index_ext; [by apply Hasc..| |].
  - intros k. rewrite S12, S21, S1, S2. tauto.
  - intros k. destruct (decide (k = k2)) as [->|Hk2].
    + rewrite G12, O21 by done. by rewrite G2.
    + rewrite O12 by done. destruct (decide (k = k1)) as [->|Hk1].
      * by rewrite G1, G21.
      * rewrite O1, O21 by done. by rewrite O2.
Qed.

(** C9.  On an index built from [newBTree] by [Put] and [Delete]: [Put]
    stores the position and returns the one stored before (none for a new
    key), leaving the other keys alone; [Get] returns the stored position, and
    none for a key that is not stored; [Delete] returns the position removed
    and whether the key was stored, and removes that key only; [Ascend] calls
    its function on the stored keys in strictly ascending byte order, each
    once, up to and including the first call that answers false, and
    [Descend] does so in descending order; the contents, and so every visit,
    depend on the keys and positions stored and not on the order of the
    insertions. *)
Theorem C9_btree_index_ordered_map (mt : Index.MemoryBTree) :
  Index.reachable mt →
  (∀ k p,
     (Index.Put mt k p).2 = Index.Get mt k ∧
     Index.Get (Index.Put mt k p).1 k = p ∧
     (∀ k', k' ≠ k → Index.Get (Index.Put mt k p).1 k' = Index.Get mt k') ∧
     (∀ k', Index.stored (Index.Put mt k p).1 k' ↔ k' = k ∨ Index.stored mt k')) ∧
  (∀ k, ¬ Index.stored mt k → Index.Get mt k = None) ∧
  (∀ k p, (k, p) ∈ Index.entries mt → Index.Get mt k = p) ∧
  (∀ k,
     (Index.Delete mt k).1.2 = Index.Get mt k ∧
     ((Index.Delete mt k).2 = true ↔ Index.stored mt k) ∧
     ¬ Index.stored (Index.Delete mt k).1.1 k ∧
     Index.Get (Index.Delete mt k).1.1 k = None ∧
     (∀ k', k' ≠ k →
        Index.Get (Index.Delete mt k).1.1 k' = Index.Get mt k' ∧
        (Index.stored (Index.Delete mt k).1.1 k' ↔ Index.stored mt k'))) ∧
  (∀ go,
     Index.Ascend mt (Index.record_visit go) [] = Index.until_stop go (Index.tree mt) ∧
     Index.until_stop go (Index.tree mt) `prefix_of` Index.entries mt) ∧
  Index.Ascend mt (Index.record_visit (λ _ _, true)) [] = Index.entries mt ∧
  (∀ go,
     Index.Descend mt (Index.record_visit go) [] =
       Index.until_stop go (rev (Index.tree mt)) ∧
     Index.until_stop go (rev (Index.tree mt)) `prefix_of` rev (Index.entries mt)) ∧
  Index.Descend mt (Index.record_visit (λ _ _, true)) [] = rev (Index.entries mt) ∧
  StronglySorted Index.klt (map fst (Index.entries mt)) ∧
  NoDup (map fst (Index.entries mt)) ∧
  (∀ k, Index.stored mt k ↔ k ∈ map fst (Index.entries mt)) ∧
  (∀ mt', Index.reachable mt' →
     (∀ k, Index.stored mt k ↔ Index.stored mt' k) →
     (∀ k, Index.Get mt k = Index.Get mt' k) → mt = mt') ∧
  (∀ k1 p1 k2 p2, k1 ≠ k2 →
     (Index.Put (Index.Put mt k1 p1).1 k2 p2).1 =
     (Index.Put (Index.Put mt k2 p2).1 k1 p1).1).
Proof.
  intros Hreach. pose proof (reachable_ascending mt Hreach) as Hs.
  split; [intros k p; by apply Put_spec|].
  split; [intros k; by apply Get_not_stored|].
  split.
  { intros k p Hin. unfold entries in Hin.
    apply list_elem_of_fmap in Hin as (x & [= -> ->] & Hin). by apply Get_member. }
  split; [intros k; by apply Delete_spec|].
  split.
  { intros go. split; [|apply until_stop_prefix].
    unfold Ascend. by rewrite BTree_Ascend_record. }
  split.
  { unfold Ascend. by rewrite BTree_Ascend_record, until_stop_all. }
  split.
  { intros go. split.
    - unfold Descend, BTree_Descend. by rewrite BTree_Ascend_record.
    - unfold entries. rewrite <- map_rev. apply until_stop_prefix. }
  split.
  { unfold Descend, BTree_Descend, entries.
    by rewrite BTree_Ascend_record, until_stop_all, map_rev. }
  split; [rewrite entries_keys; by apply ascending_keys|].
  split.
  { rewrite entries_keys. by apply StronglySorted_klt_NoDup, ascending_keys. }
  split; [intros k; by rewrite entries_keys|].
  split.
  { intros mt' Hreach'. apply index_ext; [done|]. by apply reachable_ascending. }
  intros k1 p1 k2 p2. by apply Put_commute.
Qed.

Lemma C9_btree_index_witness :
  Index.Ascend Index.three_keys (Index.record_visit (λ _ _, true)) [] =
    [("a"%string, Some (Index.mkPos 1 20 10));
     ("b"%string, Some (Index.mkPos 1 0 10));
     ("c"%string, Some (Index.mkPos 1 10 10))] ∧
  Index.Get (Index.Put Index.three_keys "b" None).1 "b" = None.
Proof.
  assert (Hr : Index.reachable Index.three_keys).
  { unfold three_keys. repeat apply reach_put. apply reach_new. }
  pose proof (C9_btree_index_ordered_map Index.three_keys Hr) as (HP & _ & _ & _ & _ & HA & _).
  split; [exact HA|]. exact (proj1 (proj2 (HP "b"%string None))).
Defined.

End BTreeResults.

(** ** Lists as sequences: what pushes, pops and sets do to the elements *)

Section ListElements.
Import ListDB ListRun ListView.

(** The index [i - LLen] reads what the index [i] reads. *)
Lemma LIndex_from_tail db k i :
  0 <= i < LLen db k → LIndex db k i = LIndex db k (i - LLen db k).
Proof.
  unfold LLen, LIndex.
  destruct (trees db !! k) as [idxTree|]; [|done].
  destruct (listMeta db idxTree k) as [[h t] [e|]]; [done|].
  intros Hi. by rewrite listSequence_from_tail.
Qed.

Lemma PutUint32_inj (a b : Z) :
  0 <= a < 2 ^ 32 → 0 <= b < 2 ^ 32 → PutUint32 a = PutUint32 b → a = b.
Proof.
  intros Ha Hb E. apply (f_equal Uint32) in E.
  by rewrite !Uint32_PutUint32, !uint32_small in E.
Qed.

Lemma encodeListKey_inj (key : bytes) (a b : Z) :
  0 <= a < 2 ^ 32 → 0 <= b < 2 ^ 32 →
  encodeListKey key a = encodeListKey key b → a = b.
Proof.
  intros Ha Hb E. apply (f_equal Uint32) in E. unfold encodeListKey in E.
  by rewrite !Uint32_PutUint32_app, !uint32_small in E.
Qed.

Lemma changes_only_refl keys db : changes_only keys db db.
Proof. split_and!; [done| exists []; by rewrite app_nil_r | done]. Qed.

Lemma changes_only_trans keys db1 db2 db3 :
  changes_only keys db1 db2 → changes_only keys db2 db3 → changes_only keys db1 db3.
Proof.
  intros (M1 & [l1 L1] & T1) (M2 & [l2 L2] & T2). split_and!.
  - by rewrite M2.
  - exists (l1 ++ l2). by rewrite L2, L1, app_assoc.
  - intros k Hk. by rewrite T2, T1.
Qed.

Lemma changes_only_mono keys keys' db db' :
  (∀ k, k ∈ keys → k ∈ keys') → changes_only keys db db' → changes_only keys' db db'.
Proof.
  intros Hsub (M & L & T). split_and!; [done..|]. intros k Hk. apply T.
  intros Hin. by apply Hk, Hsub.
Qed.

Lemma writeLogEntry_changes keys db ent :
  changes_only keys db (writeLogEntry db ent).2.
Proof.
  destruct (writeLogEntry db ent) as [r db1] eqn:Hw.
  apply writeLogEntry_spec in Hw as (Hm & Ht & Hcase). simpl.
  split_and!; [done| |by rewrite Ht].
  destruct Hcase as [(_ & -> & _)|(_ & -> & _)]; [exists []; by rewrite app_nil_r|by eexists].
Qed.

Lemma set_tree_changes db key (idxTree : gmap string indexNode) :
  changes_only [key] db (set_tree db key idxTree).
Proof.
  split_and!; [done| exists []; by rewrite app_nil_r |].
  intros k Hk. unfold set_tree, set_trees. simpl.
  rewrite lookup_insert_ne; [done|]. intros ->. apply Hk. by left.
Qed.

Lemma saveListMeta_changes db key (idxTree : gmap string indexNode) h t :
  changes_only [key] db (saveListMeta db key idxTree h t).2.
Proof.
  unfold saveListMeta.
  pose proof (writeLogEntry_changes [key] db
                (mkEntry key (PutUint32 h ++ PutUint32 t) TypeListMeta)) as Hw.
  destruct (writeLogEntry db _) as [[pos|e] db1]; simpl in *; [|done].
  eapply changes_only_trans; [exact Hw|]. apply set_tree_changes.
Qed.

Lemma ensure_tree_changes db key : changes_only [key] db (ensure_tree db key).
Proof.
  unfold ensure_tree. destruct (trees db !! key).
  - apply changes_only_refl.
  - apply set_tree_changes.
Qed.

Lemma pushInternal_changes db key val isLeft :
  changes_only [key] db (pushInternal db key val isLeft).2.
Proof.
  unfold pushInternal.
  destruct (trees db !! key) as [idxTree|]; [|apply changes_only_refl].
  destruct (listMeta db idxTree key) as [[h t] [e|]]; [apply changes_only_refl|].
  cbv zeta.
  match goal with |- context [writeLogEntry db ?ent] =>
    pose proof (writeLogEntry_changes [key] db ent) as Hw;
    destruct (writeLogEntry db ent) as [[pos|e] db1]
  end; simpl in *; [|done].
  eapply changes_only_trans; [exact Hw|].
  eapply changes_only_trans; [apply set_tree_changes|apply saveListMeta_changes].
Qed.

Lemma pushAll_changes values : ∀ db key isLeft,
  changes_only [key] db (pushAll db key values isLeft).2.
Proof.
  induction values as [|val rest IH]; intros db key isLeft; simpl.
  - apply changes_only_refl.
  - pose proof (pushInternal_changes db key val isLeft) as H1.
    destruct (pushInternal db key val isLeft) as [[e|] db1]; simpl in *; [done|].
    eapply changes_only_trans; [exact H1|apply IH].
Qed.

Lemma popInternal_changes db key isLeft :
  changes_only [key] db (popInternal db key isLeft).2.
Proof.
  unfold popInternal.
  destruct (trees db !! key) as [idxTree|]; [|apply changes_only_refl].
  destruct (listMeta db idxTree key) as [[h t] [e|]]; [apply changes_only_refl|].
  cbv zeta. case_decide.
  { case_decide; [|apply changes_only_refl]. simpl. apply saveListMeta_changes. }
  destruct (getVal db idxTree _) as [val|e]; [|apply changes_only_refl].
  match goal with |- context [writeLogEntry db ?ent] =>
    pose proof (writeLogEntry_changes [key] db ent) as Hw;
    destruct (writeLogEntry db ent) as [[pos|e] db1]
  end; simpl in *; [|done].
  match goal with |- context [saveListMeta ?d key ?tr ?a ?b] =>
    pose proof (saveListMeta_changes d key tr a b) as Hs;
    pose proof (set_tree_changes db1 key tr) as Ht;
    destruct (saveListMeta d key tr a b) as [[e|] db2]
  end; simpl in *;
    (eapply changes_only_trans; [exact Hw|];
     eapply changes_only_trans; [exact Ht|exact Hs]).
Qed.

Lemma LSet_changes db key index val : changes_only [key] db (LSet db key index val).2.
Proof.
  unfold LSet.
  destruct (trees db !! key) as [idxTree|]; [|apply changes_only_refl].
  destruct (listMeta db idxTree key) as [[h t] [e|]]; [apply changes_only_refl|].
  unfold listSequence. case_decide; [apply changes_only_refl|]. cbv zeta.
  match goal with |- context [writeLogEntry db ?ent] =>
    pose proof (writeLogEntry_changes [key] db ent) as Hw;
    destruct (writeLogEntry db ent) as [[pos|e] db1]
  end; simpl in *; [|done].
  eapply changes_only_trans; [exact Hw|apply set_tree_changes].
Qed.

Lemma LMove_changes db src dst sl dl :
  changes_only [src; dst] db (LMove db src dst sl dl).2.
Proof.
  unfold LMove.
  pose proof (popInternal_changes db src sl) as H1.
  assert (Hsrc : ∀ k : bytes, k ∈ [src] → k ∈ [src; dst]).
  { intros k Hk. apply list_elem_of_singleton in Hk as ->. by left. }
  assert (Hdst : ∀ k : bytes, k ∈ [dst] → k ∈ [src; dst]).
  { intros k Hk. apply list_elem_of_singleton in Hk as ->. right. by left. }
  apply (changes_only_mono [src] [src; dst]) in H1; [|done].
  destruct (popInternal db src sl) as [[[v|] [e|]] db1]; simpl in *; try done.
  pose proof (ensure_tree_changes db1 dst) as H2.
  pose proof (pushInternal_changes (ensure_tree db1 dst) dst v dl) as H3.
  apply (changes_only_mono [dst] [src; dst]) in H2; [|done].
  apply (changes_only_mono [dst] [src; dst]) in H3; [|done].
  destruct (pushInternal (ensure_tree db1 dst) dst v dl) as [[e|] db2]; simpl in *;
    (eapply changes_only_trans; [exact H1|];
     eapply changes_only_trans; [exact H2|exact H3]).
Qed.

Lemma run_changes o db : changes_only (keys_of o) db (run o db).
Proof.
  destruct o as [k vs|k vs|k vs|k vs|k|k|s d sl dl|k i v]; simpl.
  - unfold LPush. eapply changes_only_trans; [apply ensure_tree_changes|apply pushAll_changes].
  - unfold LPushX. destruct (trees db !! k); [apply pushAll_changes|apply changes_only_refl].
  - unfold RPush. eapply changes_only_trans; [apply ensure_tree_changes|apply pushAll_changes].
  - unfold RPushX. destruct (trees db !! k); [apply pushAll_changes|apply changes_only_refl].
  - apply popInternal_changes.
  - apply popInternal_changes.
  - apply LMove_changes.
  - apply LSet_changes.
Qed.

Lemma getVal_extends db db' (idxTree : gmap string indexNode) ik :
  mode db' = mode db → (∃ l, logfile db' = logfile db ++ l) →
  (∀ node, idxTree !! ik = Some node → (offset node < length (logfile db))%nat) →
  getVal db' idxTree ik = getVal db idxTree ik.
Proof.
  intros Hm [l Hl] Hv. apply getVal_frame; [done..|].
  intros node Hn. rewrite Hl. apply lookup_app_l. by apply Hv.
Qed.

Lemma rangeLoop_extends n : ∀ db db' (idxTree : gmap string indexNode) key seq values,
  (∀ ik, getVal db' idxTree ik = getVal db idxTree ik) →
  rangeLoop n db' idxTree key seq values = rangeLoop n db idxTree key seq values.
Proof.
  induction n as [|n IH]; intros db db' idxTree key seq values Hg; simpl; [done|].
  rewrite Hg. destruct (getVal db idxTree _); [by apply IH|done].
Qed.

(** Reads of a list see nothing of appends to the log and of changes to the
    trees of other keys. *)
Lemma reads_unchanged keys db db' k :
  positions_valid db → changes_only keys db db' → k ∉ keys →
  LLen db' k = LLen db k ∧
  (∀ i, LIndex db' k i = LIndex db k i) ∧
  (∀ start end_, LRange db' k start end_ = LRange db k start end_).
Proof.
  intros Hpv (Hm & Hl & Ht) Hk.
  unfold LLen, LIndex, LRange. rewrite (Ht k Hk).
  destruct (trees db !! k) as [idxTree|] eqn:Hk'; [|done].
  assert (Hg : ∀ ik, getVal db' idxTree ik = getVal db idxTree ik).
  { intros ik. apply getVal_extends; [done..|]. intros node Hn. by eapply Hpv. }
  assert (Hlm : listMeta db' idxTree k = listMeta db idxTree k).
  { unfold listMeta. by rewrite Hg. }
  rewrite Hlm. split_and!; [done| |].
  - intros i. destruct (listMeta db idxTree k) as [[h t] [e|]]; [done|].
    destruct (listSequence h t i) as [seq [e|]]; [done|]. by rewrite Hg.
  - intros start end_. destruct (listMeta db idxTree k) as [[h t] [e|]]; [done|].
    destruct (listSequence h t start) as [s0 [e|]]; [done|].
    destruct (listSequence h t end_) as [e0 [e|]]; [done|].
    cbv zeta. case_decide; [done|]. by apply rangeLoop_extends.
Qed.

(** X1.  An operation on some lists changes neither the length nor any element of
    another list.
    (In a store opened empty and reached by list operations.) *)
Theorem other_lists_unchanged (n : Z) (db : RoseDB) (o : op) (k : bytes) :
  reachable n db → k ∉ keys_of o →
  LLen (run o db) k = LLen db k ∧
  (∀ i, LIndex (run o db) k i = LIndex db k i) ∧
  (∀ start end_, LRange (run o db) k start end_ = LRange db k start end_).
Proof.
  intros Hr Hk. apply reachable_Inv in Hr as (_ & Hpv & _).
  apply (reads_unchanged (keys_of o)); [done| apply run_changes | done].
Qed.

Lemma reachable_run_all os : ∀ n db,
  reachable n db → reachable (n + pushed_all os) (run_all os db).
Proof.
  unfold run_all, pushed_all.
  assert (Hp : ∀ os z, foldl (λ z o, z + pushed o) z os
                       = z + foldl (λ z o, z + pushed o) 0 os).
  { clear. induction os as [|o os IH]; intros z; simpl; [lia|].
    rewrite (IH (z + pushed o)), (IH (0 + pushed o)). lia. }
  induction os as [|o os IH]; intros n db Hr; simpl.
  - by rewrite Z.add_0_r.
  - rewrite (Hp os (0 + pushed o)).
    replace (n + (0 + pushed o + foldl (λ z o0, z + pushed o0) 0 os))
      with (n + pushed o + foldl (λ z o0, z + pushed o0) 0 os) by lia.
    apply IH. by apply reach_step.
Qed.

Lemma witness_lists_reachable :
  reachable 3 (db_yxz KeyOnlyMemMode) ∧ reachable 5 db_two_lists.
Proof.
  split.
  - exact (reachable_run_all
             [OpLPush "L" ["x"%string]; OpLPush "L" ["y"%string]; OpRPush "L" ["z"%string]]
             0 _ (reach_open KeyOnlyMemMode [])).
  - exact (reachable_run_all
             [OpLPush "L" ["x"%string]; OpLPush "L" ["y"%string]; OpRPush "L" ["z"%string];
              OpRPush "M" ["p"%string; "q"%string]]
             0 _ (reach_open KeyOnlyMemMode [])).
Qed.

Lemma other_lists_unchanged_witness :
  LLen (run (OpLPop "L") db_two_lists) "M" = LLen db_two_lists "M" ∧
  (∀ i, LIndex (run (OpLPop "L") db_two_lists) "M" i = LIndex db_two_lists "M" i) ∧
  (∀ start end_, LRange (run (OpLPop "L") db_two_lists) "M" start end_ =
                 LRange db_two_lists "M" start end_).
Proof.
  apply (other_lists_unchanged 5 db_two_lists (OpLPop "L") "M").
  - exact (proj2 witness_lists_reachable).
  - simpl. intros H. apply list_elem_of_singleton in H. discriminate.
Defined.

Lemma meta_bounds n db key (idxTree : gmap string indexNode) h t :
  Inv n db → n <= 2 ^ 31 - 2 → trees db !! key = Some idxTree →
  listMeta db idxTree key = (h, t, None) →
  2 <= h ∧ h + 1 <= t ∧ t <= 2 ^ 32 - 1 ∧
  2 ^ 31 - n <= h ∧ t <= 2 ^ 31 + 1 + n.
Proof.
  intros HI Hn Hk Hlm. pose proof HI as (Hn0 & _).
  destruct (meta_ok_at n db key idxTree h t HI Hk Hlm) as (_ & _ & Hb).
  unfold initialListSeq in Hb. destruct (Hb Hn) as (? & ? & ?). lia.
Qed.

Lemma LLen_exact db key (idxTree : gmap string indexNode) h t :
  trees db !! key = Some idxTree → listMeta db idxTree key = (h, t, None) →
  0 <= h → h + 1 <= t → t < 2 ^ 32 → LLen db key = t - h - 1.
Proof.
  intros Hk Hlm Hh Ht Ht'. unfold LLen. rewrite Hk, Hlm. apply uint32_small. lia.
Qed.

(** Within the list, [LIndex] of a non-negative index reads the element at
    the sequence [headSeq + 1 + i]. *)
Lemma LIndex_element db key (idxTree : gmap string indexNode) h t i :
  trees db !! key = Some idxTree → listMeta db idxTree key = (h, t, None) →
  0 <= h → t < 2 ^ 32 → 0 <= i → h + 1 + i < t →
  LIndex db key i = element db key (h + 1 + i).
Proof.
  intros Hk Hlm Hh Ht Hi Hit. unfold LIndex, element. rewrite Hk, Hlm.
  pose proof (listSequence_head h t i ltac:(lia) ltac:(lia) ltac:(lia)) as Hs.
  destruct (listSequence h t i) as [seq err] eqn:Hq.
  unfold listSequence in Hq. injection Hq as _ <-. simpl in Hs. subst seq.
  rewrite decide_False by lia. by replace (h + i + 1) with (h + 1 + i) by lia.
Qed.

Lemma element_unchanged db db' key (idxTree idxTree' : gmap string indexNode) seq :
  positions_valid db → mode db' = mode db → (∃ l, logfile db' = logfile db ++ l) →
  trees db !! key = Some idxTree → trees db' !! key = Some idxTree' →
  idxTree' !! encodeListKey key seq = idxTree !! encodeListKey key seq →
  element db' key seq = element db key seq.
Proof.
  intros Hpv Hm Hl Hk Hk' Ht. unfold element. rewrite Hk, Hk'.
  assert (getVal db' idxTree' (encodeListKey key seq) =
          getVal db idxTree (encodeListKey key seq)) as ->; [|done].
  transitivity (getVal db' idxTree (encodeListKey key seq)).
  - unfold getVal. by rewrite Ht.
  - apply getVal_extends; [done..|]. intros node Hn. by eapply Hpv.
Qed.

(** The store after a push that returned no error. *)
Lemma pushInternal_shape db key (idxTree : gmap string indexNode) val isLeft h t :
  trees db !! key = Some idxTree → listMeta db idxTree key = (h, t, None) →
  (pushInternal db key val isLeft).1 = None →
  ∃ idxTree',
    trees (pushInternal db key val isLeft).2 !! key = Some idxTree' ∧
    listMeta (pushInternal db key val isLeft).2 idxTree' key =
      (uint32 (if isLeft then uint32 (h - 1) else h),
       uint32 (if isLeft then t else uint32 (t + 1)), None) ∧
    element (pushInternal db key val isLeft).2 key (if isLeft then h else t) =
      (Some val, None) ∧
    (∀ ik, ik ≠ key → ik ≠ encodeListKey key (if isLeft then h else t) →
           idxTree' !! ik = idxTree !! ik).
Proof.
  intros Hk Hlm. unfold element, pushInternal. rewrite Hk, Hlm. cbv zeta.
  set (seq := if isLeft then h else t).
  set (ent := mkEntry (encodeListKey key seq) val TypeNormal).
  destruct (writeLogEntry db ent) as [[pos|e] db1] eqn:Hw; [|done].
  apply writeLogEntry_spec in Hw as (Hm & Htr & [(? & _)|(Hpos & Hlog & _)]); [done|].
  injection Hpos as ->.
  set (tree1 := updateIndexTree db1 idxTree ent (length (logfile db))).
  destruct (saveListMeta (set_tree db1 key tree1) key tree1 _ _) as [r db2] eqn:Hs.
  simpl. intros ->.
  apply saveListMeta_spec in Hs as [Hm2 [(? & _)|(_ & _ & Hok)]]; [done|].
  destruct Hok as (ment & tree' & Hlog2 & Htr2 & Htree' & Hread).
  exists tree'. rewrite Htr2, lookup_insert_eq.
  split; [done|]. split; [done|]. split.
  - unfold getVal. rewrite Htree'.
    rewrite lookup_insert_ne by (intros E; symmetry in E; by apply encodeListKey_ne in E).
    unfold tree1, updateIndexTree. simpl. rewrite lookup_insert_eq. simpl.
    rewrite Hm2. simpl. rewrite Hm.
    destruct (decide (mode db = KeyValueMemMode)) as [Hmode|Hmode]; [done|].
    assert (logfile db2 !! length (logfile db) = Some ent) as ->.
    { rewrite Hlog2. simpl. rewrite Hlog.
      rewrite lookup_app_l by (rewrite length_app; simpl; lia).
      by apply list_lookup_middle. }
    done.
  - intros ik Hne1 Hne2. rewrite Htree'.
    rewrite lookup_insert_ne by done.
    unfold tree1, updateIndexTree. simpl. by rewrite lookup_insert_ne.
Qed.

Lemma Inv_listMeta n db key (idxTree : gmap string indexNode) :
  Inv n db → trees db !! key = Some idxTree →
  ∃ h t, listMeta db idxTree key = (h, t, None).
Proof.
  intros (_ & _ & Hmeta) Hk. destruct (Hmeta key idxTree Hk) as (h & t & Hlm & _).
  by exists h, t.
Qed.

(** One push that returned no error: the list is one longer, the value is at
    the end it was pushed to, and the elements it had are in the same order. *)
Lemma pushInternal_elements n db key (idxTree : gmap string indexNode) val isLeft :
  Inv n db → n + 1 <= 2 ^ 31 - 2 → trees db !! key = Some idxTree →
  (pushInternal db key val isLeft).1 = None →
  LLen (pushInternal db key val isLeft).2 key = LLen db key + 1 ∧
  LIndex (pushInternal db key val isLeft).2 key (if isLeft then 0 else LLen db key) =
    (Some val, None) ∧
  (∀ i, 0 <= i < LLen db key →
        LIndex (pushInternal db key val isLeft).2 key (if isLeft then i + 1 else i) =
        LIndex db key i).
Proof.
  intros HI Hn Hk Herr.
  destruct (Inv_listMeta n db key idxTree HI Hk) as (h & t & Hlm).
  destruct (meta_bounds n db key idxTree h t HI ltac:(lia) Hk Hlm)
    as (Hh & Hht & Ht & _ & Htn).
  destruct (pushInternal_shape db key idxTree val isLeft h t Hk Hlm Herr)
    as (tree' & Hk' & Hlm' & Helem & Hsame).
  pose proof (pushInternal_changes db key val isLeft) as (Hm & Hl & _).
  pose proof HI as (_ & Hpv & _).
  set (db' := (pushInternal db key val isLeft).2) in *.
  rewrite (LLen_exact db key idxTree h t) by (done || lia).
  assert (Hother : ∀ s, 0 <= s < 2 ^ 32 → s ≠ (if isLeft then h else t) →
                        element db' key s = element db key s).
  { intros s Hs Hne. apply (element_unchanged db db' key idxTree tree'); [done..|].
    apply Hsame; [apply encodeListKey_ne|].
    intros E. apply encodeListKey_inj in E; [done|lia|]. destruct isLeft; lia. }
  destruct isLeft.
  - rewrite (uint32_small (h - 1)), (uint32_small (h - 1)), (uint32_small t) in Hlm' by lia.
    split_and!.
    + rewrite (LLen_exact db' key tree' (h - 1) t) by (done || lia). lia.
    + rewrite (LIndex_element db' key tree' (h - 1) t 0) by (done || lia).
      by replace (h - 1 + 1 + 0) with h by lia.
    + intros i Hi.
      rewrite (LIndex_element db' key tree' (h - 1) t (i + 1)) by (done || lia).
      rewrite (LIndex_element db key idxTree h t i) by (done || lia).
      replace (h - 1 + 1 + (i + 1)) with (h + 1 + i) by lia.
      apply Hother; lia.
  - rewrite (uint32_small (t + 1)), (uint32_small (t + 1)), (uint32_small h) in Hlm' by lia.
    split_and!.
    + rewrite (LLen_exact db' key tree' h (t + 1)) by (done || lia). lia.
    + rewrite (LIndex_element db' key tree' h (t + 1) (t - h - 1)) by (done || lia).
      by replace (h + 1 + (t - h - 1)) with t by lia.
    + intros i Hi.
      rewrite (LIndex_element db' key tree' h (t + 1) i) by (done || lia).
      rewrite (LIndex_element db key idxTree h t i) by (done || lia).
      apply Hother; lia.
Qed.

Lemma pushInternal_keeps_tree db key val isLeft :
  is_Some (trees db !! key) →
  is_Some (trees (pushInternal db key val isLeft).2 !! key).
Proof.
  intros [idxTree Hk]. unfold pushInternal. rewrite Hk.
  destruct (listMeta db idxTree key) as [[h t] [e|]]; [simpl; rewrite Hk; by eexists|].
  cbv zeta.
  destruct (writeLogEntry db _) as [[pos|e] db1] eqn:Hw;
    apply writeLogEntry_spec in Hw as (_ & Htr & _); simpl;
    [|rewrite Htr, Hk; by eexists].
  unfold saveListMeta.
  destruct (writeLogEntry (set_tree db1 key _) _) as [[pos2|e] db2] eqn:Hw2;
    apply writeLogEntry_spec in Hw2 as (_ & Htr2 & _); simpl.
  - rewrite lookup_insert_eq. by eexists.
  - rewrite Htr2. simpl. rewrite lookup_insert_eq. by eexists.
Qed.

Lemma pushAll_left_elements values : ∀ n db key,
  Inv n db → n + Z.of_nat (length values) <= 2 ^ 31 - 2 →
  is_Some (trees db !! key) →
  (pushAll db key values true).1 = None →
  LLen (pushAll db key values true).2 key = LLen db key + Z.of_nat (length values) ∧
  (∀ j v, rev values !! j = Some v →
          LIndex (pushAll db key values true).2 key (Z.of_nat j) = (Some v, None)) ∧
  (∀ i, 0 <= i < LLen db key →
        LIndex (pushAll db key values true).2 key (i + Z.of_nat (length values)) =
        LIndex db key i).
Proof.
  induction values as [|val rest IH]; intros n db key HI Hn [idxTree Hk] Herr.
  - simpl. split_and!; [lia| |].
    + intros j v Hj. by rewrite lookup_nil in Hj.
    + intros i Hi. by rewrite Z.add_0_r.
  - simpl in Herr |- *.
    pose proof (pushInternal_elements n db key idxTree val true HI ltac:(simpl in Hn; lia) Hk)
      as Hone.
    pose proof (pushInternal_Inv n db key val true HI) as HI1.
    pose proof (pushInternal_keeps_tree db key val true ltac:(by eexists)) as Hk1.
    destruct (pushInternal db key val true) as [[e|] db1]; [done|].
    simpl in *. destruct (Hone eq_refl) as (L1 & V1 & O1).
    destruct (IH (n + 1) db1 key HI1 ltac:(lia) Hk1 Herr) as (L2 & V2 & O2).
    assert (0 <= LLen db key).
    { unfold LLen. rewrite Hk. destruct (listMeta db idxTree key) as [[h t] [e|]]; [done|].
      pose proof (uint32_range (t - h - 1)). lia. }
    split_and!.
    + rewrite L2, L1. lia.
    + intros j v Hj. apply lookup_app_Some in Hj as [Hj|[Hlen Hj]].
      * by apply V2.
      * rewrite length_rev in Hlen, Hj.
        apply list_lookup_singleton_Some in Hj as [Hj ->].
        replace (Z.of_nat j) with (0 + Z.of_nat (length rest)) by lia.
        rewrite O2 by lia. done.
    + intros i Hi.
      replace (i + Z.of_nat (S (length rest)))
        with (i + 1 + Z.of_nat (length rest)) by lia.
      rewrite O2 by lia. by apply O1.
Qed.

Lemma pushAll_right_elements values : ∀ n db key,
  Inv n db → n + Z.of_nat (length values) <= 2 ^ 31 - 2 →
  is_Some (trees db !! key) →
  (pushAll db key values false).1 = None →
  LLen (pushAll db key values false).2 key = LLen db key + Z.of_nat (length values) ∧
  (∀ j v, values !! j = Some v →
          LIndex (pushAll db key values false).2 key (LLen db key + Z.of_nat j) =
          (Some v, None)) ∧
  (∀ i, 0 <= i < LLen db key →
        LIndex (pushAll db key values false).2 key i = LIndex db key i).
Proof.
  induction values as [|val rest IH]; intros n db key HI Hn [idxTree Hk] Herr.
  - simpl. split_and!; [lia| |done].
    intros j v Hj. by rewrite lookup_nil in Hj.
  - simpl in Herr |- *.
    pose proof (pushInternal_elements n db key idxTree val false HI ltac:(simpl in Hn; lia) Hk)
      as Hone.
    pose proof (pushInternal_Inv n db key val false HI) as HI1.
    pose proof (pushInternal_keeps_tree db key val false ltac:(by eexists)) as Hk1.
    destruct (pushInternal db key val false) as [[e|] db1]; [done|].
    simpl in *. destruct (Hone eq_refl) as (L1 & V1 & O1).
    destruct (IH (n + 1) db1 key HI1 ltac:(lia) Hk1 Herr) as (L2 & V2 & O2).
    assert (0 <= LLen db key).
    { unfold LLen. rewrite Hk. destruct (listMeta db idxTree key) as [[h t] [e|]]; [done|].
      pose proof (uint32_range (t - h - 1)). lia. }
    split_and!.
    + rewrite L2, L1. lia.
    + intros [|j] v Hj; simpl in Hj.
      * injection Hj as <-. rewrite O2 by lia. by rewrite Z.add_0_r.
      * specialize (V2 j v Hj). rewrite L1 in V2.
        by replace (LLen db key + Z.of_nat (S j))
          with (LLen db key + 1 + Z.of_nat j) by lia.
    + intros i Hi. rewrite O2 by lia. by apply O1.
Qed.

Lemma LLen_nonneg db key : 0 <= LLen db key.
Proof.
  unfold LLen. destruct (trees db !! key) as [idxTree|]; [|done].
  destruct (listMeta db idxTree key) as [[h t] [e|]]; [done|].
  pose proof (uint32_range (t - h - 1)). lia.
Qed.

Lemma ensure_tree_reads db key :
  LLen (ensure_tree db key) key = LLen db key ∧
  (∀ i, 0 <= i < LLen db key → LIndex (ensure_tree db key) key i = LIndex db key i).
Proof.
  unfold ensure_tree. destruct (trees db !! key) as [idxTree|] eqn:Hk; [done|].
  split.
  - unfold LLen, set_tree, set_trees. simpl. rewrite lookup_insert_eq, Hk.
    by rewrite listMeta_fresh by apply lookup_empty.
  - intros i. unfold LLen. rewrite Hk. lia.
Qed.

(** X2.  [LPush]: when it returns no error, the list has grown by the values, the
    last value given is first, and the former elements follow in their order.
    [LPushX], when it returns no error, has done the same as [LPush].
    (In a store opened empty and reached by list operations that made
    at most [n] pushes, with the pushes of the call within [2^31 - 2].) *)
Theorem LPush_elements (n : Z) (db : RoseDB) (key : bytes) (values : list bytes) :
  reachable n db → n + Z.of_nat (length values) <= 2 ^ 31 - 2 →
  (LPush db key values).1 = None →
  LLen (LPush db key values).2 key = LLen db key + Z.of_nat (length values) ∧
  (∀ j v, rev values !! j = Some v →
          LIndex (LPush db key values).2 key (Z.of_nat j) = (Some v, None)) ∧
  (∀ i, 0 <= i < LLen db key →
        LIndex (LPush db key values).2 key (i + Z.of_nat (length values)) =
        LIndex db key i) ∧
  ((LPushX db key values).1 = None → LPushX db key values = LPush db key values).
Proof.
  intros Hr Hn Herr. apply reachable_Inv in Hr as HI.
  destruct (ensure_tree_reads db key) as (E1 & E2).
  destruct (pushAll_left_elements values n (ensure_tree db key) key
              (ensure_tree_Inv n db key HI) Hn (ensure_tree_lookup db key) Herr)
    as (L & V & O).
  unfold LPush. rewrite <- E1. split_and!; [done..| |].
  - intros i Hi. rewrite O by lia. apply E2. lia.
  - unfold LPushX, ensure_tree. by destruct (trees db !! key).
Qed.

Lemma LPush_elements_witness :
  LLen (LPush (db_yxz KeyOnlyMemMode) "L" ["a"%string; "b"%string]).2 "L" =
    LLen (db_yxz KeyOnlyMemMode) "L" + 2 ∧
  LIndex (LPush (db_yxz KeyOnlyMemMode) "L" ["a"%string; "b"%string]).2 "L" 0 =
    (Some "b"%string, None).
Proof.
  pose proof (LPush_elements 3 (db_yxz KeyOnlyMemMode) "L" ["a"%string; "b"%string]
                (proj1 witness_lists_reachable) ltac:(simpl; lia)
                ltac:(vm_compute; reflexivity)) as (H1 & H2 & _).
  split; [exact H1|]. exact (H2 0%nat "b"%string eq_refl).
Defined.

(** X3.  [RPush]: when it returns no error, the list has grown by the values, they
    follow the former elements in the order given, and the former elements
    keep their indexes.  [RPushX], when it returns no error, has done the same
    as [RPush].
    (In a store opened empty and reached by list operations that made
    at most [n] pushes, with the pushes of the call within [2^31 - 2].) *)
Theorem RPush_elements (n : Z) (db : RoseDB) (key : bytes) (values : list bytes) :
  reachable n db → n + Z.of_nat (length values) <= 2 ^ 31 - 2 →
  (RPush db key values).1 = None →
  LLen (RPush db key values).2 key = LLen db key + Z.of_nat (length values) ∧
  (∀ j v, values !! j = Some v →
          LIndex (RPush db key values).2 key (LLen db key + Z.of_nat j) =
          (Some v, None)) ∧
  (∀ i, 0 <= i < LLen db key →
        LIndex (RPush db key values).2 key i = LIndex db key i) ∧
  ((RPushX db key values).1 = None → RPushX db key values = RPush db key values).
Proof.
  intros Hr Hn Herr. apply reachable_Inv in Hr as HI.
  destruct (ensure_tree_reads db key) as (E1 & E2).
  destruct (pushAll_right_elements values n (ensure_tree db key) key
              (ensure_tree_Inv n db key HI) Hn (ensure_tree_lookup db key) Herr)
    as (L & V & O).
  unfold RPush. rewrite <- E1. split_and!; [done..| |].
  - intros i Hi. rewrite O by lia. apply E2. lia.
  - unfold RPushX, ensure_tree. by destruct (trees db !! key).
Qed.

Lemma RPush_elements_witness :
  LLen (RPush (db_yxz KeyOnlyMemMode) "L" ["a"%string; "b"%string]).2 "L" =
    LLen (db_yxz KeyOnlyMemMode) "L" + 2 ∧
  LIndex (RPush (db_yxz KeyOnlyMemMode) "L" ["a"%string; "b"%string]).2 "L"
    (LLen (db_yxz KeyOnlyMemMode) "L" + 1) = (Some "b"%string, None).
Proof.
  pose proof (RPush_elements 3 (db_yxz KeyOnlyMemMode) "L" ["a"%string; "b"%string]
                (proj1 witness_lists_reachable) ltac:(simpl; lia)
                ltac:(vm_compute; reflexivity)) as (H1 & H2 & _).
  split; [exact H1|]. exact (H2 1%nat "b"%string eq_refl).
Defined.

(** The store after a pop that returned a value. *)
Lemma popInternal_shape db key (idxTree : gmap string indexNode) isLeft h t v db' :
  trees db !! key = Some idxTree → listMeta db idxTree key = (h, t, None) →
  popInternal db key isLeft = (Some v, None, db') →
  uint32 (t - h - 1) ≠ 0 ∧
  element db key (if isLeft then uint32 (h + 1) else uint32 (t - 1)) = (Some v, None) ∧
  ∃ idxTree',
    trees db' !! key = Some idxTree' ∧
    listMeta db' idxTree' key =
      (uint32 (if isLeft then uint32 (h + 1) else h),
       uint32 (if isLeft then t else uint32 (t - 1)), None) ∧
    (∀ ik, ik ≠ key →
           ik ≠ encodeListKey key (if isLeft then uint32 (h + 1) else uint32 (t - 1)) →
           idxTree' !! ik = idxTree !! ik).
Proof.
  intros Hk Hlm. unfold element, popInternal. rewrite Hk, Hlm. cbv zeta.
  pose proof (uint32_range (t - h - 1)).
  case_decide as Hsize; [by case_decide|].
  set (seq := if isLeft then uint32 (h + 1) else uint32 (t - 1)).
  destruct (getVal db idxTree (encodeListKey key seq)) as [val|e]; [|done].
  destruct (writeLogEntry db _) as [[pos|e] db1] eqn:Hw; [|done].
  apply writeLogEntry_spec in Hw as (Hm & Htr & _).
  set (tree1 := delete (encodeListKey key seq) idxTree).
  destruct (saveListMeta (set_tree db1 key tree1) key tree1 _ _) as [r db2] eqn:Hs.
  destruct r as [e|]; [done|]. intros [= -> ->].
  apply saveListMeta_spec in Hs as [_ [(? & _)|(_ & _ & Hok)]]; [done|].
  destruct Hok as (ment & tree' & _ & Htr2 & Htree' & Hread).
  split; [lia|]. split; [done|].
  exists tree'. rewrite Htr2, lookup_insert_eq.
  split; [done|]. split; [done|].
  intros ik Hne1 Hne2. rewrite Htree'. rewrite lookup_insert_ne by done.
  unfold tree1. by rewrite lookup_delete_ne.
Qed.

(** A pop says "nothing there" exactly on a list of length 0. *)
Lemma popInternal_nil n db key isLeft :
  Inv n db → ((popInternal db key isLeft).1 = (None, None) ↔ LLen db key = 0).
Proof.
  intros HI. unfold popInternal, LLen.
  destruct (trees db !! key) as [idxTree|] eqn:Hk; [|done].
  destruct (Inv_listMeta n db key idxTree HI Hk) as (h & t & Hlm). rewrite Hlm.
  cbv zeta. pose proof (uint32_range (t - h - 1)).
  case_decide as Hsize.
  - split; [lia|]. intros _. by case_decide.
  - split; [|lia].
    destruct (getVal db idxTree _) as [val|e]; [|done].
    destruct (writeLogEntry db _) as [[pos|e] db1]; [|done].
    by destruct (saveListMeta _ _ _ _ _) as [[e|] db2].
Qed.

(** One pop that returned a value: it is the element that was at that end, the
    list is one shorter and the other elements are in the same order. *)
Lemma popInternal_elements n db key isLeft v db' :
  Inv n db → n <= 2 ^ 31 - 2 →
  popInternal db key isLeft = (Some v, None, db') →
  LIndex db key (if isLeft then 0 else LLen db key - 1) = (Some v, None) ∧
  LLen db' key = LLen db key - 1 ∧
  (∀ i, 0 <= i < LLen db' key →
        LIndex db' key i = LIndex db key (if isLeft then i + 1 else i)).
Proof.
  intros HI Hn Hpop.
  destruct (trees db !! key) as [idxTree|] eqn:Hk;
    [|unfold popInternal in Hpop; by rewrite Hk in Hpop].
  destruct (Inv_listMeta n db key idxTree HI Hk) as (h & t & Hlm).
  destruct (meta_bounds n db key idxTree h t HI Hn Hk Hlm) as (Hh & Hht & Ht & _).
  destruct (popInternal_shape db key idxTree isLeft h t v db' Hk Hlm Hpop)
    as (Hsize & Helem & tree' & Hk' & Hlm' & Hsame).
  rewrite uint32_small in Hsize by lia.
  pose proof (popInternal_changes db key isLeft) as (Hm & Hl & _).
  rewrite Hpop in Hm, Hl. simpl in Hm, Hl.
  pose proof HI as (_ & Hpv & _).
  rewrite (LLen_exact db key idxTree h t) by (done || lia).
  assert (Hother : ∀ s, 0 <= s < 2 ^ 32 →
                        s ≠ (if isLeft then uint32 (h + 1) else uint32 (t - 1)) →
                        element db' key s = element db key s).
  { intros s Hs Hne. apply (element_unchanged db db' key idxTree tree'); [done..|].
    apply Hsame; [apply encodeListKey_ne|].
    intros E. apply encodeListKey_inj in E; [done|lia|].
    destruct isLeft; apply uint32_range. }
  destruct isLeft.
  - rewrite (uint32_small (h + 1)) in Helem, Hother by lia.
    rewrite (uint32_small (h + 1)), (uint32_small (h + 1)), (uint32_small t) in Hlm' by lia.
    rewrite (LLen_exact db' key tree' (h + 1) t) by (done || lia).
    split_and!.
    + rewrite (LIndex_element db key idxTree h t 0) by (done || lia).
      by replace (h + 1 + 0) with (h + 1) by lia.
    + lia.
    + intros i Hi.
      rewrite (LIndex_element db' key tree' (h + 1) t i) by (done || lia).
      rewrite (LIndex_element db key idxTree h t (i + 1)) by (done || lia).
      replace (h + 1 + (i + 1)) with (h + 1 + 1 + i) by lia.
      apply Hother; lia.
  - rewrite (uint32_small (t - 1)) in Helem, Hother by lia.
    rewrite (uint32_small (t - 1)), (uint32_small (t - 1)), (uint32_small h) in Hlm' by lia.
    rewrite (LLen_exact db' key tree' h (t - 1)) by (done || lia).
    split_and!.
    + rewrite (LIndex_element db key idxTree h t (t - h - 1 - 1)) by (done || lia).
      by replace (h + 1 + (t - h - 1 - 1)) with (t - 1) by lia.
    + lia.
    + intros i Hi.
      rewrite (LIndex_element db' key tree' h (t - 1) i) by (done || lia).
      rewrite (LIndex_element db key idxTree h t i) by (done || lia).
      apply Hother; lia.
Qed.

(** X4.  [LPop] and [RPop].  A pop returns nil without error exactly when the list
    is empty or absent.  When it returns a value, that value was the first
    ([LPop]) or the last ([RPop]) element, the list is one shorter, and the
    other elements keep their order.
    (In a store opened empty and reached by list operations that made
    at most [n] pushes, with the pushes of the call within [2^31 - 2].) *)
Theorem pop_elements (n : Z) (db : RoseDB) (key : bytes) :
  reachable n db → n <= 2 ^ 31 - 2 →
  ((LPop db key).1 = (None, None) ↔ LLen db key = 0) ∧
  ((RPop db key).1 = (None, None) ↔ LLen db key = 0) ∧
  (∀ v db', LPop db key = (Some v, None, db') →
     LIndex db key 0 = (Some v, None) ∧
     LLen db' key = LLen db key - 1 ∧
     (∀ i, 0 <= i < LLen db' key → LIndex db' key i = LIndex db key (i + 1))) ∧
  (∀ v db', RPop db key = (Some v, None, db') →
     LIndex db key (LLen db key - 1) = (Some v, None) ∧
     LIndex db key (-1) = (Some v, None) ∧
     LLen db' key = LLen db key - 1 ∧
     (∀ i, 0 <= i < LLen db' key → LIndex db' key i = LIndex db key i)).
Proof.
  intros Hr Hn. apply reachable_Inv in Hr as HI. unfold LPop, RPop.
  split; [by apply (popInternal_nil n)|].
  split; [by apply (popInternal_nil n)|].
  split.
  - intros v db' Hpop. by apply (popInternal_elements n db key true v db').
  - intros v db' Hpop.
    destruct (popInternal_elements n db key false v db' HI Hn Hpop) as (H1 & H2 & H3).
    split; [done|]. split; [|done].
    assert (0 < LLen db key) by (pose proof (LLen_nonneg db' key); lia).
    rewrite <- H1.
    replace (-1) with (LLen db key - 1 - LLen db key) by lia.
    symmetry. apply LIndex_from_tail. lia.
Qed.

Lemma pop_elements_witness :
  LIndex (db_yxz KeyOnlyMemMode) "L" 0 = (Some "y"%string, None) ∧
  LLen (LPop (db_yxz KeyOnlyMemMode) "L").2 "L" = LLen (db_yxz KeyOnlyMemMode) "L" - 1.
Proof.
  pose proof (pop_elements 3 (db_yxz KeyOnlyMemMode) "L"
                (proj1 witness_lists_reachable) ltac:(lia)) as (_ & _ & H & _).
  assert (E : (LPop (db_yxz KeyOnlyMemMode) "L").1 = (Some "y"%string, None))
    by (vm_compute; reflexivity).
  destruct (LPop (db_yxz KeyOnlyMemMode) "L") as [[v e] db'] eqn:Hpop.
  simpl in E. injection E as -> ->.
  destruct (H "y"%string db' eq_refl) as (H1 & H2 & _).
  split; [exact H1|exact H2].
Defined.

Lemma LSet_from_tail db key i val :
  0 <= i < LLen db key → LSet db key (i - LLen db key) val = LSet db key i val.
Proof.
  unfold LLen, LSet.
  destruct (trees db !! key) as [idxTree|]; [|done].
  destruct (listMeta db idxTree key) as [[h t] [e|]]; [done|].
  intros Hi. by rewrite listSequence_from_tail.
Qed.

(** X5.  [LSet] on an index inside the list fails only if the append fails; when it
    returns no error the element at that index is the value set, and the
    length and the other elements are as before.  The index [i - LLen] means
    the same element as [i].
    (In a store opened empty and reached by list operations that made
    at most [n] pushes, with the pushes of the call within [2^31 - 2].) *)
Theorem LSet_elements (n : Z) (db : RoseDB) (key : bytes) (i : Z) (val : bytes) :
  reachable n db → n <= 2 ^ 31 - 2 → 0 <= i < LLen db key →
  LSet db key (i - LLen db key) val = LSet db key i val ∧
  ((LSet db key i val).1 = None ↔ head (faults db) ≠ Some true) ∧
  ((LSet db key i val).1 = None →
   LLen (LSet db key i val).2 key = LLen db key ∧
   LIndex (LSet db key i val).2 key i = (Some val, None) ∧
   (∀ j, 0 <= j < LLen db key → j ≠ i →
         LIndex (LSet db key i val).2 key j = LIndex db key j)).
Proof.
  intros Hr Hn Hi. apply reachable_Inv in Hr as HI.
  split; [by apply LSet_from_tail|].
  destruct (trees db !! key) as [idxTree|] eqn:Hk;
    [|unfold LLen in Hi; rewrite Hk in Hi; lia].
  destruct (Inv_listMeta n db key idxTree HI Hk) as (h & t & Hlm).
  destruct (meta_bounds n db key idxTree h t HI Hn Hk Hlm) as (Hh & Hht & Ht & _).
  rewrite (LLen_exact db key idxTree h t) in * by (done || lia).
  pose proof (LSet_changes db key i val) as (Hm & Hl & _).
  pose proof HI as (_ & Hpv & _).
  pose proof (listSequence_head h t i ltac:(lia) ltac:(lia) ltac:(lia)) as Hs.
  revert Hm Hl. unfold LSet at 1 2 3 4 5 6 7. rewrite Hk, Hlm.
  destruct (listSequence h t i) as [seq err] eqn:Hq.
  unfold listSequence in Hq. injection Hq as _ <-. simpl in Hs. subst seq.
  rewrite decide_False by lia. cbv zeta.
  set (ent := mkEntry (encodeListKey key (h + i + 1)) val TypeNormal).
  destruct (writeLogEntry db ent) as [[pos|e] db1] eqn:Hw;
    apply writeLogEntry_spec in Hw as (Hm1 & Htr1 & Hcase); simpl.
  2:{ intros _ _. destruct Hcase as [(_ & _ & fs & Hfs)|(? & _)]; [|done].
      split; [|done]. split; [done|]. rewrite Hfs. simpl. by intros []. }
  destruct Hcase as [(? & _)|(Hpos & Hlog & Hf)]; [done|]. injection Hpos as ->.
  intros Hm Hl. split; [done|]. intros _.
  set (tree' := updateIndexTree db1 idxTree ent (length (logfile db))).
  set (db' := set_tree db1 key tree').
  assert (Hk' : trees db' !! key = Some tree').
  { unfold db', set_tree, set_trees. simpl. by rewrite lookup_insert_eq. }
  assert (Hsame : ∀ ik, ik ≠ encodeListKey key (h + i + 1) → tree' !! ik = idxTree !! ik).
  { intros ik Hne. unfold tree', updateIndexTree. simpl. by rewrite lookup_insert_ne. }
  assert (Hlm' : listMeta db' tree' key = (h, t, None)).
  { rewrite <- Hlm. unfold listMeta.
    assert (getVal db' tree' key = getVal db idxTree key) as ->; [|done].
    transitivity (getVal db' idxTree key).
    - unfold getVal. rewrite Hsame; [done|]. intros E. symmetry in E.
      by apply encodeListKey_ne in E.
    - apply getVal_extends; [done..|]. intros node Hnode. by eapply Hpv. }
  split_and!.
  - rewrite (LLen_exact db' key tree' h t) by (done || lia). done.
  - rewrite (LIndex_element db' key tree' h t i) by (done || lia).
    unfold element. rewrite Hk'. unfold getVal, tree', updateIndexTree. simpl.
    replace (h + 1 + i) with (h + i + 1) by lia.
    rewrite lookup_insert_eq. simpl. rewrite Hm1.
    destruct (decide (mode db = KeyValueMemMode)) as [Hmode|Hmode]; [done|].
    rewrite Hlog. by rewrite list_lookup_middle.
  - intros j Hj Hne.
    rewrite (LIndex_element db' key tree' h t j) by (done || lia).
    rewrite (LIndex_element db key idxTree h t j) by (done || lia).
    apply (element_unchanged db db' key idxTree tree'); [done..|].
    apply Hsame. intros E. apply encodeListKey_inj in E; lia.
Qed.

Lemma LSet_elements_witness :
  LIndex (LSet (db_yxz KeyOnlyMemMode) "L" 1 "w").2 "L" 1 = (Some "w"%string, None) ∧
  LIndex (LSet (db_yxz KeyOnlyMemMode) "L" 1 "w").2 "L" 2 =
    LIndex (db_yxz KeyOnlyMemMode) "L" 2.
Proof.
  pose proof (LSet_elements 3 (db_yxz KeyOnlyMemMode) "L" 1 "w"
                (proj1 witness_lists_reachable) ltac:(lia)
                ltac:(vm_compute; split; [discriminate|reflexivity])) as (_ & _ & H).
  destruct (H ltac:(vm_compute; reflexivity)) as (_ & H1 & H2).
  split; [exact H1|]. apply H2; [vm_compute; split; [discriminate|reflexivity]|lia].
Defined.

Lemma rangeLoop_spec db (idxTree : gmap string indexNode) key n : ∀ seq acc,
  0 <= seq → seq + Z.of_nat n <= 2 ^ 32 →
  match rangeLoop n db idxTree key seq acc with
  | (vs, None) =>
      ∃ ws, vs = acc ++ ws ∧ length ws = n ∧
        ∀ j w, ws !! j = Some w →
               getVal db idxTree (encodeListKey key (seq + Z.of_nat j)) = Ok w
  | (vs, Some err) =>
      ∃ j, (j < n)%nat ∧
        getVal db idxTree (encodeListKey key (seq + Z.of_nat j)) = Err err
  end.
Proof.
  induction n as [|n IH]; intros seq acc Hs Hb; simpl.
  - exists []. split_and!; [by rewrite app_nil_r|done|].
    intros j w Hj. by rewrite lookup_nil in Hj.
  - destruct (getVal db idxTree (encodeListKey key seq)) as [v|e] eqn:Hg.
    + destruct n as [|n'].
      * simpl. exists [v]. split_and!; [done..|].
        intros [|j] w Hj; simpl in Hj; [|by rewrite lookup_nil in Hj].
        injection Hj as <-. by rewrite Z.add_0_r.
      * rewrite (uint32_small (seq + 1)) by lia.
        specialize (IH (seq + 1) (acc ++ [v]) ltac:(lia) ltac:(lia)).
        destruct (rangeLoop (S n') db idxTree key (seq + 1) (acc ++ [v])) as [vs [err|]].
        -- destruct IH as (j & Hj & Hgj). exists (S j). split; [lia|].
           by replace (seq + Z.of_nat (S j)) with (seq + 1 + Z.of_nat j) by lia.
        -- destruct IH as (ws & -> & Hlen & Hall). exists (v :: ws).
           split_and!; [by rewrite <- app_assoc|simpl; lia|].
           intros [|j] w Hj; simpl in Hj.
           ++ injection Hj as <-. by rewrite Z.add_0_r.
           ++ replace (seq + Z.of_nat (S j)) with (seq + 1 + Z.of_nat j) by lia.
              by apply Hall.
    + exists 0%nat. split; [lia|]. by rewrite Z.add_0_r.
Qed.

Lemma LRange_from_tail db key s e :
  0 <= e < LLen db key →
  LRange db key s (e - LLen db key) = LRange db key s e ∧
  LRange db key (e - LLen db key) s = LRange db key e s.
Proof.
  unfold LLen, LRange.
  destruct (trees db !! key) as [idxTree|]; [|done].
  destruct (listMeta db idxTree key) as [[h t] [err|]]; [done|].
  intros He. by rewrite listSequence_from_tail.
Qed.

(** X6.  [LRange] between two indexes inside the list returns the values [LIndex]
    returns at those indexes, in order; it returns an error exactly when
    [LIndex] does at one of them.  A negative index [i - LLen] means the same
    as [i], for the start and for the end.
    (In a store opened empty and reached by list operations that made
    at most [n] pushes, with the pushes of the call within [2^31 - 2].) *)
Theorem LRange_elements (n : Z) (db : RoseDB) (key : bytes) (s e : Z) :
  reachable n db → n <= 2 ^ 31 - 2 → 0 <= s → s <= e → e < LLen db key →
  (∀ vs, LRange db key s e = (vs, None) →
     Z.of_nat (length vs) = e - s + 1 ∧
     ∀ j v, vs !! j = Some v → LIndex db key (s + Z.of_nat j) = (Some v, None)) ∧
  (∀ err, (LRange db key s e).2 = Some err →
     ∃ j, s <= j <= e ∧ LIndex db key j = (None, Some err)) ∧
  LRange db key s (e - LLen db key) = LRange db key s e ∧
  LRange db key (s - LLen db key) e = LRange db key s e.
Proof.
  intros Hr Hn Hs Hse He. apply reachable_Inv in Hr as HI.
  split; [|split; [|split;
    [exact (proj1 (LRange_from_tail db key s e ltac:(pose proof (LLen_nonneg db key); lia)))
    |exact (proj2 (LRange_from_tail db key e s ltac:(lia)))]]].
  all: destruct (trees db !! key) as [idxTree|] eqn:Hk;
    [|unfold LLen in He; rewrite Hk in He; lia].
  all: destruct (Inv_listMeta n db key idxTree HI Hk) as (h & t & Hlm).
  all: destruct (meta_bounds n db key idxTree h t HI Hn Hk Hlm) as (Hh & Hht & Ht & _).
  all: rewrite (LLen_exact db key idxTree h t) in He by (done || lia).
  all: pose proof (listSequence_head h t s ltac:(lia) ltac:(lia) ltac:(lia)) as Hss.
  all: pose proof (listSequence_head h t e ltac:(lia) ltac:(lia) ltac:(lia)) as Hes.
  all: unfold LRange; rewrite Hk, Hlm.
  all: destruct (listSequence h t s) as [s0 err0] eqn:Hq1.
  all: unfold listSequence in Hq1; injection Hq1 as _ <-; simpl in Hss; subst s0.
  all: destruct (listSequence h t e) as [e0 err1] eqn:Hq2.
  all: unfold listSequence in Hq2; injection Hq2 as _ <-; simpl in Hes; subst e0.
  all: cbv zeta.
  all: rewrite (decide_False (P := h + s + 1 <= h)) by lia.
  all: rewrite (decide_False (P := h + e + 1 >= t)) by lia.
  all: rewrite decide_False by lia.
  all: rewrite (uint32_small (h + e + 1 + 1)) by lia.
  all: pose proof (rangeLoop_spec db idxTree key
                     (Z.to_nat (h + e + 1 + 1 - (h + s + 1))) (h + s + 1) []
                     ltac:(lia) ltac:(lia)) as Hloop.
  all: destruct (rangeLoop _ db idxTree key (h + s + 1) []) as [vs0 [err|]].
  - intros vs [=].
  - intros vs [= <-]. destruct Hloop as (ws & -> & Hlen & Hall). simpl.
    split; [lia|]. intros j v Hj.
    assert (Z.of_nat j < e - s + 1) by (apply lookup_lt_Some in Hj; lia).
    rewrite (LIndex_element db key idxTree h t (s + Z.of_nat j)) by (done || lia).
    unfold element. rewrite Hk.
    replace (h + 1 + (s + Z.of_nat j)) with (h + s + 1 + Z.of_nat j) by lia.
    by rewrite (Hall j v Hj).
  - intros err' [= <-]. destruct Hloop as (j & Hj & Hg).
    exists (s + Z.of_nat j). split; [lia|].
    rewrite (LIndex_element db key idxTree h t (s + Z.of_nat j)) by (done || lia).
    unfold element. rewrite Hk.
    replace (h + 1 + (s + Z.of_nat j)) with (h + s + 1 + Z.of_nat j) by lia.
    by rewrite Hg.
  - intros err' [=].
Qed.

Lemma LRange_elements_witness :
  LRange (db_yxz KeyOnlyMemMode) "L" 0 (2 - LLen (db_yxz KeyOnlyMemMode) "L") =
  LRange (db_yxz KeyOnlyMemMode) "L" 0 2.
Proof.
  refine (proj1 (proj2 (proj2 (LRange_elements 3 (db_yxz KeyOnlyMemMode) "L" 0 2
                                 (proj1 witness_lists_reachable) _ _ _ _)))).
  - lia.
  - lia.
  - lia.
  - vm_compute. reflexivity.
Defined.

(** X7.  [LMove] returns nil without error exactly when the source is empty or
    absent.  When it returns a value, that value was at the chosen end of the
    source and is now at the chosen end of the destination; the source is one
    shorter and the destination one longer, or, when they are the same list,
    the length is as before (a rotation).
    (In a store opened empty and reached by list operations that made
    at most [n] pushes, with the pushes of the call within [2^31 - 2].) *)
Theorem LMove_elements (n : Z) (db : RoseDB) (src dst : bytes) (sl dl : bool) :
  reachable n db → n + 1 <= 2 ^ 31 - 2 →
  ((LMove db src dst sl dl).1 = (None, None) ↔ LLen db src = 0) ∧
  (∀ v db', LMove db src dst sl dl = (Some v, None, db') →
     LIndex db src (if sl then 0 else LLen db src - 1) = (Some v, None) ∧
     LIndex db' dst (if dl then 0 else LLen db' dst - 1) = (Some v, None) ∧
     (src ≠ dst → LLen db' src = LLen db src - 1 ∧ LLen db' dst = LLen db dst + 1) ∧
     (src = dst → LLen db' dst = LLen db dst)).
Proof.
  intros Hr Hn. apply reachable_Inv in Hr as HI.
  pose proof (popInternal_nil n db src sl HI) as Hnil.
  pose proof (popInternal_Inv n db src sl HI) as HI1.
  pose proof (popInternal_changes db src sl) as Hch1.
  pose proof (popInternal_elements n db src sl) as Hpop.
  unfold LMove.
  destruct (popInternal db src sl) as [[[pv|] [pe|]] db1]; simpl in *.
  - split; [split; [done|intros E; by apply Hnil in E]|done].
  - specialize (Hpop pv db1 HI ltac:(lia) eq_refl) as (P1 & P2 & P3).
    pose proof (ensure_tree_Inv n db1 dst HI1) as HI0.
    destruct (ensure_tree_lookup db1 dst) as [tree0 Hk0].
    pose proof (ensure_tree_reads db1 dst) as (E1 & _).
    pose proof (ensure_tree_changes db1 dst) as Hch0.
    pose proof (pushInternal_elements n (ensure_tree db1 dst) dst tree0 pv dl HI0 Hn Hk0)
      as Hpush.
    pose proof (pushInternal_changes (ensure_tree db1 dst) dst pv dl) as Hch2.
    destruct (pushInternal (ensure_tree db1 dst) dst pv dl) as [[e|] db2]; simpl in *.
    + split; [split; [done|intros E; by apply Hnil in E]|done].
    + split; [split; [done|intros E; by apply Hnil in E]|].
      intros v db' [= <- <-]. destruct (Hpush eq_refl) as (Q1 & Q2 & _).
      split; [done|]. split.
      { destruct dl; [done|]. by replace (LLen db2 dst - 1) with (LLen (ensure_tree db1 dst) dst) by lia. }
      split.
      * intros Hne.
        assert (Hs : src ∉ [dst]) by (intros ->%list_elem_of_singleton; done).
        assert (Hd : dst ∉ [src]) by (intros ->%list_elem_of_singleton; done).
        destruct (reads_unchanged [dst] (ensure_tree db1 dst) db2 src
                    (proj1 (proj2 HI0)) Hch2 Hs) as (F1 & _).
        destruct (reads_unchanged [dst] db1 (ensure_tree db1 dst) src
                    (proj1 (proj2 HI1)) Hch0 Hs) as (F2 & _).
        destruct (reads_unchanged [src] db db1 dst
                    (proj1 (proj2 HI)) Hch1 Hd) as (F3 & _).
        split; [by rewrite F1, F2|]. by rewrite Q1, E1, F3.
      * intros <-. rewrite Q1, E1, P2. lia.
  - split; [split; [done|intros E; by apply Hnil in E]|done].
  - split; [|done]. split; [intros _; by apply Hnil|done].
Qed.

Lemma LMove_elements_witness :
  LIndex db_two_lists "L" 0 = (Some "y"%string, None) ∧
  LLen (LMove db_two_lists "L" "M" true false).2 "M" = LLen db_two_lists "M" + 1.
Proof.
  pose proof (LMove_elements 5 db_two_lists "L" "M" true false
                (proj2 witness_lists_reachable) ltac:(lia)) as (_ & H).
  assert (E : (LMove db_two_lists "L" "M" true false).1 = (Some "y"%string, None))
    by (vm_compute; reflexivity).
  destruct (LMove db_two_lists "L" "M" true false) as [[v e] db'] eqn:Hm.
  simpl in E. injection E as -> ->.
  destruct (H "y"%string db' eq_refl) as (H1 & _ & H3 & _).
  split; [exact H1|]. apply H3. discriminate.
Defined.

(** A push followed by a pop at the same end, neither returning an error:
    the pop returns the value pushed, and the length and every element of the
    list are as before the push. *)
Lemma push_pop_same_end n db key val isLeft :
  Inv n db → n + 1 <= 2 ^ 31 - 2 → is_Some (trees db !! key) →
  (pushInternal db key val isLeft).1 = None →
  (popInternal (pushInternal db key val isLeft).2 key isLeft).1.2 = None →
  (popInternal (pushInternal db key val isLeft).2 key isLeft).1.1 = Some val ∧
  LLen (popInternal (pushInternal db key val isLeft).2 key isLeft).2 key = LLen db key ∧
  (∀ i, 0 <= i < LLen db key →
        LIndex (popInternal (pushInternal db key val isLeft).2 key isLeft).2 key i =
        LIndex db key i).
Proof.
  intros HI Hn [idxTree Hk] Hpush Hpop.
  destruct (pushInternal_elements n db key idxTree val isLeft HI Hn Hk Hpush)
    as (L1 & V1 & O1).
  pose proof (pushInternal_Inv n db key val isLeft HI) as HI1.
  set (db1 := (pushInternal db key val isLeft).2) in *.
  pose proof (popInternal_nil (n + 1) db1 key isLeft HI1) as Hnil.
  pose proof (popInternal_elements (n + 1) db1 key isLeft) as Hel.
  pose proof (LLen_nonneg db key).
  destruct (popInternal db1 key isLeft) as [[[v|] e] db2]; simpl in *; subst e.
  - destruct (Hel v db2 HI1 ltac:(lia) eq_refl) as (P1 & P2 & P3).
    assert (v = val) as ->.
    { destruct isLeft.
      - rewrite V1 in P1. by injection P1.
      - replace (LLen db1 key - 1) with (LLen db key) in P1 by lia.
        rewrite V1 in P1. by injection P1. }
    split; [done|]. split; [lia|]. intros i Hi.
    rewrite P3 by lia. by apply O1.
  - assert (LLen db1 key = 0) by (by apply Hnil). lia.
Qed.

(** X8.  [LPush] then [LPop], and [RPush] then [RPop], of one value, none
    returning an error: the pop returns the value pushed and leaves the
    length and every element of the list as before the push.
    (In a store opened empty and reached by list operations that made
    at most [n] pushes, with the pushes of the call within [2^31 - 2].) *)
Theorem push_then_pop (n : Z) (db : RoseDB) (key val : bytes) :
  reachable n db → n + 1 <= 2 ^ 31 - 2 →
  ((LPush db key [val]).1 = None → (LPop (LPush db key [val]).2 key).1.2 = None →
   (LPop (LPush db key [val]).2 key).1.1 = Some val ∧
   LLen (LPop (LPush db key [val]).2 key).2 key = LLen db key ∧
   (∀ i, 0 <= i < LLen db key →
         LIndex (LPop (LPush db key [val]).2 key).2 key i = LIndex db key i)) ∧
  ((RPush db key [val]).1 = None → (RPop (RPush db key [val]).2 key).1.2 = None →
   (RPop (RPush db key [val]).2 key).1.1 = Some val ∧
   LLen (RPop (RPush db key [val]).2 key).2 key = LLen db key ∧
   (∀ i, 0 <= i < LLen db key →
         LIndex (RPop (RPush db key [val]).2 key).2 key i = LIndex db key i)).
Proof.
  intros Hr Hn. apply reachable_Inv in Hr as HI.
  pose proof (ensure_tree_Inv n db key HI) as HI0.
  pose proof (ensure_tree_lookup db key) as Hk0.
  destruct (ensure_tree_reads db key) as (E1 & E2).
  assert (Hone : ∀ isLeft, pushAll (ensure_tree db key) key [val] isLeft =
                           pushInternal (ensure_tree db key) key val isLeft).
  { intros isLeft. simpl. by destruct (pushInternal _ _ _ _) as [[e|] d]. }
  unfold LPush, RPush, LPop, RPop. rewrite !Hone.
  split; intros Hpush Hpop.
  - destruct (push_pop_same_end n (ensure_tree db key) key val true
                HI0 Hn Hk0 Hpush Hpop) as (R1 & R2 & R3).
    split; [done|]. split; [by rewrite R2|]. intros i Hi.
    rewrite R3 by lia. by apply E2.
  - destruct (push_pop_same_end n (ensure_tree db key) key val false
                HI0 Hn Hk0 Hpush Hpop) as (R1 & R2 & R3).
    split; [done|]. split; [by rewrite R2|]. intros i Hi.
    rewrite R3 by lia. by apply E2.
Qed.

Lemma push_then_pop_witness :
  (LPop (LPush (db_yxz KeyOnlyMemMode) "L" ["w"%string]).2 "L").1.1 = Some "w"%string ∧
  LLen (LPop (LPush (db_yxz KeyOnlyMemMode) "L" ["w"%string]).2 "L").2 "L" =
    LLen (db_yxz KeyOnlyMemMode) "L".
Proof.
  pose proof (push_then_pop 3 (db_yxz KeyOnlyMemMode) "L" "w"
                (proj1 witness_lists_reachable) ltac:(lia)) as (H & _).
  destruct (H ltac:(vm_compute; reflexivity) ltac:(vm_compute; reflexivity))
    as (H1 & H2 & _).
  split; [exact H1|exact H2].
Defined.

End ListElements.

(** ** The B-tree index: size and round trips *)

Section BTreeSize.
Import Index.

Lemma ReplaceOrInsert_length t it :
  length (ReplaceOrInsert t it).1 =
  (length t + (if BTree_Get t it is Some _ then 0 else 1))%nat.
Proof.
  induction t as [|x t IH]; simpl; [done|].
  destruct (Less it x); simpl; [lia|].
  destruct (Less x it); simpl; [|lia].
  destruct (ReplaceOrInsert t it) as [t'' old]. simpl in *. lia.
Qed.

Lemma BTree_Delete_length t it :
  length t =
  (length (BTree_Delete t it).1 + (if BTree_Get t it is Some _ then 1 else 0))%nat.
Proof.
  induction t as [|x t IH]; simpl; [done|].
  destruct (Less it x); simpl; [lia|].
  destruct (Less x it); simpl; [|lia].
  destruct (BTree_Delete t it) as [t'' old]. simpl in *. lia.
Qed.

Lemma stored_Get mt k :
  ascending (tree mt) →
  (stored mt k ↔ is_Some (BTree_Get (tree mt) (mkItem k None))).
Proof.
  intros Hs. unfold stored.
  pose proof (BTree_Get_None (tree mt) (mkItem k None) Hs) as Hn. simpl in Hn.
  destruct (BTree_Get (tree mt) (mkItem k None)) as [x|].
  - split; [by eexists|]. intros _.
    destruct (decide (k ∈ map key (tree mt))) as [|Hno]; [done|].
    by apply Hn in Hno.
  - split; [|by intros [? ?]]. intros Hin. by apply (proj1 Hn) in Hin.
Qed.

Lemma Put_ascending mt k p : ascending (tree mt) → ascending (tree (Put mt k p).1).
Proof.
  intros Hs. rewrite (proj1 (Put_tree mt k p)). by apply ReplaceOrInsert_spec.
Qed.

Lemma Delete_ascending mt k : ascending (tree mt) → ascending (tree (Delete mt k).1.1).
Proof.
  intros Hs. rewrite (proj1 (Delete_tree mt k)). by apply BTree_Delete_spec.
Qed.

Lemma three_keys_reachable : reachable three_keys.
Proof. unfold three_keys. repeat apply reach_put. apply reach_new. Qed.

(** X9.  [Size] counts the stored keys.  On an index built from [newBTree] by
    [Put] and [Delete]: the size is the number of entries [Ascend] visits; it
    is 0 exactly when no key is stored; [Put] adds one for a key that was not
    stored and leaves the size alone for a stored key; [Delete] takes one off
    for a stored key and leaves the size alone otherwise. *)
Theorem Size_counts_stored_keys (mt : MemoryBTree) :
  reachable mt →
  Size newBTree = 0 ∧
  Size mt = Z.of_nat (length (Ascend mt (record_visit (λ _ _, true)) [])) ∧
  (Size mt = 0 ↔ ∀ k, ¬ stored mt k) ∧
  (∀ k p, (stored mt k → Size (Put mt k p).1 = Size mt) ∧
          (¬ stored mt k → Size (Put mt k p).1 = Size mt + 1)) ∧
  (∀ k, (stored mt k → Size (Delete mt k).1.1 = Size mt - 1) ∧
        (¬ stored mt k → Size (Delete mt k).1.1 = Size mt)).
Proof.
  intros Hr. pose proof (reachable_ascending mt Hr) as Hs.
  split; [done|]. split.
  { unfold Ascend, Size. rewrite BTree_Ascend_record, until_stop_all.
    simpl. by rewrite length_map. }
  split.
  { unfold Size, stored. destruct (tree mt) as [|x t]; simpl.
    - split; [|done]. intros _ k Hin. by apply elem_of_nil in Hin.
    - split; [lia|]. intros Hno. destruct (Hno (key x)). by left. }
  split.
  - intros k p. unfold Size. rewrite (proj1 (Put_tree mt k p)), ReplaceOrInsert_length.
    rewrite (BTree_Get_key (tree mt) (mkItem k p) (mkItem k None)) by done.
    pose proof (stored_Get mt k Hs) as Hst.
    destruct (BTree_Get (tree mt) (mkItem k None)) as [x|].
    + split; [intros _; lia|]. intros Hno. destruct Hno. apply Hst. by eexists.
    + split; [|intros _; lia]. intros Hin. by apply Hst in Hin as [? ?].
  - intros k. unfold Size. rewrite (proj1 (Delete_tree mt k)).
    pose proof (BTree_Delete_length (tree mt) (mkItem k None)) as Hl.
    pose proof (stored_Get mt k Hs) as Hst.
    destruct (BTree_Get (tree mt) (mkItem k None)) as [x|].
    + split; [intros _; lia|]. intros Hno. destruct Hno. apply Hst. by eexists.
    + split; [|intros _; lia]. intros Hin. by apply Hst in Hin as [? ?].
Qed.

Lemma Size_counts_stored_keys_witness :
  Size three_keys = 3 ∧ Size (Delete three_keys "b").1.1 = Size three_keys - 1.
Proof.
  pose proof (Size_counts_stored_keys three_keys three_keys_reachable)
    as (_ & H2 & _ & _ & H5).
  split; [exact H2|]. apply (proj1 (H5 "b"%string)).
  unfold stored. vm_compute. apply list_elem_of_In. simpl. tauto.
Defined.

(** X10.  Round trips on an index built from [newBTree] by [Put] and [Delete]:
    [Delete] after [Put] of a key that was not stored gives back the index as
    it was, and returns the position put; [Delete] of a key that is not stored
    changes nothing; of two [Put]s on one key the second wins and returns what
    the first stored; a [Put] after a [Delete] of the same key gives the index
    the [Put] alone gives; a second [Delete] finds nothing. *)
Theorem index_round_trips (mt : MemoryBTree) :
  reachable mt →
  (∀ k p, ¬ stored mt k → Delete (Put mt k p).1 k = (mt, p, true)) ∧
  (∀ k, ¬ stored mt k → Delete mt k = (mt, None, false)) ∧
  (∀ k p q, Put (Put mt k p).1 k q = ((Put mt k q).1, p)) ∧
  (∀ k p, Put (Delete mt k).1.1 k p = ((Put mt k p).1, None)) ∧
  (∀ k, Delete (Delete mt k).1.1 k = ((Delete mt k).1.1, None, false)).
Proof.
  intros Hr. pose proof (reachable_ascending mt Hr) as Hs.
  assert (Hdel : ∀ m k, ascending (tree m) → ¬ stored m k →
                        Delete m k = (m, None, false)).
  { intros m k Hm Hno.
    destruct (Delete_spec m k Hm) as (D1 & D2 & D3 & D4 & D5).
    assert ((Delete m k).1.1 = m) as E1.
    { apply index_ext; [by apply Delete_ascending|done| |].
      - intros k'. destruct (decide (k' = k)) as [->|Hne]; [tauto|].
        by apply D5.
      - intros k'. destruct (decide (k' = k)) as [->|Hne].
        + rewrite D4. symmetry. by apply Get_not_stored.
        + by apply D5. }
    assert ((Delete m k).1.2 = None) as E2.
    { rewrite D1. by apply Get_not_stored. }
    assert ((Delete m k).2 = false) as E3.
    { destruct ((Delete m k).2); [|done]. destruct Hno. by apply D2. }
    destruct (Delete m k) as [[m' o] b]. simpl in *. congruence. }
  split.
  { intros k p Hno.
    pose proof (Put_ascending mt k p Hs) as Hs1.
    destruct (Put_spec mt k p Hs) as (P1 & P2 & P3 & P4).
    destruct (Delete_spec (Put mt k p).1 k Hs1) as (D1 & D2 & D3 & D4 & D5).
    assert ((Delete (Put mt k p).1 k).1.1 = mt) as E1.
    { apply index_ext; [by apply Delete_ascending|done| |].
      - intros k'. destruct (decide (k' = k)) as [->|Hne]; [tauto|].
        rewrite (proj2 (D5 k' Hne)), P4. tauto.
      - intros k'. destruct (decide (k' = k)) as [->|Hne].
        + rewrite D4. symmetry. by apply Get_not_stored.
        + rewrite (proj1 (D5 k' Hne)). by apply P3. }
    assert ((Delete (Put mt k p).1 k).1.2 = p) as E2 by (by rewrite D1).
    assert ((Delete (Put mt k p).1 k).2 = true) as E3.
    { apply D2, P4. by left. }
    destruct (Delete (Put mt k p).1 k) as [[m' o] b]. simpl in *. congruence. }
  split; [intros k Hno; by apply Hdel|].
  split.
  { intros k p q.
    pose proof (Put_ascending mt k p Hs) as Hs1.
    destruct (Put_spec mt k p Hs) as (P1 & P2 & P3 & P4).
    destruct (Put_spec mt k q Hs) as (Q1 & Q2 & Q3 & Q4).
    destruct (Put_spec (Put mt k p).1 k q Hs1) as (R1 & R2 & R3 & R4).
    assert ((Put (Put mt k p).1 k q).1 = (Put mt k q).1) as E1.
    { apply index_ext; [by apply Put_ascending..| |].
      - intros k'. rewrite R4, P4, Q4. tauto.
      - intros k'. destruct (decide (k' = k)) as [->|Hne].
        + by rewrite R2, Q2.
        + by rewrite R3, P3, Q3. }
    assert ((Put (Put mt k p).1 k q).2 = p) as E2 by (by rewrite R1).
    destruct (Put (Put mt k p).1 k q) as [m' o]. simpl in *. congruence. }
  split.
  { intros k p.
    pose proof (Delete_ascending mt k Hs) as Hs1.
    destruct (Delete_spec mt k Hs) as (D1 & D2 & D3 & D4 & D5).
    destruct (Put_spec mt k p Hs) as (Q1 & Q2 & Q3 & Q4).
    destruct (Put_spec (Delete mt k).1.1 k p Hs1) as (R1 & R2 & R3 & R4).
    assert ((Put (Delete mt k).1.1 k p).1 = (Put mt k p).1) as E1.
    { apply index_ext; [by apply Put_ascending..| |].
      - intros k'. rewrite R4, Q4. destruct (decide (k' = k)) as [->|Hne]; [tauto|].
        rewrite (proj2 (D5 k' Hne)). tauto.
      - intros k'. destruct (decide (k' = k)) as [->|Hne].
        + by rewrite R2, Q2.
        + rewrite R3, Q3 by done. by apply D5. }
    assert ((Put (Delete mt k).1.1 k p).2 = None) as E2 by (by rewrite R1).
    destruct (Put (Delete mt k).1.1 k p) as [m' o]. simpl in *. congruence. }
  intros k. apply Hdel; [by apply Delete_ascending|]. by apply Delete_spec.
Qed.

Lemma index_round_trips_witness :
  Delete (Put three_keys "d" (Some (mkPos 2 0 5))).1 "d" =
    (three_keys, Some (mkPos 2 0 5), true).
Proof.
  pose proof (index_round_trips three_keys three_keys_reachable) as (H & _).
  apply H. unfold stored. vm_compute. intros Hin.
  apply list_elem_of_In in Hin. simpl in Hin. intuition discriminate.
Defined.

End BTreeSize.

(** ** Hashes: deleting fields, and values kept in memory *)

Section HashFields.
Import HashDB.
Variable checkKeyValue : bytes → list bytes → option error.
Variable Size : Entry → Z.

Lemma Hash_HDel_spec h key f :
  let r := Hash_HDel h key f in
  (r.1 = 1 ↔ is_Some (Hash_HGet h key f)) ∧
  (r.1 ≠ 1 → r.2 = h) ∧
  (r.1 = 1 → Hash_HGet r.2 key f = None) ∧
  (∀ k' f', k' ≠ key ∨ f' ≠ f → Hash_HGet r.2 k' f' = Hash_HGet h k' f').
Proof.
  unfold Hash_HDel, Hash_HGet. simpl.
  destruct (h !! key) as [fields|] eqn:Hk; simpl.
  - destruct (fields !! f) as [i|] eqn:Hf; simpl.
    + split; [split; [by eexists|done]|]. split; [done|]. split.
      * intros _. rewrite lookup_insert_eq. simpl. by rewrite lookup_delete_eq.
      * intros k' f' Hne. destruct (decide (k' = key)) as [->|Hk'].
        -- rewrite lookup_insert_eq, Hk. simpl. destruct Hne as [|Hne]; [done|].
           by rewrite lookup_delete_ne.
        -- by rewrite lookup_insert_ne.
    + split; [split; [done|by intros [? ?]]|]. done.
  - split; [split; [done|by intros [? ?]]|]. done.
Qed.

Lemma store_written db e :
  let r := store Size db e in
  (r.1 = None → ∃ o, written r.2 = written db ++ [(o, e)]) ∧
  (r.1 ≠ None → written r.2 = written db).
Proof.
  unfold store. destruct (activeFile db) as [af|]; simpl; [|done].
  destruct (faults db) as [|[] fs]; simpl; split; try done; intros _; by eexists.
Qed.

Lemma stored_fields_cons_stored db db2 key f rest :
  is_Some (Hash_HGet (indexes db) key f) →
  (∀ f', Hash_HGet (indexes db2) key f' =
         if decide (f' = f) then None else Hash_HGet (indexes db) key f') →
  HashView.stored_fields db key (f :: rest) = f :: HashView.stored_fields db2 key rest.
Proof.
  intros Hst Hidx. unfold HashView.stored_fields. simpl.
  rewrite filter_cons_True by done. f_equal.
  rewrite list_filter_filter. apply list_filter_iff. intros f'. rewrite Hidx.
  destruct (decide (f' = f)) as [->|Hne].
  - split; [tauto|]. by intros [? ?].
  - tauto.
Qed.

Lemma stored_fields_cons_not_stored db key f rest :
  ¬ is_Some (Hash_HGet (indexes db) key f) →
  HashView.stored_fields db key (f :: rest) = HashView.stored_fields db key rest.
Proof.
  intros Hno. unfold HashView.stored_fields. simpl.
  rewrite filter_cons_False by done.
  rewrite list_filter_filter. apply list_filter_iff. intros f'.
  split; [tauto|]. intros Hs. split; [done|]. by intros ->.
Qed.

(** The loop of [HDel]: it removes and appends the stored fields of the call
    in the order of the call, each once, up to the first append that
    fails. *)
Lemma HDel_loop_spec key field : ∀ db res,
  let r := HDel_loop Size db key field res in
  (r.1.2 = None →
   r.1.1 = res + Z.of_nat (length (HashView.stored_fields db key field)) ∧
   map snd (written r.2) =
     map snd (written db) ++
     map (λ f, NewEntry key EmptyString f HashHDel) (HashView.stored_fields db key field) ∧
   (∀ k' f', Hash_HGet (indexes r.2) k' f' =
             if decide (k' = key ∧ f' ∈ field) then None
             else Hash_HGet (indexes db) k' f')) ∧
  (r.1.2 ≠ None →
   ∃ fs f rest,
     HashView.stored_fields db key field = fs ++ f :: rest ∧
     r.1.1 = res + Z.of_nat (length fs) ∧
     map snd (written r.2) =
       map snd (written db) ++ map (λ f, NewEntry key EmptyString f HashHDel) fs ∧
     (∀ k' f', Hash_HGet (indexes r.2) k' f' =
               if decide (k' = key ∧ f' ∈ fs ++ [f]) then None
               else Hash_HGet (indexes db) k' f')).
Proof.
  induction field as [|f rest IH]; intros db res.
  - simpl. split; [|done]. intros _. split; [lia|]. split; [by rewrite app_nil_r|].
    intros k' f'. rewrite decide_False; [done|]. intros [_ Hf]. by apply elem_of_nil in Hf.
  - simpl.
    pose proof (Hash_HDel_spec (indexes db) key f) as (Hok & Hsame & Hgone & Hoth).
    destruct (Hash_HDel (indexes db) key f) as [ok h] eqn:Hd. simpl in *.
    case_decide as Hone.
    + assert (Hst : is_Some (Hash_HGet (indexes db) key f)) by (by apply Hok).
      assert (Hh : ∀ k' f', Hash_HGet h k' f' =
                 if decide (k' = key ∧ f' = f) then None else Hash_HGet (indexes db) k' f').
      { intros k' f'. case_decide as Hc.
        - destruct Hc as [-> ->]. by apply Hgone.
        - apply Hoth. destruct (decide (k' = key)); [|by left].
          right. intros ->. by apply Hc. }
      pose proof (store_indexes Size (set_indexes db h)
                    (NewEntry key EmptyString f HashHDel)) as Hidx.
      pose proof (store_written (set_indexes db h)
                    (NewEntry key EmptyString f HashHDel)) as [Hw1 Hw2].
      destruct (store Size (set_indexes db h) (NewEntry key EmptyString f HashHDel))
        as [[err|] db2] eqn:Hstore; simpl in *.
      * rewrite (stored_fields_cons_stored db db2 key f rest Hst).
        2:{ intros f'. rewrite Hidx, Hh. destruct (decide (f' = f)) as [->|Hne].
            - by rewrite decide_True.
            - rewrite decide_False; [done|]. by intros [_ ?]. }
        split; [done|]. intros _.
        exists [], f, (HashView.stored_fields db2 key rest). simpl.
        split; [done|]. split; [lia|]. split; [by rewrite Hw2, app_nil_r|].
        intros k' f'. rewrite Hidx, Hh.
        destruct (decide (k' = key ∧ f' = f)) as [[-> ->]|Hc].
        -- rewrite decide_True; [done|]. split; [done|]. by left.
        -- rewrite decide_False; [done|]. intros [-> Hf].
           apply list_elem_of_singleton in Hf. by apply Hc.
      * destruct (Hw1 eq_refl) as [o Hw].
        rewrite (stored_fields_cons_stored db db2 key f rest Hst).
        2:{ intros f'. rewrite Hidx, Hh. destruct (decide (f' = f)) as [->|Hne].
            - by rewrite decide_True.
            - rewrite decide_False; [done|]. by intros [_ ?]. }
        destruct (IH db2 (res + 1)) as [IHok IHerr].
        assert (Hcomb : ∀ (l : list bytes) k' f',
                  (if decide (k' = key ∧ f' ∈ l) then None
                   else Hash_HGet (indexes db2) k' f') =
                  (if decide (k' = key ∧ f' ∈ f :: l) then None
                   else Hash_HGet (indexes db) k' f')).
        { intros l k' f'. rewrite Hidx, Hh.
          destruct (decide (k' = key ∧ f' ∈ l)) as [[-> Hin]|Hc].
          - rewrite decide_True; [done|]. split; [done|]. by right.
          - destruct (decide (k' = key ∧ f' = f)) as [[-> ->]|Hc2].
            + rewrite decide_True; [done|]. split; [done|]. by left.
            + rewrite decide_False; [done|]. intros [-> [->|Hin]%elem_of_cons].
              * by apply Hc2.
              * by apply Hc. }
        split.
        -- intros Hnone. destruct (IHok Hnone) as (R1 & R2 & R3).
           split; [rewrite R1; simpl; lia|].
           split.
           { rewrite R2, Hw, map_app. simpl. by rewrite <- app_assoc. }
           intros k' f'. rewrite R3. apply Hcomb.
        -- intros Herr. destruct (IHerr Herr) as (fs & f0 & rest0 & E & R1 & R2 & R3).
           exists (f :: fs), f0, rest0. simpl.
           split; [by rewrite E|]. split; [rewrite R1; lia|].
           split.
           { rewrite R2, Hw, map_app. simpl. by rewrite <- app_assoc. }
           intros k' f'. rewrite R3. apply (Hcomb (fs ++ [f0])).
    + assert (h = indexes db) as -> by (by apply Hsame).
      assert (set_indexes db (indexes db) = db) as -> by (by destruct db).
      assert (Hnst : ¬ is_Some (Hash_HGet (indexes db) key f)).
      { intros Hs'. by apply Hok in Hs'. }
      rewrite (stored_fields_cons_not_stored db key f rest Hnst).
      destruct (IH db res) as [IHok IHerr].
      split.
      * intros Hnone. destruct (IHok Hnone) as (R1 & R2 & R3).
        split; [done|]. split; [done|]. intros k' f'. rewrite R3.
        destruct (decide (k' = key ∧ f' ∈ rest)) as [[-> Hin]|Hc].
        -- rewrite decide_True; [done|]. split; [done|]. by right.
        -- destruct (decide (k' = key ∧ f' ∈ f :: rest)) as [[-> Hin]|Hc2]; [|done].
           apply elem_of_cons in Hin as [->|Hin].
           ++ destruct (Hash_HGet (indexes db) key f) eqn:E; [|done].
              destruct Hnst. by eexists.
           ++ destruct Hc. by split.
      * intros Herr. destruct (IHerr Herr) as (fs & f0 & rest0 & E & R1 & R2 & R3).
        by exists fs, f0, rest0.
Qed.

(** X11.  [HDel] on a valid key removes the stored fields among those named,
    in the order of the call and each once (a field named twice counts at its
    first place).  Without error, the result is their number, one delete
    entry is appended for each, in that order, and afterwards none of the
    named fields is stored; fields the call does not name, and other keys,
    are as before.  With an error, the fields before the one whose append
    failed are counted and appended, in that order; the failing field is
    removed from the index without being counted or appended, and the fields
    after it are left alone. *)
Theorem HDel_counts_removed_fields (db : RoseDB) (key : bytes) (field : list bytes) :
  checkKeyValue key [EmptyString] = None →
  let r := HDel checkKeyValue Size db key field in
  (r.1.2 = None →
   r.1.1 = Z.of_nat (length (HashView.stored_fields db key field)) ∧
   map snd (written r.2) =
     map snd (written db) ++
     map (λ f, NewEntry key EmptyString f HashHDel) (HashView.stored_fields db key field) ∧
   (∀ k' f', Hash_HGet (indexes r.2) k' f' =
             if decide (k' = key ∧ f' ∈ field) then None
             else Hash_HGet (indexes db) k' f')) ∧
  (r.1.2 ≠ None →
   ∃ fs f rest,
     HashView.stored_fields db key field = fs ++ f :: rest ∧
     r.1.1 = Z.of_nat (length fs) ∧
     map snd (written r.2) =
       map snd (written db) ++ map (λ f, NewEntry key EmptyString f HashHDel) fs ∧
     (∀ k' f', Hash_HGet (indexes r.2) k' f' =
               if decide (k' = key ∧ f' ∈ fs ++ [f]) then None
               else Hash_HGet (indexes db) k' f')).
Proof.
  intros Hck.
  assert (Hloop : HDel checkKeyValue Size db key field = HDel_loop Size db key field 0).
  { unfold HDel. rewrite Hck. by destruct field. }
  simpl. rewrite Hloop.
  destruct (HDel_loop_spec key field db 0) as [Hok Herr]. simpl in *.
  split.
  - intros Hnone. destruct (Hok Hnone) as (R1 & R2 & R3).
    split; [lia|]. split; [done|done].
  - intros He. destruct (Herr He) as (fs & f0 & rest0 & E & R1 & R2 & R3).
    exists fs, f0, rest0. split; [done|]. split; [lia|]. split; [done|done].
Qed.

(** X12.  [HSet] in value-in-memory mode, on a key that passes validation: after a
    call that returns no error, [HGet] returns the value set, and a second
    [HSet] of the same value returns 0 and changes nothing: no entry is
    appended and the index is left alone. *)
Theorem HSet_value_in_memory (db : RoseDB) (key field value : bytes) :
  IdxMode db = KeyValueMemMode →
  checkKeyValue key [EmptyString] = None →
  (HSet checkKeyValue Size db key field value).1.2 = None →
  HGet checkKeyValue (HSet checkKeyValue Size db key field value).2 key field = Ok value ∧
  HSet checkKeyValue Size (HSet checkKeyValue Size db key field value).2 key field value =
    (0, None, (HSet checkKeyValue Size db key field value).2).
Proof.
  intros Hmode Hck Hok.
  assert (Hcase : checkKeyValue key [value] = None ∧
            IdxMode (HSet checkKeyValue Size db key field value).2 = KeyValueMemMode ∧
            HGet checkKeyValue (HSet checkKeyValue Size db key field value).2 key field
              = Ok value).
  { revert Hok. unfold HSet.
    destruct (checkKeyValue key [value]) as [err|] eqn:Hv; [done|].
    rewrite decide_True by done.
    destruct (HGet checkKeyValue db key field) as [oldVal|err] eqn:Hg; [|done].
    case_decide as Hsame.
    { intros _. simpl. by rewrite Hg, Hsame. }
    unfold HSet_locked.
    pose proof (store_ok_active Size db (NewEntry key value field HashHSet)) as Hact.
    assert (Hm1 : IdxMode (store Size db (NewEntry key value field HashHSet)).2 = IdxMode db).
    { unfold store. destruct (activeFile db); [|done]. by destruct (faults db) as [|[] fs]. }
    destruct (store Size db (NewEntry key value field HashHSet)) as [[err|] db1];
      [done|]. simpl in Hact, Hm1.
    destruct (Hact eq_refl) as [af Haf].
    unfold setHashIndexer. rewrite Haf, Hm1, decide_True by done.
    match goal with |- context [Hash_HSetIndexer ?h ?i false] =>
      assert (Hget : Hash_HGet (Hash_HSetIndexer h i false).2 key field = Some i);
      [|destruct (Hash_HSetIndexer h i false) as [res h'] eqn:Hr]
    end.
    { unfold Hash_HSetIndexer, Hash_HGet. simpl.
      match goal with |- context [default ∅ ?o !! field] =>
        destruct (default ∅ o !! field) end; simpl;
        rewrite lookup_insert_eq; simpl; by rewrite lookup_insert_eq. }
    simpl in *. intros _. split; [done|]. split; [by rewrite Hm1|].
    unfold HGet. rewrite Hck. simpl. rewrite Hm1, Hmode, Hget. done. }
  destruct Hcase as (Hv & Hm & Hg). split; [done|].
  unfold HSet at 1. rewrite Hv, Hg.
  rewrite decide_True by done. by rewrite decide_True.
Qed.

(** X13.  [HSetNx] on a valid key, with an active file.  On a stored field it
    returns 0 and changes nothing.  On a field that is not stored it returns
    1 and puts the field in the index before it appends: the indexer carries
    the offset of the active file at that moment less the size of the entry,
    while the entry, if the append succeeds, is written at the offset itself;
    if the append fails, nothing is written, the field stays in the index,
    and a second [HSetNx] returns 0 without writing. *)
Theorem HSetNx_index_before_append (db : RoseDB) (key field value : bytes) (af : DBFile) :
  checkKeyValue key [value] = None →
  activeFile db = Some af →
  (field_stored db key field →
   HSetNx checkKeyValue Size db key field value = (0, None, db)) ∧
  (¬ field_stored db key field →
   (HSetNx checkKeyValue Size db key field value).1.1 = 1 ∧
   (∃ i, Hash_HGet (indexes (HSetNx checkKeyValue Size db key field value).2) key field
           = Some i ∧
         FileId i = Id af ∧
         Offset i = FOffset af - Size (NewEntry key value field HashHSet)) ∧
   ((HSetNx checkKeyValue Size db key field value).1.2 = None →
    written (HSetNx checkKeyValue Size db key field value).2 =
      written db ++ [(Id af, FOffset af, NewEntry key value field HashHSet)]) ∧
   ((HSetNx checkKeyValue Size db key field value).1.2 ≠ None →
    written (HSetNx checkKeyValue Size db key field value).2 = written db ∧
    HSetNx checkKeyValue Size (HSetNx checkKeyValue Size db key field value).2
      key field value =
      (0, None, (HSetNx checkKeyValue Size db key field value).2))).
Proof.
  intros Hck Haf.
  assert (Hstored : ∀ d, is_Some (activeFile d) → field_stored d key field →
                         HSetNx checkKeyValue Size d key field value = (0, None, d)).
  { intros d [a Ha] [i Hi]. unfold HSetNx, setHashIndexer. rewrite Hck, Ha.
    unfold Hash_HSetIndexer. simpl. unfold Hash_HGet in Hi.
    destruct (indexes d !! key) as [fields|]; [|done]. simpl in *. rewrite Hi.
    simpl. f_equal. by destruct d. }
  split; [intros Hst; apply Hstored; [by eexists|done]|].
  intros Hno.
  assert (Hnone : default ∅ (indexes db !! key) !! field = None).
  { unfold field_stored, Hash_HGet in Hno.
    destruct (indexes db !! key) as [fields|]; simpl in *.
    - destruct (fields !! field) eqn:E; [|done]. destruct Hno. by eexists.
    - apply lookup_empty. }
  set (idx := mkIndexer
                (mkMeta key (if decide (IdxMode db = KeyValueMemMode) then value
                             else EmptyString) field)
                (Id af) (FOffset af - Size (NewEntry key value field HashHSet))).
  set (h := <[key := <[field := idx]> (default ∅ (indexes db !! key))]> (indexes db)).
  assert (E : HSetNx checkKeyValue Size db key field value =
              match faults db with
              | true :: fs =>
                  (1, Some ErrIO,
                   mkDB (IdxMode db) (maxFileSize db) h (activeFile db) (written db) fs)
              | _ =>
                  (1, None,
                   mkDB (IdxMode db) (maxFileSize db) h
                     (Some (if decide (FOffset af + Size (NewEntry key value field HashHSet)
                                       > maxFileSize db)
                            then mkFile (Id af + 1) 0
                            else mkFile (Id af)
                                   (FOffset af + Size (NewEntry key value field HashHSet))))
                     (written db ++ [(Id af, FOffset af, NewEntry key value field HashHSet)])
                     (tail (faults db)))
              end).
  { unfold HSetNx, setHashIndexer. rewrite Hck, Haf.
    unfold Hash_HSetIndexer. simpl. rewrite Hnone. simpl.
    unfold store. simpl. rewrite Haf. by destruct (faults db) as [|[] fs]. }
  assert (Hh : Hash_HGet h key field = Some idx).
  { unfold Hash_HGet, h. rewrite lookup_insert_eq. simpl. by rewrite lookup_insert_eq. }
  rewrite !E.
  destruct (faults db) as [|[] fs] eqn:Hf; simpl.
  - split; [done|]. split; [by exists idx|]. split; [done|]. intros H. done.
  - split; [done|]. split; [by exists idx|]. split; [done|]. intros _. split; [done|].
    apply Hstored; simpl; [by rewrite Haf|]. unfold field_stored. simpl.
    rewrite Hh. by eexists.
  - split; [done|]. split; [by exists idx|]. split; [done|]. intros H. done.
Qed.

(** X14.  [HSet] in key-only mode, when it returns no error: one entry is
    appended, at the id and the offset of the active file.  [setHashIndexer]
    then reads the active file again.  When the append left the active file
    in place (the size reached is within [maxFileSize]), the indexer the
    field gets carries the file and the offset at which the entry was written.
    When the append went past [maxFileSize] and a new active file was opened,
    the indexer carries the id of the new file and the offset 0 less the size
    of the entry, which is not where the entry was written. *)
Theorem HSet_indexer_position (db : RoseDB) (key field value : bytes) :
  IdxMode db = KeyOnlyMemMode →
  (HSet checkKeyValue Size db key field value).1.2 = None →
  ∃ af i,
    activeFile db = Some af ∧
    written (HSet checkKeyValue Size db key field value).2 =
      written db ++ [(Id af, FOffset af, NewEntry key value field HashHSet)] ∧
    Hash_HGet (indexes (HSet checkKeyValue Size db key field value).2) key field = Some i ∧
    (FOffset af + Size (NewEntry key value field HashHSet) <= maxFileSize db →
     FileId i = Id af ∧ Offset i = FOffset af) ∧
    (FOffset af + Size (NewEntry key value field HashHSet) > maxFileSize db →
     FileId i = Id af + 1 ∧ Offset i = - Size (NewEntry key value field HashHSet)).
Proof.
  intros Hmode. unfold HSet.
  destruct (checkKeyValue key [value]) as [err|]; [done|].
  rewrite decide_False by (by rewrite Hmode).
  unfold HSet_locked, store.
  destruct (activeFile db) as [af|] eqn:Haf; [|done].
  assert (Hlook : ∀ (h : gmap string (gmap string Indexer)) i,
             Key (IMeta i) = key → Extra (IMeta i) = field →
             Hash_HGet (Hash_HSetIndexer h i false).2 key field = Some i).
  { intros h i Hk He. unfold Hash_HSetIndexer, Hash_HGet. rewrite Hk, He.
    destruct (default ∅ (h !! key) !! field); simpl;
      rewrite lookup_insert_eq; simpl; by rewrite lookup_insert_eq. }
  assert (Hgoal : ∀ fs,
    let db1 := mkDB (IdxMode db) (maxFileSize db) (indexes db)
                 (Some (if decide (FOffset af + Size (NewEntry key value field HashHSet)
                                   > maxFileSize db)
                        then mkFile (Id af + 1) 0
                        else mkFile (Id af)
                               (FOffset af + Size (NewEntry key value field HashHSet))))
                 (written db ++ [(Id af, FOffset af, NewEntry key value field HashHSet)])
                 fs in
    ∃ af0 i,
      Some af = Some af0 ∧
      written (setHashIndexer Size db1 (NewEntry key value field HashHSet) false).2 =
        written db ++ [(Id af0, FOffset af0, NewEntry key value field HashHSet)] ∧
      Hash_HGet (indexes (setHashIndexer Size db1 (NewEntry key value field HashHSet)
                            false).2) key field = Some i ∧
      (FOffset af0 + Size (NewEntry key value field HashHSet) <= maxFileSize db →
       FileId i = Id af0 ∧ Offset i = FOffset af0) ∧
      (FOffset af0 + Size (NewEntry key value field HashHSet) > maxFileSize db →
       FileId i = Id af0 + 1 ∧
       Offset i = - Size (NewEntry key value field HashHSet))).
  { intros fs db1. unfold setHashIndexer, db1. simpl.
    match goal with |- context [Hash_HSetIndexer ?h ?i false] =>
      pose proof (Hlook h i eq_refl eq_refl) as Hget;
      destruct (Hash_HSetIndexer h i false) as [res h'] eqn:Hr
    end.
    simpl in *. eexists af, _. split; [done|]. split; [done|].
    split; [exact Hget|]. simpl.
    destruct (decide (FOffset af + Size (NewEntry key value field HashHSet)
                      > maxFileSize db)); simpl; split; intros; (lia || (split; lia)). }
  destruct (faults db) as [|[] fs]; simpl; [|done|].
  - intros _. specialize (Hgoal []). simpl in Hgoal.
    destruct (setHashIndexer Size _ _ false) as [res db2]. exact Hgoal.
  - intros _. specialize (Hgoal fs). simpl in Hgoal.
    destruct (setHashIndexer Size _ _ false) as [res db2]. exact Hgoal.
Qed.

End HashFields.

Lemma HDel_counts_removed_fields_witness :
  (HashDB.HDel HashDB.check_nonempty HashDB.size_of (HashView.db_fg [])
     "H" ["g"%string; "x"%string; "f"%string; "g"%string]).1.1 = 2 ∧
  map snd
    (HashDB.written
       (HashDB.HDel HashDB.check_nonempty HashDB.size_of (HashView.db_fg [])
          "H" ["g"%string; "x"%string; "f"%string; "g"%string]).2) =
  map snd (HashDB.written (HashView.db_fg [])) ++
  [HashDB.NewEntry "H" "" "g" HashDB.HashHDel; HashDB.NewEntry "H" "" "f" HashDB.HashHDel].
Proof.
  destruct (proj1 (HDel_counts_removed_fields HashDB.check_nonempty HashDB.size_of
                     (HashView.db_fg []) "H"
                     ["g"%string; "x"%string; "f"%string; "g"%string] eq_refl))
    as (H1 & H2 & _).
  - vm_compute. reflexivity.
  - split; [exact H1|exact H2].
Defined.

Lemma HSet_value_in_memory_witness :
  HashDB.HGet HashDB.check_nonempty
    (HashDB.HSet HashDB.check_nonempty HashDB.size_of (HashView.db_fg []) "H" "f" "3").2
    "H" "f" = Ok "3"%string.
Proof.
  exact (proj1 (HSet_value_in_memory HashDB.check_nonempty HashDB.size_of
                  (HashView.db_fg []) "H" "f" "3" eq_refl eq_refl eq_refl)).
Defined.

Lemma HSetNx_index_before_append_witness :
  (HashDB.HSetNx HashDB.check_nonempty HashDB.size_of
     (HashDB.empty_db HashDB.KeyOnlyMemMode [true]) "H" "f" "v").1.1 = 1 ∧
  ∃ i, HashDB.Hash_HGet
         (HashDB.indexes
            (HashDB.HSetNx HashDB.check_nonempty HashDB.size_of
               (HashDB.empty_db HashDB.KeyOnlyMemMode [true]) "H" "f" "v").2) "H" "f"
         = Some i ∧
       HashDB.FileId i = 0 ∧
       HashDB.Offset i = 0 - HashDB.size_of (HashDB.NewEntry "H" "v" "f" HashDB.HashHSet).
Proof.
  assert (Hno : ¬ HashDB.field_stored (HashDB.empty_db HashDB.KeyOnlyMemMode [true]) "H" "f").
  { intros [x Hx]. vm_compute in Hx. discriminate. }
  destruct (proj2 (HSetNx_index_before_append HashDB.check_nonempty HashDB.size_of
                     (HashDB.empty_db HashDB.KeyOnlyMemMode [true]) "H" "f" "v"
                     (HashDB.mkFile 0 0) eq_refl eq_refl) Hno) as (H1 & H2 & _).
  split; [exact H1|exact H2].
Defined.

Lemma HSet_indexer_position_witness :
  let db1 := (HashDB.HSet HashDB.check_nonempty HashDB.size_of
                (HashDB.empty_db_sized HashDB.KeyOnlyMemMode 50 []) "H" "f" "v").2 in
  ∃ af i,
    HashDB.activeFile db1 = Some af ∧
    HashDB.written (HashDB.HSet HashDB.check_nonempty HashDB.size_of db1 "H" "g" "w").2 =
      HashDB.written db1 ++
      [(HashDB.Id af, HashDB.FOffset af, HashDB.NewEntry "H" "w" "g" HashDB.HashHSet)] ∧
    HashDB.Hash_HGet
      (HashDB.indexes (HashDB.HSet HashDB.check_nonempty HashDB.size_of db1 "H" "g" "w").2)
      "H" "g" = Some i ∧
    HashDB.Id af = 0 ∧ HashDB.FOffset af = 29 ∧
    HashDB.FileId i = 1 ∧ HashDB.Offset i = -29.
Proof.
  intros db1.
  destruct (HSet_indexer_position HashDB.check_nonempty HashDB.size_of db1 "H" "g" "w"
              eq_refl eq_refl) as (af & i & Ha & Hw & Hi & _ & Hrot).
  assert (Haf : af = HashDB.mkFile 0 29).
  { assert (E : HashDB.activeFile db1 = Some (HashDB.mkFile 0 29))
      by (vm_compute; reflexivity).
    rewrite E in Ha. by injection Ha. }
  exists af, i. split; [exact Ha|]. split; [exact Hw|]. split; [exact Hi|].
  subst af. split; [reflexivity|]. split; [reflexivity|].
  apply Hrot. vm_compute. reflexivity.
Defined.
